(** * DocAgent dependency analyzer: shallow embedding and verification

    The development follows [src/dependency_analyzer/topo_sort.py] and
    [src/dependency_analyzer/ast_parser.py].

    Conventions of the embedding.
    - A Python [dict] whose iteration order is observable is an association
      list in insertion order with unique keys.
    - A Python [set] of strings is the list of its members in the order in
      which the interpreter iterates over it; every result below holds for
      all such orders.  Where the code only tests membership or sorts the
      set, the order is irrelevant.
    - The dictionaries [index], [lowlink], [has_incoming_edge] and the sets
      [onstack], [visited], which are never iterated, are finite maps and
      finite sets.
    - A Python call either returns or raises; recursion that is not
      structural takes fuel, and running out of fuel is a third outcome that
      the theorems exclude. *)

From Stdlib Require Import ZArith Ascii.
From stdpp Require Import base option list sorting relations gmap strings.

#[local] Set Warnings "-register-all,-clear-no-such-hyp".

(** ** Outcomes of a call *)

Inductive exn : Type :=
  | KeyError
  | IndexError
  | AttributeError
  | UnboundLocalError
  | TypeError
  | ValueError
  | SyntaxError
  | UnicodeDecodeError
  | FileNotFoundError.

Inductive res (A : Type) : Type :=
  | Ok (a : A)
  | Raise (e : exn)
  | OutOfFuel.

Arguments Ok {A} a.
Arguments Raise {A} e.
Arguments OutOfFuel {A}.

#[global] Instance res_ret : MRet res := λ A a, Ok a.

#[global] Instance res_bind : MBind res := λ A B k m,
  match m with
  | Ok a => k a
  | Raise e => Raise e
  | OutOfFuel => OutOfFuel
  end.

(** [for x in l: body], the loop state threaded through the iterations. *)
Fixpoint for_each {A S : Type} (body : A → S → res S) (l : list A) (s : S)
  : res S :=
  match l with
  | [] => Ok s
  | x :: l' => s' ← body x s ; for_each body l' s'
  end.

(** ** Python containers *)

(** Insertion-ordered dictionaries with string keys. *)
Definition dict (V : Type) : Type := list (string * V).

Definition keys {V : Type} (d : dict V) : list string := d.*1.

Fixpoint dict_get {V : Type} (d : dict V) (k : string) : option V :=
  match d with
  | [] => None
  | (k', v) :: d' => if decide (k' = k) then Some v else dict_get d' k
  end.

(** [d[k] = v]: an existing key keeps its position, a new key goes last. *)
Fixpoint dict_set {V : Type} (d : dict V) (k : string) (v : V) : dict V :=
  match d with
  | [] => [(k, v)]
  | (k', v') :: d' =>
      if decide (k' = k) then (k, v) :: d' else (k', v') :: dict_set d' k v
  end.

(** [d[k]], which raises [KeyError] on a missing key. *)
Definition dict_item {V : Type} (d : dict V) (k : string) : res V :=
  match dict_get d k with
  | Some v => Ok v
  | None => Raise KeyError
  end.

Definition map_item {V : Type} (m : gmap string V) (k : string) : res V :=
  match m !! k with
  | Some v => Ok v
  | None => Raise KeyError
  end.

(** Sets of strings in iteration order. *)
Definition pyset : Type := list string.

Definition set_add (x : string) (s : pyset) : pyset :=
  if decide (x ∈ s) then s else s ++ [x].

Definition set_remove (x : string) (s : pyset) : res pyset :=
  if decide (x ∈ s) then Ok (filter (λ y, y ≠ x) s) else Raise KeyError.

(** [set(l)] *)
Definition set_of_list (l : list string) : pyset :=
  foldl (λ s x, set_add x s) [] l.

(** [sorted(...)] on strings: code point order. *)
Definition sorted (l : list string) : list string := merge_sort String.le l.

(** ** The dependency graph ([topo_sort.py]) *)

Definition graph : Type := dict pyset.

(** [graph.get(node, set())] *)
Definition successors (g : graph) (node : string) : pyset :=
  default [] (dict_get g node).

Definition edge (g : graph) (u v : string) : Prop := v ∈ successors g u.

(** Every id the graph mentions: its keys and the members of its sets. *)
Definition mentioned (g : graph) : list string :=
  keys g ++ concat g.*2.

(** *** [detect_cycles]: Tarjan's algorithm

    The Python list [stack] grows and shrinks at its end; here the head of
    the list is that end. *)

Record tarjan : Type := Tarjan {
  index_counter : nat;
  index : gmap string nat;
  lowlink : gmap string nat;
  onstack : gset string;
  stack : list string;
  result : list (list string)
}.

Definition tarjan_init : tarjan :=
  Tarjan 0 ∅ ∅ ∅ [] [].

Definition set_lowlink (node : string) (n : nat) (st : tarjan) : tarjan :=
  Tarjan (index_counter st) (index st) (<[node := n]> (lowlink st))
         (onstack st) (stack st) (result st).

(** Lines 31-35: number the node and push it. *)
Definition enter (node : string) (st : tarjan) : tarjan :=
  Tarjan (S (index_counter st))
         (<[node := index_counter st]> (index st))
         (<[node := index_counter st]> (lowlink st))
         ({[node]} ∪ onstack st)
         (node :: stack st)
         (result st).

(** Lines 38-42: one iteration of the loop over the successors; [rec] is the
    recursive call. *)
Definition visit_successor (rec : string → tarjan → res tarjan)
    (node successor : string) (st : tarjan) : res tarjan :=
  if decide (successor ∉ dom (index st)) then
    st' ← rec successor st ;
    a ← map_item (lowlink st') node ;
    b ← map_item (lowlink st') successor ;
    Ok (set_lowlink node (a `min` b) st')
  else if decide (successor ∈ onstack st) then
    a ← map_item (lowlink st) node ;
    b ← map_item (index st) successor ;
    Ok (set_lowlink node (a `min` b) st)
  else Ok st.

(** Lines 46-51: pop down to and including [node]. *)
Fixpoint pop_scc (node : string) (stk : list string) (ons : gset string)
    (scc : list string) : res (list string * gset string * list string) :=
  match stk with
  | [] => Raise IndexError
  | successor :: stk' =>
      if decide (successor ∈ ons) then
        let ons' := ons ∖ {[successor]} in
        let scc' := scc ++ [successor] in
        if decide (successor = node) then Ok (stk', ons', scc')
        else pop_scc node stk' ons' scc'
      else Raise KeyError
  end.

(** Lines 44-54. *)
Definition finish (node : string) (st : tarjan) : res tarjan :=
  a ← map_item (lowlink st) node ;
  b ← map_item (index st) node ;
  if decide (a = b) then
    '(stk, ons, scc) ← pop_scc node (stack st) (onstack st) [] ;
    Ok (Tarjan (index_counter st) (index st) (lowlink st) ons stk
               (if decide (1 < length scc) then result st ++ [scc]
                else result st))
  else Ok st.

Fixpoint strongconnect (g : graph) (fuel : nat) (node : string) (st : tarjan)
  : res tarjan :=
  match fuel with
  | 0 => OutOfFuel
  | S fuel' =>
      st' ← for_each (visit_successor (strongconnect g fuel') node)
                     (successors g node) (enter node st) ;
      finish node st'
  end.

(** Lines 56-58. *)
Definition detect_root (g : graph) (fuel : nat) (node : string) (st : tarjan)
  : res tarjan :=
  if decide (node ∉ dom (index st)) then strongconnect g fuel node st
  else Ok st.

Definition detect_cycles_state (g : graph) : res tarjan :=
  for_each (detect_root g (S (length (mentioned g)))) (keys g) tarjan_init.

Definition detect_cycles (g : graph) : res (list (list string)) :=
  st ← detect_cycles_state g ; Ok (result st).

(** *** [resolve_cycles] *)

(** Lines 78-85: the pairs [(cycle[j], cycle[j+1])] in order, up to the first
    one whose edge is present. *)
Fixpoint break_cycle (cycle : list string) (new_graph : graph) : res graph :=
  match cycle with
  | current :: ((next_node :: _) as rest) =>
      deps ← dict_item new_graph current ;
      if decide (next_node ∈ deps) then
        deps' ← set_remove next_node deps ;
        Ok (dict_set new_graph current deps')
      else break_cycle rest new_graph
  | _ => Ok new_graph
  end.

Definition resolve_cycles (g : graph) : res graph :=
  cycles ← detect_cycles g ;
  match cycles with
  | [] => Ok g
  | _ => for_each break_cycle cycles g
  end.

(** *** [dependency_first_dfs] *)

Definition dfs_state : Type := gset string * list string.

(** Lines 114-122. *)
Fixpoint dfs (g : graph) (fuel : nat) (node : string) (st : dfs_state)
  : res dfs_state :=
  match fuel with
  | 0 => OutOfFuel
  | S fuel' =>
      if decide (node ∈ st.1) then Ok st
      else
        st' ← for_each (dfs g fuel') (sorted (successors g node))
                       ({[node]} ∪ st.1, st.2) ;
        Ok (st'.1, st'.2 ++ [node])
  end.

(** Lines 96-100. *)
Definition incoming (g : graph) : gmap string bool :=
  foldl (λ m dep, <[dep := true]> m)
        (foldl (λ m node, <[node := false]> m) ∅ (keys g))
        (concat g.*2).

(** Lines 102-108. *)
Definition roots (g : graph) : list string :=
  let has_incoming_edge := incoming g in
  let root_nodes :=
    filter (λ node, default false (has_incoming_edge !! node) = false)
           (keys g) in
  match root_nodes with
  | [] => take 1 (keys g)
  | _ => root_nodes
  end.

(** Lines 128-130. *)
Definition sweep (g : graph) (fuel : nat) (node : string) (st : dfs_state)
  : res dfs_state :=
  if decide (node ∉ st.1) then dfs g fuel node st else Ok st.

Definition traverse (g : graph) : res (list string) :=
  let fuel := S (length (mentioned g)) in
  st ← for_each (dfs g fuel) (sorted (roots g)) (∅, []) ;
  if decide (length st.2 ≠ length g) then
    st' ← for_each (sweep g fuel) (sorted (keys g)) st ;
    Ok st'.2
  else Ok st.2.

Definition dependency_first_dfs (g : graph) : res (list string) :=
  acyclic_graph ← resolve_cycles g ;
  traverse acyclic_graph.


(** ** Components ([ast_parser.py]) *)

(** *** The fragment of the [ast] grammar that the parser inspects *)

Inductive expr_context : Type := Load | Store | Del.

Inductive constant : Type :=
  | CStr (s : string)
  | CInt (z : Z)
  | CNone.

Inductive expr : Type :=
  | Constant (value : constant)
  | Name (id : string) (ctx : expr_context)
  | Attribute (value : expr) (attr : string)
  | Call (func : expr) (args : list expr).

Inductive stmt : Type :=
  | FunctionDef (name : string) (args : list string) (body : list stmt)
                (lineno : Z) (end_lineno : option Z)
  | AsyncFunctionDef (name : string) (args : list string) (body : list stmt)
                     (lineno : Z) (end_lineno : option Z)
  | ClassDef (name : string) (bases : list expr) (body : list stmt)
             (lineno : Z) (end_lineno : option Z)
  | Assign (targets : list expr) (value : expr)
  | Expr (value : expr)
  | Import (names : list string)
  | ImportFrom (module : option string) (names : list string)
  | If (test : expr) (body orelse : list stmt)
  | Pass.

Definition is_function_def (s : stmt) : bool :=
  match s with
  | FunctionDef _ _ _ _ _ | AsyncFunctionDef _ _ _ _ _ => true
  | _ => false
  end.

Definition stmt_name (s : stmt) : string :=
  match s with
  | FunctionDef n _ _ _ _ | AsyncFunctionDef n _ _ _ _ | ClassDef n _ _ _ _ => n
  | _ => ""
  end.

Definition stmt_body (s : stmt) : list stmt :=
  match s with
  | FunctionDef _ _ b _ _ | AsyncFunctionDef _ _ b _ _ | ClassDef _ _ b _ _ => b
  | _ => []
  end.

Definition stmt_lineno (s : stmt) : Z :=
  match s with
  | FunctionDef _ _ _ l _ | AsyncFunctionDef _ _ _ l _ | ClassDef _ _ _ l _ => l
  | _ => 0
  end.

(** [getattr(node, "end_lineno", node.lineno)] *)
Definition stmt_end_lineno (s : stmt) : Z :=
  match s with
  | FunctionDef _ _ _ l e | AsyncFunctionDef _ _ _ l e | ClassDef _ _ _ l e =>
      default l e
  | _ => 0
  end.

(** The statements directly below a statement, in field order. *)
Definition child_stmts (s : stmt) : list stmt :=
  match s with
  | If _ b o => b ++ o
  | _ => stmt_body s
  end.

Fixpoint stmt_size (s : stmt) : nat :=
  let sizes := fix sizes (l : list stmt) : nat :=
    match l with
    | [] => 0
    | x :: l' => stmt_size x + sizes l'
    end in
  match s with
  | FunctionDef _ _ b _ _ | AsyncFunctionDef _ _ b _ _ | ClassDef _ _ b _ _ =>
      S (sizes b)
  | If _ b o => S (sizes b + sizes o)
  | _ => 1
  end.

(** [ast.walk], restricted to statements: breadth first.  The flag records
    whether the node's parent is the [Module]. *)
Fixpoint walk (fuel : nat) (todo : list (stmt * bool)) : list (stmt * bool) :=
  match fuel, todo with
  | S fuel', (node, top) :: todo' =>
      (node, top) :: walk fuel' (todo' ++ ((λ c, (c, false)) <$> child_stmts node))
  | _, _ => []
  end.

Definition walk_module (tree : list stmt) : list (stmt * bool) :=
  walk (sum_list (stmt_size <$> tree)) ((λ c, (c, true)) <$> tree).

(** *** Strings: [str.split], [str.join], slicing of lines *)

Fixpoint split (sep : Ascii.ascii) (s : string) : list string :=
  match s with
  | EmptyString => [EmptyString]
  | String c s' =>
      if decide (c = sep) then EmptyString :: split sep s'
      else match split sep s' with
           | h :: t => String c h :: t
           | [] => [String c EmptyString]
           end
  end.

Fixpoint join (sep : string) (l : list string) : string :=
  match l with
  | [] => EmptyString
  | [x] => x
  | x :: l' => x +:+ sep +:+ join sep l'
  end.

Definition dot : Ascii.ascii := "."%char.

(** [s.split('.')[-1]] *)
Definition last_part (s : string) : string :=
  default EmptyString (last (split dot s)).

(** [s.split('.', 1)[0]] *)
Definition first_part (s : string) : string :=
  default EmptyString (head (split dot s)).

(** *** [CodeComponent] *)

Record CodeComponent : Type := mkComponent {
  id : string;
  node : option stmt;
  component_type : string;
  file_path : string;
  relative_path : string;
  depends_on : pyset;
  source_code : option string;
  start_line : Z;
  end_line : Z;
  has_docstring : bool;
  docstring : string
}.

Definition set_depends_on (deps : pyset) (c : CodeComponent) : CodeComponent :=
  mkComponent (id c) (node c) (component_type c) (file_path c)
              (relative_path c) deps (source_code c) (start_line c)
              (end_line c) (has_docstring c) (docstring c).

(** *** Serialisation: [to_dict], [from_dict], save and load

    The file written by [json.dump] and read back by [json.load] is
    represented by the JSON value it encodes. *)

Inductive json : Type :=
  | JNull
  | JBool (b : bool)
  | JInt (z : Z)
  | JStr (s : string)
  | JList (l : list json)
  | JObj (fields : list (string * json)).

Definition to_dict (c : CodeComponent) : dict json :=
  [ ("id", JStr (id c));
    ("component_type", JStr (component_type c));
    ("file_path", JStr (file_path c));
    ("relative_path", JStr (relative_path c));
    ("depends_on", JList (JStr <$> depends_on c));
    ("start_line", JInt (start_line c));
    ("end_line", JInt (end_line c));
    ("has_docstring", JBool (has_docstring c));
    ("docstring", JStr (docstring c)) ].

(** The record is typed, Python's is not: a field holding a value of
    another JSON type is reported as [TypeError] here. *)
Definition as_str (j : json) : res string :=
  match j with JStr s => Ok s | _ => Raise TypeError end.

Definition as_int (j : json) : res Z :=
  match j with JInt z => Ok z | _ => Raise TypeError end.

Definition as_bool (j : json) : res bool :=
  match j with JBool b => Ok b | _ => Raise TypeError end.

Fixpoint as_str_list (l : list json) : res (list string) :=
  match l with
  | [] => Ok []
  | j :: l' => s ← as_str j ; r ← as_str_list l' ; Ok (s :: r)
  end.

Definition as_list (j : json) : res (list string) :=
  match j with JList l => as_str_list l | _ => Raise TypeError end.

(** [data.get(k, d)] *)
Definition get_default (data : dict json) (k : string) (d : json) : json :=
  default d (dict_get data k).

Definition from_dict (data : dict json) : res CodeComponent :=
  i ← dict_item data "id" ≫= as_str ;
  ct ← dict_item data "component_type" ≫= as_str ;
  fp ← dict_item data "file_path" ≫= as_str ;
  rp ← dict_item data "relative_path" ≫= as_str ;
  deps ← as_list (get_default data "depends_on" (JList [])) ;
  sl ← as_int (get_default data "start_line" (JInt 0)) ;
  el ← as_int (get_default data "end_line" (JInt 0)) ;
  hd ← as_bool (get_default data "has_docstring" (JBool false)) ;
  ds ← as_str (get_default data "docstring" (JStr "")) ;
  Ok (mkComponent i None ct fp rp (set_of_list deps) None sl el hd ds).

Definition components_table : Type := dict CodeComponent.

(** Lines 485-493: the value written to the file. *)
Definition save_dependency_graph (components : components_table) : json :=
  JObj ((λ kv, (kv.1, JObj (to_dict kv.2))) <$> components).

(** Lines 499-505.  [json.load] turns the object into a dictionary, which
    the comprehension then traverses. *)
Definition dict_of_pairs {V : Type} (l : list (string * V)) : dict V :=
  foldl (λ d kv, dict_set d kv.1 kv.2) [] l.

Definition load_component (kv : string * json) (acc : components_table)
  : res components_table :=
  c ← match kv.2 with
      | JObj data => from_dict (dict_of_pairs data)
      | _ => Raise TypeError
      end ;
  Ok (dict_set acc kv.1 c).

Definition load_dependency_graph (file : json) : res components_table :=
  match file with
  | JObj l => for_each load_component (dict_of_pairs l) []
  | _ => Raise TypeError
  end.

(** *** [build_graph_from_components] ([topo_sort.py], lines 7-19) *)

Definition add_dependency_edge (components : components_table)
    (comp_id dep_id : string) (g : graph) : res graph :=
  if decide (dep_id ∈ keys components) then
    deps ← dict_item g comp_id ;
    Ok (dict_set g comp_id (set_add dep_id deps))
  else Ok g.

Definition add_component (components : components_table)
    (entry : string * CodeComponent) (g : graph) : res graph :=
  let g' := if decide (entry.1 ∉ keys g) then dict_set g entry.1 [] else g in
  for_each (add_dependency_edge components entry.1) (depends_on entry.2) g'.

Definition build_graph_from_components (components : components_table)
  : res graph :=
  for_each (add_component components) components [].

(** *** [_add_class_method_dependencies] (lines 433-453) *)

(** Lines 436-447. *)
Definition record_method (entry : string * CodeComponent)
    (class_methods : dict (list string)) : dict (list string) :=
  if decide (component_type entry.2 = "method") then
    let parts := split dot entry.1 in
    if decide (2 ≤ length parts) then
      let method_name := default EmptyString (last parts) in
      let class_id := join "." (removelast parts) in
      let class_methods' :=
        if decide (class_id ∉ keys class_methods)
        then dict_set class_methods class_id []
        else class_methods in
      if decide (method_name ≠ "__init__") then
        dict_set class_methods' class_id
                 (default [] (dict_get class_methods' class_id) ++ [entry.1])
      else class_methods'
    else class_methods
  else class_methods.

Definition class_methods_of (components : components_table)
  : dict (list string) :=
  foldl (λ cm entry, record_method entry cm) [] components.

(** Lines 449-453. *)
Definition attach_methods (components : components_table)
    (entry : string * list string) : components_table :=
  match dict_get components entry.1 with
  | Some class_component =>
      dict_set components entry.1
        (set_depends_on
           (foldl (λ s m, set_add m s) (depends_on class_component) entry.2)
           class_component)
  | None => components
  end.

Definition add_class_method_dependencies (components : components_table)
  : components_table :=
  foldl attach_methods components (class_methods_of components).

(** *** Paths and source text *)

Fixpoint ends_with_py (s : string) : bool :=
  match s with
  | EmptyString => false
  | String c s' => if decide (s = ".py") then true else ends_with_py s'
  end.

(** [s[:-3]] *)
Definition drop_last3 (s : string) : string :=
  String.substring 0 (String.length s - 3) s.

Fixpoint replace_char (a b : Ascii.ascii) (s : string) : string :=
  match s with
  | EmptyString => EmptyString
  | String c s' => String (if decide (c = a) then b else c) (replace_char a b s')
  end.

(** Lines 213-215, with ["/"] for [os.path.sep]. *)
Definition file_to_module_path (file_path : string) : string :=
  let path := if ends_with_py file_path then drop_last3 file_path
              else file_path in
  replace_char "/"%char dot path.

(** [l[a:b]] for arbitrary integers. *)
Definition py_slice {A : Type} (l : list A) (a b : Z) : list A :=
  let n := Z.of_nat (length l) in
  let norm (i : Z) : Z := if (i <? 0)%Z then Z.max (i + n) 0 else Z.min i n in
  take (Z.to_nat (norm b - norm a)) (drop (Z.to_nat (norm a)) l).

(** *** Extraction and resolution

    What the interpreter and the file system supply is a parameter:
    [dir(builtins)], [ast.get_source_segment], and the reading and parsing of
    a file, which gives its text and the body of its [Module] or raises. *)

Section Parser.

Variable BUILTIN_TYPES : list string.
Variable ast_get_source_segment : string → stmt → option string.
Variable read_and_parse : string → res (string * list stmt).

Definition STANDARD_MODULES : list string :=
  [ "abc"; "argparse"; "array"; "asyncio"; "base64"; "collections"; "copy";
    "csv"; "datetime"; "enum"; "functools"; "glob"; "io"; "itertools";
    "json"; "logging"; "math"; "os"; "pathlib"; "random"; "re"; "shutil";
    "string"; "sys"; "time"; "typing"; "uuid"; "warnings"; "xml" ].

Definition EXCLUDED_NAMES : list string := [ "self"; "cls" ].

(** [ImportCollector], lines 71-93. *)
Definition import_state : Type := pyset * dict (list string).

Definition visit_Import (names : list string) (st : import_state)
  : import_state :=
  (foldl (λ s n, set_add n s) st.1 names, st.2).

Definition visit_ImportFrom (module : option string) (names : list string)
    (st : import_state) : import_state :=
  match module with
  | None => st
  | Some m =>
      let fi := if decide (m ∉ keys st.2) then dict_set st.2 m [] else st.2 in
      (st.1,
       foldl (λ fi n, if decide (n ≠ "*")
                      then dict_set fi m (default [] (dict_get fi m) ++ [n])
                      else fi) fi names)
  end.

Fixpoint import_visit (s : stmt) (st : import_state) : import_state :=
  let visit_all := fix visit_all (l : list stmt) (st : import_state) :=
    match l with
    | [] => st
    | x :: l' => visit_all l' (import_visit x st)
    end in
  match s with
  | Import names => visit_Import names st
  | ImportFrom module names => visit_ImportFrom module names st
  | FunctionDef _ _ b _ _ | AsyncFunctionDef _ _ b _ _ | ClassDef _ _ b _ _ =>
      visit_all b st
  | If _ b o => visit_all o (visit_all b st)
  | _ => st
  end.

Definition collect_imports (tree : list stmt) : import_state :=
  foldl (λ st s, import_visit s st) ([], []) tree.

(** [DependencyCollector], lines 95-204. *)
Record collector : Type := mkCollector {
  dependencies : pyset;
  local_variables : pyset;
  current_class : option string
}.

Section Collector.

Variable imports : pyset.
Variable from_imports : dict (list string).
Variable current_module : string.
Variable repo_modules : pyset.

Definition add_dep (d : string) (c : collector) : collector :=
  mkCollector (set_add d (dependencies c)) (local_variables c)
              (current_class c).

Definition add_local (x : string) (c : collector) : collector :=
  mkCollector (dependencies c) (set_add x (local_variables c))
              (current_class c).

Definition set_class (k : option string) (c : collector) : collector :=
  mkCollector (dependencies c) (local_variables c) k.

(** Lines 116-122: the first module that imports the name. *)
Fixpoint importing_module (name : string) (fi : dict (list string))
  : option string :=
  match fi with
  | [] => None
  | (module, imported_names) :: fi' =>
      if decide (module ∈ STANDARD_MODULES) then importing_module name fi'
      else if decide (name ∈ imported_names ∧ module ∈ repo_modules)
           then Some module
           else importing_module name fi'
  end.

(** [_add_dependency], lines 105-126. *)
Definition add_dependency (name : string) (c : collector) : collector :=
  if decide (name ∈ BUILTIN_TYPES) then c
  else if decide (name ∈ EXCLUDED_NAMES) then c
  else if decide (name ∈ local_variables c) then c
  else match importing_module name from_imports with
       | Some module => add_dep (module +:+ "." +:+ name) c
       | None => add_dep (current_module +:+ "." +:+ name) c
       end.

Fixpoint attribute_chain (e : expr) (parts : list string)
  : expr * list string :=
  match e with
  | Attribute v a => attribute_chain v (a :: parts)
  | _ => (e, parts)
  end.

(** [_process_attribute], lines 128-163. *)
Definition process_attribute (e : expr) (c : collector) : collector :=
  match attribute_chain e [] with
  | (Name root _, rest) =>
      if decide (root ∈ local_variables c) then c
      else if decide (root ∈ EXCLUDED_NAMES) then c
      else if decide (root ∈ imports) then
        if decide (root ∈ STANDARD_MODULES) then c
        else if decide (root ∈ repo_modules) then
          match rest with
          | second :: _ => add_dep (root +:+ "." +:+ second) c
          | [] => c
          end
        else c
      else if decide (root ∈ keys from_imports) then
        if decide (root ∈ STANDARD_MODULES) then c
        else match rest with
             | second :: _ =>
                 if decide (second ∈ default [] (dict_get from_imports root))
                 then add_dep (root +:+ "." +:+ second) c
                 else c
             | [] => c
             end
      else c
  | _ => c
  end.

(** [visit] on expressions: [visit_Call], [visit_Name], [visit_Attribute]. *)
Fixpoint visit_expr (e : expr) (c : collector) : collector :=
  let visit_all := fix visit_all (l : list expr) (c : collector) :=
    match l with
    | [] => c
    | x :: l' => visit_all l' (visit_expr x c)
    end in
  match e with
  | Constant _ => c
  | Name i Load => add_dependency i c
  | Name _ _ => c
  | Attribute v _ => visit_expr v (process_attribute e c)
  | Call f args =>
      let c1 := match f with
                | Name i _ => add_dependency i c
                | Attribute _ _ => process_attribute f c
                | _ => c
                end in
      visit_all args (visit_expr f c1)
  end.

Definition visit_exprs (l : list expr) (c : collector) : collector :=
  foldl (λ c e, visit_expr e c) c l.

(** Lines 170-174. *)
Definition visit_base (base : expr) (c : collector) : collector :=
  match base with
  | Name i _ => add_dependency i c
  | Attribute _ _ => process_attribute base c
  | _ => c
  end.

(** Lines 181-183. *)
Definition bind_target (target : expr) (c : collector) : collector :=
  match target with
  | Name i _ => add_local i c
  | _ => c
  end.

(** [visit] on statements: [visit_ClassDef], [visit_Assign], and the generic
    visit elsewhere. *)
Fixpoint visit_stmt (s : stmt) (c : collector) : collector :=
  let visit_all := fix visit_all (l : list stmt) (c : collector) :=
    match l with
    | [] => c
    | x :: l' => visit_all l' (visit_stmt x c)
    end in
  match s with
  | ClassDef name bases b _ _ =>
      let old_class := current_class c in
      let c1 := foldl (λ c base, visit_base base c)
                      (set_class (Some name) c) bases in
      set_class old_class (visit_all b (visit_exprs bases c1))
  | Assign targets value =>
      let c1 := foldl (λ c t, bind_target t c) c targets in
      visit_expr value (visit_exprs targets c1)
  | FunctionDef _ _ b _ _ | AsyncFunctionDef _ _ b _ _ => visit_all b c
  | Expr value => visit_expr value c
  | If test b o => visit_all o (visit_all b (visit_expr test c))
  | Import _ | ImportFrom _ _ | Pass => c
  end.

End Collector.

(** [_get_docstring], lines 217-232. *)
Definition string_statement (s : stmt) : option string :=
  match s with
  | Expr (Constant (CStr v)) => Some v
  | _ => None
  end.

Definition get_docstring (n : stmt) : string :=
  match n with
  | FunctionDef _ _ b _ _ | AsyncFunctionDef _ _ b _ _ | ClassDef _ _ b _ _ =>
      default EmptyString (head (omap string_statement b))
  | _ => EmptyString
  end.

(** [_get_source_segment], lines 234-250. *)
Definition get_source_segment (source : string) (n : stmt) : string :=
  match ast_get_source_segment source n with
  | Some segment => segment
  | None =>
      let lines := split "010"%char source in
      join (String "010"%char EmptyString)
           (py_slice lines (stmt_lineno n - 1) (stmt_end_lineno n - 1 + 1))
  end.

(** The test of lines 259-264, 288-293 and 317-322 on a body. *)
Definition starts_with_string (b : list stmt) : bool :=
  match b with
  | Expr (Constant (CStr _)) :: _ => true
  | _ => false
  end.

Section Collect.

Variable file_path relative_path module_path source : string.

(** Lines 284-310: one item of a class body. *)
Definition collect_method (class_id : string) (class_node item : stmt)
    (components : components_table) : components_table :=
  if is_function_def item then
    let method_id := class_id +:+ "." +:+ stmt_name item in
    let method_has_docstring := starts_with_string (stmt_body class_node) in
    let method_docstring :=
      if method_has_docstring then get_docstring item else EmptyString in
    dict_set components method_id
      (mkComponent method_id (Some item) "method" file_path relative_path []
         (Some (get_source_segment source item))
         (stmt_lineno item) (stmt_end_lineno item)
         method_has_docstring method_docstring)
  else components.

(** Lines 255-339: one node of the walk.  [self._get_string] does not
    exist, so evaluating line 324 raises [AttributeError]. *)
Definition collect_node (entry : stmt * bool) (components : components_table)
  : res components_table :=
  let n := entry.1 in
  match n with
  | ClassDef name _ b _ _ =>
      let class_id := module_path +:+ "." +:+ name in
      let has_doc := starts_with_string b in
      let doc := if has_doc then get_docstring n else EmptyString in
      let components' :=
        dict_set components class_id
          (mkComponent class_id (Some n) "class" file_path relative_path []
             (Some (get_source_segment source n))
             (stmt_lineno n) (stmt_end_lineno n) has_doc doc) in
      Ok (foldl (λ cs item, collect_method class_id n item cs) components' b)
  | FunctionDef name _ b _ _ | AsyncFunctionDef name _ b _ _ =>
      if entry.2 then
        let func_id := module_path +:+ "." +:+ name in
        let has_doc := starts_with_string b in
        doc ← (if has_doc then Raise AttributeError else Ok EmptyString) ;
        Ok (dict_set components func_id
              (mkComponent func_id (Some n) "function" file_path relative_path
                 [] (Some (get_source_segment source n))
                 (stmt_lineno n) (stmt_end_lineno n) has_doc doc))
      else Ok components
  | _ => Ok components
  end.

Definition collect_components (tree : list stmt)
    (components : components_table) : res components_table :=
  for_each collect_node (walk_module tree) components.

End Collect.

(** [_parse_file], lines 342-358. *)
Definition parse_file (file_path relative_path module_path : string)
    (components : components_table) : res components_table :=
  match read_and_parse file_path with
  | Ok (source, tree) =>
      collect_components file_path relative_path module_path source tree
                         components
  | Raise SyntaxError | Raise UnicodeDecodeError => Ok components
  | Raise e => Raise e
  | OutOfFuel => OutOfFuel
  end.

(** Lines 380-404: the search for the component's node among the children
    of the re-parsed [Module]; [found] is the local variable
    [component_node], which line 376 does not reset since it assigns to
    [comonent_node]. *)
Definition relocate_function (name : string) (tree : list stmt)
    (found : option stmt) : option stmt :=
  foldl (λ found n,
           if is_function_def n && bool_decide (stmt_name n = name)
           then Some n else found) found tree.

Fixpoint relocate_class (name : string) (tree : list stmt)
    (found : option stmt) : option stmt :=
  match tree with
  | [] => found
  | (ClassDef cname _ _ _ _ as n) :: tree' =>
      if decide (cname = name) then Some n
      else relocate_class name tree' found
  | _ :: tree' => relocate_class name tree' found
  end.

Definition relocate_method (class_name method_name : string)
    (tree : list stmt) (found : option stmt) : option stmt :=
  foldl (λ found n,
           match n with
           | ClassDef cname _ (item :: _) _ _ =>
               if decide (cname = class_name) then
                 if is_function_def item
                    && bool_decide (stmt_name item = method_name)
                 then Some item else found
               else found
           | _ => found
           end) found tree.

Definition relocate (component : CodeComponent) (tree : list stmt)
    (found : option stmt) : res (option stmt) :=
  if decide (component_type component = "function") then
    Ok (relocate_function (last_part (id component)) tree found)
  else if decide (component_type component = "class") then
    Ok (relocate_class (last_part (id component)) tree found)
  else if decide (component_type component = "method") then
    match reverse (split dot (id component)) with
    | method_name :: class_name :: _ =>
        Ok (relocate_method class_name method_name tree found)
    | _ => Raise ValueError
    end
  else Ok found.

(** Lines 415-417. *)
Definition bind_parameters (n : stmt) (c : collector) : collector :=
  match n with
  | FunctionDef _ args _ _ _ | AsyncFunctionDef _ args _ _ _ =>
      foldl (λ c a, add_local a c) c args
  | _ => c
  end.

Definition resolve_state : Type := components_table * option stmt.

(** Lines 363-430: one component. *)
Definition resolve_component (modules : pyset) (component_id : string)
    (st : resolve_state) : res resolve_state :=
  component ← dict_item st.1 component_id ;
  match read_and_parse (file_path component) with
  | Ok (source, tree) =>
      let '(imports, from_imports) := collect_imports tree in
      let module_path := file_to_module_path (relative_path component) in
      found ← relocate component tree st.2 ;
      match found with
      | None => Raise UnboundLocalError
      | Some component_node =>
          let c := visit_stmt imports from_imports module_path modules
                     component_node
                     (bind_parameters component_node (mkCollector [] [] None)) in
          let deps := foldl (λ s d, set_add d s) (depends_on component)
                            (dependencies c) in
          let kept := filter (λ dep, dep ∈ keys st.1 ∨ first_part dep ∈ modules)
                             deps in
          Ok (dict_set st.1 component_id (set_depends_on kept component),
              found)
      end
  | Raise SyntaxError | Raise UnicodeDecodeError => Ok st
  | Raise e => Raise e
  | OutOfFuel => OutOfFuel
  end.

Definition resolve_dependencies (modules : pyset)
    (components : components_table) : res components_table :=
  st ← for_each (resolve_component modules) (keys components)
                (components, None) ;
  Ok st.1.

(** [parse_repository], lines 456-481; [files] lists the [.py] files in the
    order of [os.walk], each with its path relative to the repository. *)
Definition parse_step (entry : string * string)
    (st : pyset * components_table) : res (pyset * components_table) :=
  let module_path := file_to_module_path entry.2 in
  components ← parse_file entry.1 entry.2 module_path st.2 ;
  Ok (set_add module_path st.1, components).

Definition parse_repository (files : list (string * string))
  : res components_table :=
  st ← for_each parse_step files ([], []) ;
  components ← resolve_dependencies st.1 st.2 ;
  Ok (add_class_method_dependencies components).

End Parser.
(** * Specification vocabulary and sample inputs *)

Definition recursive_function_table : components_table :=
  [ ("mod.f",
     mkComponent "mod.f" None "function" "/r/mod.py" "mod.py" ["mod.f"] None
                 1 2 false "") ].

(** What survives serialisation: everything but the tree node and the
    source text. *)
Definition persisted (c : CodeComponent) : CodeComponent :=
  mkComponent (id c) None (component_type c) (file_path c) (relative_path c)
              (set_of_list (depends_on c)) None (start_line c) (end_line c)
              (has_docstring c) (docstring c).

Definition map_values {V W : Type} (f : V → W) (d : dict V) : dict W :=
  (λ kv, (kv.1, f kv.2)) <$> d.

Definition sample_table : components_table :=
  [ ("mod.Foo",
     mkComponent "mod.Foo" (Some Pass) "class" "/r/mod.py" "mod.py"
                 ["mod.Foo.bar"; "mod.baz"] (Some "class Foo: ...") 1 9 true
                 "A class.");
    ("mod.Foo.bar",
     mkComponent "mod.Foo.bar" (Some Pass) "method" "/r/mod.py" "mod.py"
                 ["mod.baz"] (Some "def bar(self): ...") 3 5 false "");
    ("mod.Foo.__init__",
     mkComponent "mod.Foo.__init__" (Some Pass) "method" "/r/mod.py" "mod.py"
                 [] (Some "def __init__(self): ...") 6 9 false "");
    ("mod.baz",
     mkComponent "mod.baz" (Some Pass) "function" "/r/mod.py" "mod.py"
                 [] (Some "def baz(): ...") 11 12 false "") ].

(** A string without the separator is a single part. *)
Fixpoint no_dot (s : string) : Prop :=
  match s with
  | EmptyString => True
  | String c s' => c ≠ dot ∧ no_dot s'
  end.

(** The class id that [record_method] computes from a method id. *)
Definition class_part (method_id : string) : string :=
  join "." (removelast (split dot method_id)).

(** The entries that line 447 appends to the list of [class_id]. *)
Definition attached (components : components_table) (class_id x : string)
  : Prop :=
  ∃ m, (x, m) ∈ components ∧ component_type m = "method" ∧
       2 ≤ length (split dot x) ∧ class_part x = class_id ∧
       last_part x ≠ "__init__".

(** The extraction scenario: class [Foo] with methods [__init__] and [bar],
    and the function [baz], before the attachment pass. *)
Definition scenario_class : CodeComponent :=
  mkComponent "mod.Foo" None "class" "/r/mod.py" "mod.py" ["mod.baz"] None
              1 9 false "".

Definition scenario_table : components_table :=
  [ ("mod.Foo", scenario_class);
    ("mod.Foo.__init__",
     mkComponent "mod.Foo.__init__" None "method" "/r/mod.py" "mod.py" []
                 None 2 4 false "");
    ("mod.Foo.bar",
     mkComponent "mod.Foo.bar" None "method" "/r/mod.py" "mod.py" ["mod.baz"]
                 None 5 9 false "");
    ("mod.baz",
     mkComponent "mod.baz" None "function" "/r/mod.py" "mod.py" [] None
                 11 12 false "") ].

Definition bar_method : stmt :=
  FunctionDef "bar" ["self"] [Pass] 3 (Some 4%Z).

(** [class Foo: "A class." / def bar(self): pass] *)
Definition documented_class : list stmt :=
  [ ClassDef "Foo" [] [Expr (Constant (CStr "A class.")); bar_method]
             1 (Some 4%Z) ].

(** [def baz(): "A function." / pass] *)
Definition documented_function : list stmt :=
  [ FunctionDef "baz" [] [Expr (Constant (CStr "A function.")); Pass]
                1 (Some 3%Z) ].

(** [if x: class Inner: pass]: the class is extracted by the walk, and it is
    not a child of the module. *)
Definition nested_class_repository (path : string)
  : res (string * list stmt) :=
  if decide (path = "/r/mod.py") then
    Ok ("", [ If (Name "x" Load) [ClassDef "Inner" [] [Pass] 2 (Some 3%Z)] [] ])
  else Raise FileNotFoundError.

(** [class Foo: def a(self): baz() / def b(self): pass] and [def baz(): pass]:
    the search for a method looks at the first statement of the class body
    only (line 404), so [b] is not found again. *)
Definition method_a : stmt :=
  FunctionDef "a" ["self"] [Expr (Call (Name "baz" Load) [])] 2 (Some 3%Z).

Definition class_Foo : stmt :=
  ClassDef "Foo" [] [method_a; FunctionDef "b" ["self"] [Pass] 4 (Some 5%Z)]
           1 (Some 5%Z).

Definition function_baz : stmt := FunctionDef "baz" [] [Pass] 7 (Some 8%Z).

Definition two_method_repository (path : string)
  : res (string * list stmt) :=
  if decide (path = "/r/mod.py") then Ok ("", [class_Foo; function_baz])
  else Raise FileNotFoundError.

Definition three_cycle : graph :=
  [("A", ["B"]); ("B", ["C"]); ("C", ["A"])].

(** ** Vocabulary for the cycle detector *)

(** [reach g x y]: a directed path, possibly empty, from [x] to [y]. *)
Definition reach (g : graph) : relation string := rtc (edge g).

(** [index[x]] and [lowlink[x]], read as [0] where the dictionary has no
    entry. *)
Definition ix (st : tarjan) (x : string) : nat := default 0 (index st !! x).
Definition ll (st : tarjan) (x : string) : nat := default 0 (lowlink st !! x).

(** A node that has been numbered and has left the stack. *)
Definition popped (st : tarjan) (x : string) : Prop :=
  x ∈ dom (index st) ∧ x ∉ stack st.

(** The nodes not numbered yet. *)
Definition whites (g : graph) (st : tarjan) : nat :=
  size ((list_to_set (mentioned g) : gset string) ∖ dom (index st)).

(** What holds of the state between any two steps of [detect_cycles]. *)
Record tarjan_inv (g : graph) (st : tarjan) : Prop := {
  inv_dom : dom (lowlink st) = dom (index st);
  inv_counter : ∀ x i, index st !! x = Some i → i < index_counter st;
  inv_mentioned : ∀ x, x ∈ dom (index st) → x ∈ mentioned g;
  inv_onstack : ∀ x, x ∈ onstack st ↔ x ∈ stack st;
  inv_nodup : NoDup (stack st);
  inv_stack_dom : ∀ x, x ∈ stack st → x ∈ dom (index st);
  inv_sorted : ∀ l1 x l2, stack st = l1 ++ x :: l2 →
    ∀ y, y ∈ l2 → ix st y < ix st x;
  inv_below : ∀ a b, a ∈ stack st → b ∈ stack st → ix st a ≤ ix st b →
    reach g a b;
  inv_lowlink : ∀ x, x ∈ stack st →
    ll st x ≤ ix st x ∧
    ∃ w, w ∈ stack st ∧ ix st w = ll st x ∧ reach g x w;
  inv_closed : ∀ x y, popped st x → edge g x y → popped st y;
  inv_complete : ∀ x y, popped st x → popped st y → x ≠ y →
    reach g x y → reach g y x → ∃ c, c ∈ result st ∧ x ∈ c ∧ y ∈ c;
  inv_sound : ∀ c, c ∈ result st →
    1 < length c ∧ NoDup c ∧ ∀ x y, x ∈ c → y ∈ c → reach g x y
}.

(** How a call of [strongconnect] may change the state it is given. *)
Record extends (st st' : tarjan) : Prop := {
  ext_index : index st ⊆ index st';
  ext_lowlink : ∀ x, x ∈ dom (index st) → lowlink st' !! x = lowlink st !! x;
  ext_counter : index_counter st ≤ index_counter st';
  ext_result : ∀ c, c ∈ result st → c ∈ result st'
}.

(** What a call [strongconnect(v)] from [st] ensures of the state [st'] it
    returns; [new] are the nodes it leaves on the stack. *)
Definition strongconnect_post (g : graph) (st : tarjan) (v : string)
    (st' : tarjan) : Prop :=
  tarjan_inv g st' ∧ extends st st' ∧ v ∈ dom (index st') ∧
  ∃ new, stack st' = new ++ stack st ∧
    (∀ a, a ∈ new → a ∉ dom (index st)) ∧
    (∀ a z, a ∈ new → edge g a z → z ∈ dom (index st')) ∧
    (∀ a z, a ∈ new → z ∈ stack st → edge g a z → ll st' v ≤ ix st' z) ∧
    (∀ a, a ∈ new → ∃ b, b ∈ stack st ∧ reach g a b) ∧
    (v ∉ stack st' → index_counter st ≤ ll st' v).

(** What holds in the loop of lines 37-42 of the call [strongconnect(v)]
    from [st], when the successors [seen] have been handled; [above] are the
    nodes on the stack above [v]. *)
Definition successors_inv (g : graph) (st : tarjan) (v : string)
    (seen : list string) (s : tarjan) : Prop :=
  tarjan_inv g s ∧ extends st s ∧
  index s !! v = Some (index_counter st) ∧
  ∃ above, stack s = above ++ v :: stack st ∧
    (∀ a, a ∈ above → a ∉ dom (index st)) ∧
    (∀ a, a ∈ stack s → reach g a v) ∧
    (∀ a z, a ∈ above → edge g a z → z ∈ dom (index s)) ∧
    (∀ z, z ∈ seen → z ∈ dom (index s)) ∧
    (∀ a z, a ∈ above → z ∈ stack st → edge g a z → ll s v ≤ ix s z) ∧
    (∀ z, z ∈ seen → z ∈ stack st → ll s v ≤ ix s z).

(** A graph without directed cycles; a self-loop is a cycle. *)
Definition acyclic (g : graph) : Prop := ∀ x, ¬ tc (edge g) x x.

(** [{A: {A}}] *)
Definition self_loop : graph := [("A", ["A"])].

(** Every member of a dependency set is a key: what
    [build_graph_from_components] produces. *)
Definition closed (g : graph) : Prop :=
  Forall (λ v, v ∈ keys g) (concat g.*2).

(** ** Vocabulary for the traversal *)

(** [precedes l y x]: [y] stands in [l] at a position before one of [x]. *)
Definition precedes (l : list string) (y x : string) : Prop :=
  ∃ i j, l !! i = Some y ∧ l !! j = Some x ∧ i < j.

(** Every dependency of a member of [l] stands before it. *)
Definition dependency_first (g : graph) (l : list string) : Prop :=
  ∀ u v, u ∈ l → edge g u v → precedes l v u.

(** The nodes not visited yet. *)
Definition unvisited (g : graph) (st : dfs_state) : nat :=
  size ((list_to_set (mentioned g) : gset string) ∖ st.1).

(** A node that has been visited and is not in the result yet: its call of
    [dfs] has not returned. *)
Definition active (st : dfs_state) (x : string) : Prop :=
  x ∈ st.1 ∧ x ∉ st.2.

(** What holds of [visited] and [result] between any two steps. *)
Record dfs_inv (g : graph) (st : dfs_state) : Prop := {
  dfs_nodup : NoDup st.2;
  dfs_finished : ∀ x, x ∈ st.2 → x ∈ st.1;
  dfs_mentioned : ∀ x, x ∈ st.1 → x ∈ mentioned g;
  dfs_order : acyclic g → dependency_first g st.2
}.

(** What a call [dfs(node)] from [st] ensures of the state it returns. *)
Definition dfs_post (g : graph) (st : dfs_state) (node : string)
    (st' : dfs_state) : Prop :=
  dfs_inv g st' ∧ node ∈ st'.1 ∧ st.1 ⊆ st'.1 ∧
  (∃ new, st'.2 = st.2 ++ new ∧ ∀ x, x ∈ new → x ∉ st.1) ∧
  (∀ x, active st' x → active st x).

(** What holds in the loop of lines 119-120 of the call [dfs(node)] from
    [st], when the dependencies [seen] have been handled. *)
Definition dependencies_inv (g : graph) (st : dfs_state) (node : string)
    (seen : list string) (s : dfs_state) : Prop :=
  dfs_inv g s ∧ {[node]} ∪ st.1 ⊆ s.1 ∧
  (∃ new, s.2 = st.2 ++ new ∧ ∀ x, x ∈ new → x ∉ {[node]} ∪ st.1) ∧
  (∀ x, active s x → x = node ∨ active st x) ∧
  (∀ z, z ∈ seen → z ∈ s.1).

(** [{A: {B}, B: {A}}] and what [resolve_cycles] makes of it. *)
Definition two_cycle : graph := [("A", ["B"]); ("B", ["A"])].
Definition two_cycle_resolved : graph := [("A", ["B"]); ("B", [])].

(** No call of [dfs] is active: the state between two calls from the top
    level. *)
Definition settled (g : graph) (s : dfs_state) : Prop :=
  dfs_inv g s ∧ ∀ x, x ∈ s.1 → x ∈ s.2.

(** [{R: {X, Y, Z}, A: {B}, B: {C}, C: {A}}]: the dependencies of [R] are
    not keys. *)
Definition dangling_graph : graph :=
  [("R", ["X"; "Y"; "Z"]); ("A", ["B"]); ("B", ["C"]); ("C", ["A"])].

(** ** Vocabulary for the reported cycles *)



(** [u] and [v] stand next to each other in [c], in this order. *)
Definition consecutive (c : list string) (u v : string) : Prop :=
  ∃ l1 l2, c = l1 ++ u :: v :: l2.

(** Every dependency of a member of [l] stands before it, unless the
    dependency reaches the member: the edge lies on a cycle. *)
Definition dependency_first_up_to_cycles (g : graph) (l : list string)
  : Prop :=
  ∀ u v, u ∈ l → edge g u v → precedes l v u ∨ reach g v u.

(** The graph of [scenario_table]. *)
Definition scenario_graph : graph :=
  [ ("mod.Foo", ["mod.baz"]); ("mod.Foo.__init__", []);
    ("mod.Foo.bar", ["mod.baz"]); ("mod.baz", []) ].

(** Two representations of one graph: the same keys in the same order, and
    under each key the same set, iterated in another order. *)
Definition same_sets (g g' : graph) : Prop :=
  Forall2 (λ e e' : string * pyset, e.1 = e'.1 ∧ e.2 ≡ₚ e'.2) g g'.

(** [{A: {B, C}, B: {}, C: {}}], with the set of [A] iterated in two
    orders. *)
Definition fork_graph : graph := [("A", ["B"; "C"]); ("B", []); ("C", [])].
Definition fork_graph' : graph := [("A", ["C"; "B"]); ("B", []); ("C", [])].

(** ** Vocabulary for the component table *)

(** The module names that [parse_repository] registers for [files]. *)
Definition modules_of (files : list (string * string)) : list string :=
  file_to_module_path <$> files.*2.

(** An entry of the table as extraction leaves it. *)
Definition extracted (files : list (string * string))
    (entry : string * CodeComponent) : Prop :=
  id entry.2 = entry.1 ∧
  component_type entry.2 ∈ ["class"; "function"; "method"] ∧
  (file_path entry.2, relative_path entry.2) ∈ files ∧
  depends_on entry.2 = [].

(** An entry of the table after resolution: its dependencies are ids of the
    table or start with the name of a module. *)
Definition resolved (files : list (string * string)) (ids modules : list string)
    (entry : string * CodeComponent) : Prop :=
  id entry.2 = entry.1 ∧
  component_type entry.2 ∈ ["class"; "function"; "method"] ∧
  (file_path entry.2, relative_path entry.2) ∈ files ∧
  ∀ d, d ∈ depends_on entry.2 → d ∈ ids ∨ first_part d ∈ modules.

(** The table of [two_method_repository]. *)
Definition two_method_table : components_table :=
  Eval vm_compute in
    match parse_repository [] (λ _ _, None) two_method_repository
                           [("/r/mod.py", "mod.py")] with
    | Ok table => table
    | _ => []
    end.

(** ** Vocabulary for extraction *)

Definition is_class_def (s : stmt) : bool :=
  match s with
  | ClassDef _ _ _ _ _ => true
  | _ => false
  end.

(** The statements of a tree, at any depth. *)
Inductive within (tree : list stmt) : stmt → Prop :=
  | within_top s : s ∈ tree → within tree s
  | within_child p s : within tree p → s ∈ child_stmts p → within tree s.

(** A function whose body starts with a bare string literal. *)
Definition documented_def (s : stmt) : Prop :=
  is_function_def s ∧ starts_with_string (stmt_body s).

(** The ids under which [_collect_components] registers the node [n] of the
    walk; [top] tells whether [n] is a child of the module. *)
Definition registers (module_path : string) (n : stmt) (top : bool)
    (k : string) : Prop :=
  (is_function_def n ∧ top = true ∧ k = module_path +:+ "." +:+ stmt_name n) ∨
  (is_class_def n ∧
   (k = module_path +:+ "." +:+ stmt_name n ∨
    ∃ item, item ∈ stmt_body n ∧ is_function_def item ∧
            k = (module_path +:+ "." +:+ stmt_name n) +:+ "."
                +:+ stmt_name item)).

(** ** Vocabulary for the dependency collector *)

(** Where a recorded dependency comes from: a name read in the current
    module (lines 124-126), a name imported from a module of the repository
    (lines 116-122), an attribute of an imported module of the repository
    (lines 147-155), or an attribute of a module named in a [from] import
    (lines 157-163).  [locals] are the local variables when the visit
    starts. *)
Definition dependency_origin (builtins : list string) (imports : pyset)
    (from_imports : dict (list string)) (current_module : string)
    (repo_modules locals : pyset) (d : string) : Prop :=
  (∃ n, d = current_module +:+ "." +:+ n ∧
        (n ∉ builtins) ∧ (n ∉ EXCLUDED_NAMES) ∧ (n ∉ locals)) ∨
  (∃ m names n, d = m +:+ "." +:+ n ∧
        (m, names) ∈ from_imports ∧ n ∈ names ∧ m ∈ repo_modules ∧
        (m ∉ STANDARD_MODULES) ∧
        (n ∉ builtins) ∧ (n ∉ EXCLUDED_NAMES) ∧ (n ∉ locals)) ∨
  (∃ m n, d = m +:+ "." +:+ n ∧
        m ∈ imports ∧ m ∈ repo_modules ∧ (m ∉ STANDARD_MODULES) ∧
        (m ∉ EXCLUDED_NAMES) ∧ (m ∉ locals)) ∨
  (∃ m names n, d = m +:+ "." +:+ n ∧
        dict_get from_imports m = Some names ∧ n ∈ names ∧ (m ∉ imports) ∧
        (m ∉ STANDARD_MODULES) ∧ (m ∉ EXCLUDED_NAMES) ∧ (m ∉ locals)).

(** How a visit may change the collector [c0] it started from. *)
Definition collector_extends (origin : pyset → string → Prop)
    (c0 c : collector) : Prop :=
  (∀ x, x ∈ local_variables c0 → x ∈ local_variables c) ∧
  (∀ d, d ∈ dependencies c0 → d ∈ dependencies c) ∧
  (∀ d, d ∈ dependencies c →
        d ∈ dependencies c0 ∨ origin (local_variables c0) d).

(** A step of the visit: it extends the collector and leaves the current
    class as it was. *)
Definition collector_step (origin : pyset → string → Prop)
    (f : collector → collector) : Prop :=
  ∀ c0 c, collector_extends origin c0 c →
    collector_extends origin c0 (f c) ∧ current_class (f c) = current_class c.

(** ** Vocabulary for the import collector *)

(** How a visit of the statements [T] may change the state of the import
    collector. *)
Definition imports_spec (T : stmt → Prop) (st st' : import_state) : Prop :=
  (∀ x, x ∈ st'.1 ↔ x ∈ st.1 ∨ ∃ names, T (Import names) ∧ x ∈ names) ∧
  (∀ m, m ∈ keys st'.2 ↔
        m ∈ keys st.2 ∨ ∃ names, T (ImportFrom (Some m) names)) ∧
  (∀ m x, x ∈ default [] (dict_get st'.2 m) ↔
          x ∈ default [] (dict_get st.2 m) ∨
          ∃ names, T (ImportFrom (Some m) names) ∧ x ∈ names ∧ x ≠ "*").

(** The statements that the import collector records. *)
Definition is_import (t : stmt) : Prop :=
  match t with
  | Import _ | ImportFrom (Some _) _ => True
  | _ => False
  end.

(** ** Vocabulary for records and lookups *)

(** The fields that [from_dict] reads with [data[...]]. *)
Definition REQUIRED_FIELDS : list string :=
  ["id"; "component_type"; "file_path"; "relative_path"].

(** A record with the required fields only, and a file that holds it. *)
Definition minimal_record : dict json :=
  [ ("id", JStr "mod.f"); ("component_type", JStr "function");
    ("file_path", JStr "/r/mod.py"); ("relative_path", JStr "mod.py") ].

Definition broken_file : list (string * json) :=
  [ ("mod.f", JObj minimal_record);
    ("mod.g", JObj [("id", JStr "mod.g")]) ].

(** A function, or a class, of the given name. *)
Definition function_named (name : string) (n : stmt) : Prop :=
  is_function_def n ∧ stmt_name n = name.

Definition class_named (name : string) (n : stmt) : Prop :=
  is_class_def n ∧ stmt_name n = name.

(** The component of the class [Inner] of [nested_class_repository], as
    extraction leaves it. *)
Definition inner_class_component : CodeComponent :=
  mkComponent "mod.Inner" (Some (ClassDef "Inner" [] [Pass] 2 (Some 3%Z)))
              "class" "/r/mod.py" "mod.py" [] None 2 3 false "".
(** * Verification *)

(** ** Dictionaries and sets *)

Lemma bind_Ok {A B : Type} (m : res A) (k : A → res B) (b : B) :
  m ≫= k = Ok b ↔ ∃ a, m = Ok a ∧ k a = Ok b.
Proof.
  destruct m as [a| |]; simpl; split; try (intros [? [? ?]]; discriminate);
    try discriminate; eauto.
  intros (a' & [= <-] & ?). done.
Qed.

Lemma elem_of_keys {V : Type} (d : dict V) (k : string) :
  k ∈ keys d ↔ ∃ v, (k, v) ∈ d.
Proof.
  unfold keys. rewrite list_elem_of_fmap. split.
  - intros ([k' v] & -> & ?). eauto.
  - intros (v & ?). exists (k, v). done.
Qed.

Lemma dict_get_Some {V : Type} (d : dict V) (k : string) (v : V) :
  dict_get d k = Some v → (k, v) ∈ d.
Proof.
  induction d as [|[k' v'] d IH]; simpl; [done|].
  case_decide; [intros [= <-]; subst; left | right; auto].
Qed.

Lemma dict_get_None {V : Type} (d : dict V) (k : string) :
  dict_get d k = None ↔ k ∉ keys d.
Proof.
  unfold keys. induction d as [|[k' v'] d IH]; simpl.
  - split; [intros _; apply not_elem_of_nil | done].
  - rewrite not_elem_of_cons.
    destruct (decide (k' = k)) as [->|Hne]; [split; [done|tauto]|].
    rewrite IH. naive_solver.
Qed.

Lemma dict_get_is_Some {V : Type} (d : dict V) (k : string) :
  is_Some (dict_get d k) ↔ k ∈ keys d.
Proof.
  rewrite <- not_eq_None_Some, dict_get_None.
  destruct (decide (k ∈ keys d)); tauto.
Qed.

Lemma dict_get_NoDup {V : Type} (d : dict V) (k : string) (v : V) :
  NoDup (keys d) → (k, v) ∈ d → dict_get d k = Some v.
Proof.
  unfold keys. induction d as [|[k' v'] d IH]; simpl;
    [by intros _ ?%elem_of_nil|].
  intros [Hk Hd]%NoDup_cons [[= -> ->]|Hin]%elem_of_cons.
  - by rewrite decide_True.
  - rewrite decide_False; [auto|]. intros ->. apply Hk.
    apply (elem_of_keys d k). eauto.
Qed.

Lemma dict_get_set {V : Type} (d : dict V) (k k' : string) (v : V) :
  dict_get (dict_set d k v) k' =
  if decide (k = k') then Some v else dict_get d k'.
Proof.
  induction d as [|[k0 v0] d IH]; simpl.
  - repeat case_decide; congruence.
  - repeat (case_decide; simpl; subst); congruence.
Qed.

Lemma keys_dict_set {V : Type} (d : dict V) (k : string) (v : V) :
  keys (dict_set d k v) = if decide (k ∈ keys d) then keys d else keys d ++ [k].
Proof.
  unfold keys. induction d as [|[k0 v0] d IH]; csimpl; [done|].
  destruct (decide (k0 = k)) as [->|Hne]; csimpl.
  - rewrite decide_True; [done | left].
  - rewrite IH. destruct (decide (k ∈ d.*1)).
    + rewrite decide_True; [done | by right].
    + rewrite decide_False; [done|]. rewrite elem_of_cons. naive_solver.
Qed.

Lemma elem_of_keys_dict_set {V : Type} (d : dict V) (k k' : string) (v : V) :
  k' ∈ keys (dict_set d k v) ↔ k' = k ∨ k' ∈ keys d.
Proof.
  rewrite keys_dict_set. case_decide.
  - naive_solver.
  - rewrite elem_of_app, list_elem_of_singleton. tauto.
Qed.

Lemma NoDup_keys_dict_set {V : Type} (d : dict V) (k : string) (v : V) :
  NoDup (keys d) → NoDup (keys (dict_set d k v)).
Proof.
  intros. rewrite keys_dict_set. case_decide; [done|].
  apply NoDup_app. split_and!; [done| |apply NoDup_singleton].
  intros x ? ->%list_elem_of_singleton. done.
Qed.

Lemma dict_item_Ok {V : Type} (d : dict V) (k : string) (v : V) :
  dict_item d k = Ok v ↔ dict_get d k = Some v.
Proof. unfold dict_item. destruct (dict_get d k); naive_solver. Qed.

Lemma elem_of_set_add (x y : string) (s : pyset) :
  y ∈ set_add x s ↔ y = x ∨ y ∈ s.
Proof.
  unfold set_add. case_decide.
  - naive_solver.
  - rewrite elem_of_app, list_elem_of_singleton. tauto.
Qed.

Lemma NoDup_set_add (x : string) (s : pyset) : NoDup s → NoDup (set_add x s).
Proof.
  intros. unfold set_add. case_decide; [done|].
  apply NoDup_app. split_and!; [done| |apply NoDup_singleton].
  intros ? ? ->%list_elem_of_singleton. done.
Qed.

Lemma elem_of_foldl_set_add (l : list string) (s : pyset) (y : string) :
  y ∈ foldl (λ s x, set_add x s) s l ↔ y ∈ l ∨ y ∈ s.
Proof.
  revert s. induction l as [|x l IH]; intros s; simpl.
  - rewrite elem_of_nil. tauto.
  - rewrite IH, elem_of_set_add, elem_of_cons. tauto.
Qed.

Lemma NoDup_foldl_set_add (l : list string) (s : pyset) :
  NoDup s → NoDup (foldl (λ s x, set_add x s) s l).
Proof.
  revert s. induction l as [|x l IH]; intros s ?; simpl; [done|].
  by apply IH, NoDup_set_add.
Qed.

Lemma foldl_set_add_NoDup (l : list string) (s : pyset) :
  NoDup (s ++ l) → foldl (λ s x, set_add x s) s l = s ++ l.
Proof.
  revert s. induction l as [|x l IH]; intros s Hnd; simpl.
  - by rewrite app_nil_r.
  - unfold set_add at 2. rewrite decide_False.
    + rewrite IH; rewrite <- app_assoc; done.
    + apply NoDup_app in Hnd as (_ & Hd & _). intros ?. eapply Hd; [done|left].
Qed.

Lemma set_of_list_NoDup (l : list string) : NoDup l → set_of_list l = l.
Proof. intros. unfold set_of_list. by rewrite foldl_set_add_NoDup. Qed.

Lemma sorted_Permutation (l : list string) : sorted l ≡ₚ l.
Proof. apply merge_sort_Permutation. Qed.

Lemma elem_of_sorted (l : list string) (x : string) : x ∈ sorted l ↔ x ∈ l.
Proof. by rewrite sorted_Permutation. Qed.

(** [for_each] preserves an invariant that each iteration preserves. *)
Lemma for_each_invariant {A S : Type} (I : S → Prop) (body : A → S → res S)
    (l : list A) (s : S) :
  I s →
  (∀ x s, x ∈ l → I s → ∃ s', body x s = Ok s' ∧ I s') →
  ∃ s', for_each body l s = Ok s' ∧ I s'.
Proof.
  revert s. induction l as [|x l IH]; intros s Hs Hbody; simpl; [eauto|].
  destruct (Hbody x s) as (s1 & -> & Hs1); [left|done|]. simpl.
  apply IH; [done|]. intros y s2 ? ?. apply Hbody; [by right|done].
Qed.

(** [for_each] with an invariant over the part of the list already
    traversed. *)
Lemma for_each_prefix_invariant {A S : Type} (I : list A → S → Prop)
    (body : A → S → res S) (l : list A) (s : S) :
  I [] s →
  (∀ pre x post s, l = pre ++ x :: post → I pre s →
     ∃ s', body x s = Ok s' ∧ I (pre ++ [x]) s') →
  ∃ s', for_each body l s = Ok s' ∧ I l s'.
Proof.
  intros H0 Hbody.
  cut (∀ done todo s, l = done ++ todo → I done s →
         ∃ s', for_each body todo s = Ok s' ∧ I l s').
  { intros Hcut. by apply (Hcut [] l s). }
  intros done todo. revert done.
  induction todo as [|x todo IH]; intros done s1 -> Hs1; simpl.
  - rewrite app_nil_r. eauto.
  - destruct (Hbody done x todo s1) as (s2 & -> & Hs2); [done..|]. simpl.
    apply (IH (done ++ [x])); [by rewrite <- app_assoc | done].
Qed.

Lemma foldl_prefix_invariant {A S : Type} (I : list A → S → Prop)
    (body : S → A → S) (l : list A) (s : S) :
  I [] s →
  (∀ pre x post s, l = pre ++ x :: post → I pre s → I (pre ++ [x]) (body s x)) →
  I l (foldl body s l).
Proof.
  intros H0 Hbody.
  cut (∀ done todo s, l = done ++ todo → I done s → I l (foldl body s todo)).
  { intros Hcut. by apply (Hcut [] l s). }
  intros done todo. revert done.
  induction todo as [|x todo IH]; intros done s1 -> Hs1; simpl.
  - by rewrite app_nil_r.
  - apply (IH (done ++ [x])); [by rewrite <- app_assoc | eauto].
Qed.

(** ** The graph of a component table (C4) *)

Lemma successors_dict_set (g : graph) (k u : string) (s : pyset) :
  successors (dict_set g k s) u = if decide (k = u) then s else successors g u.
Proof. unfold successors. rewrite dict_get_set. by case_decide. Qed.

Lemma edge_key (g : graph) (u v : string) : edge g u v → u ∈ keys g.
Proof.
  unfold edge, successors. intros Hv. apply dict_get_is_Some.
  destruct (dict_get g u); [done|]. by apply elem_of_nil in Hv.
Qed.

Lemma add_component_spec (components : components_table)
    (comp_id : string) (c : CodeComponent) (g : graph) :
  ∃ g', add_component components (comp_id, c) g = Ok g' ∧
    (∀ u, u ∈ keys g' ↔ u = comp_id ∨ u ∈ keys g) ∧
    (∀ u v, edge g' u v ↔
       edge g u v ∨ (u = comp_id ∧ v ∈ depends_on c ∧ v ∈ keys components)).
Proof.
  unfold add_component. simpl.
  set (g0 := if decide (comp_id ∉ keys g) then dict_set g comp_id [] else g).
  assert (Hk0 : ∀ u, u ∈ keys g0 ↔ u = comp_id ∨ u ∈ keys g).
  { intros u. unfold g0. case_decide.
    - apply elem_of_keys_dict_set.
    - destruct (decide (comp_id ∈ keys g)); naive_solver. }
  assert (He0 : ∀ u v, edge g0 u v ↔ edge g u v).
  { intros u v. unfold g0, edge. case_decide; [|done].
    rewrite successors_dict_set. case_decide; [subst|done].
    unfold successors. apply dict_get_None in H as ->. done. }
  destruct (for_each_prefix_invariant
    (λ pre g', (∀ u, u ∈ keys g' ↔ u ∈ keys g0) ∧
       ∀ u v, edge g' u v ↔
         edge g0 u v ∨ (u = comp_id ∧ v ∈ pre ∧ v ∈ keys components))
    (add_dependency_edge components comp_id) (depends_on c) g0)
    as (g' & Hg' & Hk & He).
  - split; [done|]. intros u v. rewrite elem_of_nil. tauto.
  - intros pre dep post g1 _ [Hk He]. unfold add_dependency_edge.
    case_decide as Hdep.
    + assert (comp_id ∈ keys g1) as [deps Hdeps]%dict_get_is_Some.
      { apply Hk, Hk0. by left. }
      unfold dict_item. rewrite Hdeps. simpl. eexists. split; [done|]. split.
      * intros u. rewrite elem_of_keys_dict_set, <- Hk.
        split; [intros [->|?]; [|done]|tauto].
        apply dict_get_is_Some. eauto.
      * intros u v. unfold edge in *. rewrite successors_dict_set.
        rewrite elem_of_app, list_elem_of_singleton. case_decide as Hu.
        -- subst u. rewrite elem_of_set_add.
           specialize (He comp_id v). unfold successors in He at 1.
           rewrite Hdeps in He. simpl in He. rewrite He. naive_solver.
        -- rewrite He. naive_solver.
    + eexists. split; [done|]. split; [done|]. intros u v. rewrite He.
      rewrite elem_of_app, list_elem_of_singleton. naive_solver.
  - exists g'. split; [done|]. split.
    + intros u. by rewrite Hk, Hk0.
    + intros u v. by rewrite He, He0.
Qed.

Lemma build_graph_from_components_spec (components : components_table) :
  ∃ g, build_graph_from_components components = Ok g ∧
    (∀ u, u ∈ keys g ↔ u ∈ keys components) ∧
    (∀ u v, edge g u v ↔
       v ∈ keys components ∧ ∃ c, (u, c) ∈ components ∧ v ∈ depends_on c).
Proof.
  unfold build_graph_from_components.
  destruct (for_each_prefix_invariant
    (λ pre g, (∀ u, u ∈ keys g ↔ u ∈ keys pre) ∧
       ∀ u v, edge g u v ↔
         v ∈ keys components ∧ ∃ c, (u, c) ∈ pre ∧ v ∈ depends_on c)
    (add_component components) components []) as (g & Hg & Hk & He).
  - split; [done|]. intros u v. unfold edge, successors. simpl.
    rewrite elem_of_nil. split; [done|]. intros (_ & c & []%elem_of_nil & _).
  - intros pre [comp_id c] post g _ [Hk He].
    destruct (add_component_spec components comp_id c g) as (g' & -> & Hk' & He').
    exists g'. split; [done|]. split.
    + intros u. rewrite Hk', Hk. unfold keys. rewrite fmap_app, elem_of_app.
      simpl. rewrite list_elem_of_singleton. tauto.
    + intros u v. rewrite He', He. split.
      * intros [(? & c' & ? & ?)|(-> & ? & ?)]; (split; [done|]).
        -- exists c'. rewrite elem_of_app. auto.
        -- exists c. rewrite elem_of_app, list_elem_of_singleton. auto.
      * intros (? & c' & [?|[= -> ->]%list_elem_of_singleton]%elem_of_app & ?);
          eauto.
  - eauto.
Qed.

(** C4 (counterexample): for the table of one recursive function [mod.f],
    whose dependency set holds its own id, the graph built has the edge from
    [mod.f] to itself: the self-loop is not pruned. *)
Lemma build_graph_keeps_self_loop :
  build_graph_from_components recursive_function_table
  = Ok [("mod.f", ["mod.f"])]
  ∧ edge [("mod.f", ["mod.f"])] "mod.f" "mod.f".
Proof. split; [reflexivity|]. unfold edge. simpl. left. Qed.

(** C4 (as amended): the graph built from a component table has the keys of
    the table, and it has an edge from [u] to [v] exactly when a component
    registered under [u] lists [v] in its [depends_on] and [v] is a key of
    the table.  So every member of every dependency set is a key of the
    table, and an edge from a component to itself is kept. *)
Theorem build_graph_edges (components : components_table) :
  ∃ g, build_graph_from_components components = Ok g ∧
    (∀ u, u ∈ keys g ↔ u ∈ keys components) ∧
    (∀ u v, edge g u v ↔
       v ∈ keys components ∧ ∃ c, (u, c) ∈ components ∧ v ∈ depends_on c) ∧
    (∀ u v, edge g u v → v ∈ keys components) ∧
    (∀ u c, (u, c) ∈ components → u ∈ depends_on c → edge g u u).
Proof.
  destruct (build_graph_from_components_spec components) as (g & Hg & Hk & He).
  exists g. split_and!; [done..| |].
  - intros u v ?%He. tauto.
  - intros u c Hin Hdep. apply He. split; [|eauto].
    apply elem_of_keys. eauto.
Qed.

(** ** Saving and loading (C7) *)

Lemma as_str_list_fmap (l : list string) : as_str_list (JStr <$> l) = Ok l.
Proof. induction l as [|x l IH]; csimpl; [done|]. by rewrite IH. Qed.

Lemma from_dict_to_dict (c : CodeComponent) :
  from_dict (dict_of_pairs (to_dict c)) = Ok (persisted c).
Proof.
  unfold from_dict, to_dict, dict_of_pairs, dict_item, get_default. simpl.
  rewrite as_str_list_fmap. done.
Qed.

Lemma dict_set_fresh {V : Type} (d : dict V) (k : string) (v : V) :
  k ∉ keys d → dict_set d k v = d ++ [(k, v)].
Proof.
  unfold keys. induction d as [|[k0 v0] d IH]; csimpl; [done|].
  intros [? ?]%not_elem_of_cons. rewrite decide_False by done. by rewrite IH.
Qed.

Lemma dict_of_pairs_NoDup {V : Type} (l : dict V) :
  NoDup (keys l) → dict_of_pairs l = l.
Proof.
  unfold dict_of_pairs.
  cut (∀ d, NoDup (keys (d ++ l)) → foldl (λ d kv, dict_set d kv.1 kv.2) d l = d ++ l).
  { intros Hcut. apply (Hcut []). }
  induction l as [|[k v] l IH]; intros d Hnd; simpl.
  - by rewrite app_nil_r.
  - rewrite dict_set_fresh.
    + rewrite IH; rewrite <- app_assoc; done.
    + unfold keys in *. rewrite fmap_app in Hnd.
      apply NoDup_app in Hnd as (_ & Hd & _). intros ?. eapply Hd; [done|left].
Qed.

Lemma dict_get_map_values {V W : Type} (f : V → W) (d : dict V) (k : string) :
  dict_get (map_values f d) k = f <$> dict_get d k.
Proof.
  unfold map_values. induction d as [|[k0 v0] d IH]; csimpl; [done|].
  by case_decide.
Qed.

Lemma keys_map_values {V W : Type} (f : V → W) (d : dict V) :
  keys (map_values f d) = keys d.
Proof.
  unfold keys, map_values. rewrite <- list_fmap_compose. apply list_fmap_ext.
  by intros ? [].
Qed.

Lemma load_component_to_dict (k : string) (c : CodeComponent)
    (acc : components_table) :
  load_component (k, JObj (to_dict c)) acc = Ok (dict_set acc k (persisted c)).
Proof.
  unfold load_component. cbn [fst snd]. by rewrite from_dict_to_dict.
Qed.

Lemma load_save (components : components_table) :
  NoDup (keys components) →
  load_dependency_graph (save_dependency_graph components)
  = Ok (map_values persisted components).
Proof.
  intros Hnd. unfold load_dependency_graph, save_dependency_graph.
  rewrite dict_of_pairs_NoDup.
  2:{ unfold keys in *. rewrite <- list_fmap_compose.
      erewrite list_fmap_ext; [done|]. by intros ? []. }
  cut (∀ acc, NoDup (keys (acc ++ components)) →
         for_each load_component
           ((λ kv, (kv.1, JObj (to_dict kv.2))) <$> components) acc
         = Ok (acc ++ map_values persisted components)).
  { intros Hcut. apply (Hcut []). done. }
  clear Hnd. induction components as [|[k c] l IH]; intros acc Hnd.
  - simpl. by rewrite app_nil_r.
  - rewrite fmap_cons. cbn [for_each fst snd].
    rewrite load_component_to_dict. cbn [mbind res_bind].
    rewrite dict_set_fresh.
    + rewrite IH.
      * by rewrite <- app_assoc.
      * unfold keys in *. revert Hnd. by rewrite !fmap_app, <- app_assoc.
    + unfold keys in *. rewrite fmap_app in Hnd.
      apply NoDup_app in Hnd as (_ & Hd & _). intros ?. eapply Hd; [done|].
      csimpl. left.
Qed.

(** C7: saving a component table and loading the file again gives a table
    with the same keys in which every component has the same id, type,
    paths, line numbers, docstring flag and docstring, the same members in
    its dependency set, and neither tree node nor source text. *)
Theorem save_load_roundtrip (components : components_table) :
  NoDup (keys components) →
  ∃ loaded,
    load_dependency_graph (save_dependency_graph components) = Ok loaded ∧
    keys loaded = keys components ∧
    ∀ k c, dict_get components k = Some c →
      ∃ c', dict_get loaded k = Some c' ∧
        id c' = id c ∧
        component_type c' = component_type c ∧
        file_path c' = file_path c ∧
        relative_path c' = relative_path c ∧
        (∀ x, x ∈ depends_on c' ↔ x ∈ depends_on c) ∧
        NoDup (depends_on c') ∧
        start_line c' = start_line c ∧
        end_line c' = end_line c ∧
        has_docstring c' = has_docstring c ∧
        docstring c' = docstring c ∧
        node c' = None ∧
        source_code c' = None.
Proof.
  intros Hnd. eexists. split; [by apply load_save|]. split; [apply keys_map_values|].
  intros k c Hc. exists (persisted c). rewrite dict_get_map_values, Hc.
  split_and!; try done.
  - intros x. simpl. unfold set_of_list. rewrite elem_of_foldl_set_add.
    rewrite elem_of_nil. tauto.
  - simpl. apply NoDup_foldl_set_add, NoDup_nil_2.
Qed.

Lemma save_load_roundtrip_witness :
  NoDup (keys sample_table) ∧
  ∃ loaded,
    load_dependency_graph (save_dependency_graph sample_table) = Ok loaded ∧
    keys loaded = keys sample_table ∧
    ∀ k c, dict_get sample_table k = Some c →
      ∃ c', dict_get loaded k = Some c' ∧
        id c' = id c ∧
        component_type c' = component_type c ∧
        file_path c' = file_path c ∧
        relative_path c' = relative_path c ∧
        (∀ x, x ∈ depends_on c' ↔ x ∈ depends_on c) ∧
        NoDup (depends_on c') ∧
        start_line c' = start_line c ∧
        end_line c' = end_line c ∧
        has_docstring c' = has_docstring c ∧
        docstring c' = docstring c ∧
        node c' = None ∧
        source_code c' = None.
Proof.
  assert (Hnd : NoDup (keys sample_table)).
  { apply (bool_decide_unpack (NoDup (keys sample_table))). vm_compute. exact I. }
  split; [exact Hnd | exact (save_load_roundtrip sample_table Hnd)].
Defined.

(** ** Splitting and joining ids *)

Lemma split_nonempty (sep : Ascii.ascii) (s : string) : split sep s ≠ [].
Proof.
  destruct s as [|c s]; simpl; [done|].
  case_decide; [done|]. by destruct (split sep s).
Qed.

Lemma split_no_dot (s : string) : no_dot s → split dot s = [s].
Proof.
  induction s as [|c s IH]; simpl; [done|]. intros [Hc Hs].
  rewrite decide_False by done. by rewrite IH.
Qed.

Lemma split_app_dot (a b : string) :
  split dot (a +:+ "." +:+ b) = split dot a ++ split dot b.
Proof.
  induction a as [|c a IH]; simpl.
  - done.
  - change (String c a +:+ "." +:+ b) with (String c (a +:+ "." +:+ b)).
    simpl. case_decide; [by rewrite IH|].
    rewrite IH. pose proof (split_nonempty dot a).
    by destruct (split dot a).
Qed.

Lemma join_split (s : string) : join "." (split dot s) = s.
Proof.
  induction s as [|c s IH]; simpl; [done|].
  case_decide as Hc.
  - subst c. pose proof (split_nonempty dot s).
    destruct (split dot s) as [|h t] eqn:Hs; [done|].
    simpl in *. by rewrite IH.
  - pose proof (split_nonempty dot s).
    destruct (split dot s) as [|h t] eqn:Hs; [done|].
    destruct t; simpl in *; by rewrite <- IH.
Qed.

Lemma split_method_id (class_id name : string) :
  no_dot name →
  split dot (class_id +:+ "." +:+ name) = split dot class_id ++ [name].
Proof. intros. by rewrite split_app_dot, (split_no_dot name). Qed.

(** ** Classes depend on their methods (C9) *)

Lemma class_methods_of_spec (components : components_table) (class_id x : string) :
  x ∈ default [] (dict_get (class_methods_of components) class_id)
  ↔ attached components class_id x.
Proof.
  revert class_id x. unfold class_methods_of.
  apply (foldl_prefix_invariant
    (λ pre cm, ∀ class_id x,
       x ∈ default [] (dict_get cm class_id) ↔ attached pre class_id x)
    (λ cm entry, record_method entry cm)).
  - intros class_id x. simpl. rewrite elem_of_nil. split; [done|].
    intros (m & []%elem_of_nil & _).
  - intros pre [mid m] post cm _ IH class_id x.
    assert (Hsnoc : attached (pre ++ [(mid, m)]) class_id x ↔
      attached pre class_id x ∨
      (x = mid ∧ component_type m = "method" ∧ 2 ≤ length (split dot x) ∧
       class_part x = class_id ∧ last_part x ≠ "__init__")).
    { unfold attached. split.
      - intros (m' & [?|[= -> ->]%list_elem_of_singleton]%elem_of_app & ?);
          [left; eauto | right; tauto].
      - intros [(m' & ? & ?)|(-> & ?)].
        + exists m'. rewrite elem_of_app. tauto.
        + exists m. rewrite elem_of_app, list_elem_of_singleton. tauto. }
    rewrite Hsnoc. clear Hsnoc. unfold record_method. cbn [fst snd].
    destruct (decide (component_type m = "method")) as [Hty|Hty];
      [|rewrite IH; tauto].
    destruct (decide (2 ≤ length (split dot mid))) as [Hlen|Hlen];
      [|rewrite IH; split; [tauto|intros [?|(-> & _ & ? & _)]; [done|lia]]].
    fold (class_part mid). fold (last_part mid).
    set (cm' := if decide (class_part mid ∉ keys cm)
                then dict_set cm (class_part mid) [] else cm).
    assert (Hcm' : ∀ k, default [] (dict_get cm' k) = default [] (dict_get cm k)).
    { intros k. unfold cm'. case_decide as Hk; [|done].
      rewrite dict_get_set. case_decide; [subst k|done].
      apply dict_get_None in Hk. by rewrite Hk. }
    destruct (decide (last_part mid ≠ "__init__")) as [Hinit|Hinit].
    + rewrite dict_get_set. case_decide as Hc.
      * subst class_id. simpl. rewrite elem_of_app, list_elem_of_singleton.
        rewrite Hcm', IH. split; [intros [?| ->]; tauto|].
        intros [?|(-> & _)]; tauto.
      * rewrite Hcm', IH. split; [tauto|]. intros [?|(-> & _ & _ & ? & _)]; done.
    + rewrite Hcm', IH. split; [tauto|]. intros [?|(-> & _ & _ & _ & ?)]; done.
Qed.

Lemma attach_methods_spec (components : components_table)
    (cm : dict (list string)) (k : string) (c : CodeComponent) :
  dict_get components k = Some c →
  ∃ c', dict_get (foldl attach_methods components cm) k = Some c' ∧
    c' = set_depends_on (depends_on c') c ∧
    ∀ x, x ∈ depends_on c' ↔
         x ∈ depends_on c ∨ ∃ mids, (k, mids) ∈ cm ∧ x ∈ mids.
Proof.
  intros Hc.
  apply (foldl_prefix_invariant
    (λ pre comps, ∃ c', dict_get comps k = Some c' ∧
       c' = set_depends_on (depends_on c') c ∧
       ∀ x, x ∈ depends_on c' ↔
            x ∈ depends_on c ∨ ∃ mids, (k, mids) ∈ pre ∧ x ∈ mids)
    attach_methods).
  - exists c. split; [done|]. split; [by destruct c|]. intros x. split; [tauto|].
    intros [?|(mids & []%elem_of_nil & _)]. done.
  - intros pre [cid mids] post comps _ (c' & Hc' & Heq & Hdeps).
    unfold attach_methods. cbn [fst snd].
    assert (Hsnoc : ∀ x, (∃ ms, (k, ms) ∈ pre ++ [(cid, mids)] ∧ x ∈ ms) ↔
              (∃ ms, (k, ms) ∈ pre ∧ x ∈ ms) ∨ (k = cid ∧ x ∈ mids)).
    { intros x. split.
      - intros (ms & [?|[= -> ->]%list_elem_of_singleton]%elem_of_app & ?);
          [left; eauto | right; tauto].
      - intros [(ms & ? & ?)|(-> & ?)].
        + exists ms. rewrite elem_of_app. tauto.
        + exists mids. rewrite elem_of_app, list_elem_of_singleton. tauto. }
    destruct (dict_get comps cid) as [class_component|] eqn:Hcid.
    + rewrite dict_get_set. case_decide as Hk.
      * subst cid. rewrite Hc' in Hcid. injection Hcid as <-.
        eexists. split; [done|]. split.
        { rewrite Heq at 2. done. }
        intros x. cbn [depends_on set_depends_on].
        rewrite elem_of_foldl_set_add, Hdeps, Hsnoc. tauto.
      * exists c'. split; [done|]. split; [done|].
        intros x. rewrite Hdeps, Hsnoc. split; [tauto|].
        intros [?|[?|[? ?]]]; [tauto|tauto|congruence].
    + exists c'. split; [done|]. split; [done|].
      intros x. rewrite Hdeps, Hsnoc. split; [tauto|].
      intros [?|[?|[-> ?]]]; [tauto|tauto|congruence].
Qed.

Lemma class_methods_of_NoDup (components : components_table) :
  NoDup (keys (class_methods_of components)).
Proof.
  unfold class_methods_of.
  apply (foldl_prefix_invariant (λ _ cm, NoDup (keys cm))
           (λ cm entry, record_method entry cm)); [apply NoDup_nil_2|].
  intros _ entry _ cm _ Hnd. unfold record_method.
  repeat case_decide; auto using NoDup_keys_dict_set.
Qed.

Lemma add_class_method_dependencies_spec (components : components_table)
    (k : string) (c : CodeComponent) :
  dict_get components k = Some c →
  ∃ c', dict_get (add_class_method_dependencies components) k = Some c' ∧
    c' = set_depends_on (depends_on c') c ∧
    ∀ x, x ∈ depends_on c' ↔ x ∈ depends_on c ∨ attached components k x.
Proof.
  intros Hc. unfold add_class_method_dependencies.
  destruct (attach_methods_spec components (class_methods_of components) k c Hc)
    as (c' & Hc' & Heq & Hdeps).
  exists c'. split; [done|]. split; [done|]. intros x. rewrite Hdeps.
  rewrite <- class_methods_of_spec. split.
  - intros [?|(mids & Hin & ?)]; [tauto|]. right.
    apply dict_get_NoDup in Hin; [|apply class_methods_of_NoDup].
    by rewrite Hin.
  - intros [?|Hx]; [tauto|]. right.
    destruct (dict_get (class_methods_of components) k) as [mids|] eqn:Hk;
      [|by apply elem_of_nil in Hx].
    exists mids. split; [by apply dict_get_Some|done].
Qed.

Lemma class_part_method_id (class_id name : string) :
  no_dot name → class_part (class_id +:+ "." +:+ name) = class_id.
Proof.
  intros. unfold class_part. rewrite split_method_id by done.
  rewrite removelast_last. apply join_split.
Qed.

Lemma last_part_method_id (class_id name : string) :
  no_dot name → last_part (class_id +:+ "." +:+ name) = name.
Proof.
  intros. unfold last_part. rewrite split_method_id by done.
  by rewrite last_snoc.
Qed.

(** C9: after [_add_class_method_dependencies], the dependency set of every
    component registered under a class id holds the id of each method
    component nested under it, [__init__] excepted; whatever the pass added
    to a dependency set is the id of a method component nested under that
    id whose name is not [__init__]; and the pass changes nothing else of
    the component. *)
Theorem class_depends_on_its_methods (components : components_table)
    (class_id : string) (c : CodeComponent) :
  dict_get components class_id = Some c →
  ∃ c', dict_get (add_class_method_dependencies components) class_id = Some c' ∧
    c' = set_depends_on (depends_on c') c ∧
    (∀ name m, no_dot name → name ≠ "__init__" →
       dict_get components (class_id +:+ "." +:+ name) = Some m →
       component_type m = "method" →
       class_id +:+ "." +:+ name ∈ depends_on c') ∧
    (∀ x, x ∈ depends_on c' → x ∉ depends_on c →
       x ∈ keys components ∧ class_part x = class_id ∧
       last_part x ≠ "__init__" ∧ x ≠ class_id +:+ ".__init__").
Proof.
  intros Hc.
  destruct (add_class_method_dependencies_spec components class_id c Hc)
    as (c' & Hc' & Heq & Hdeps).
  exists c'. split_and!; [done..| |].
  - intros name m Hname Hinit Hm Hty. apply Hdeps. right. exists m.
    split_and!; [by apply dict_get_Some|done| | |].
    + rewrite split_method_id, length_app by done. simpl.
      pose proof (split_nonempty dot class_id).
      destruct (split dot class_id); [done|simpl; lia].
    + by apply class_part_method_id.
    + by rewrite last_part_method_id.
  - intros x [?|(m & Hin & _ & _ & Hcls & Hlast)]%Hdeps Hx; [done|].
    split_and!; [apply elem_of_keys; eauto|done..|].
    intros ->. apply Hlast.
    change (class_id +:+ ".__init__") with (class_id +:+ "." +:+ "__init__").
    apply last_part_method_id. simpl. by repeat split.
Qed.

Lemma class_depends_on_its_methods_witness :
  dict_get scenario_table "mod.Foo" = Some scenario_class ∧
  ∃ c', dict_get (add_class_method_dependencies scenario_table) "mod.Foo"
        = Some c' ∧
    c' = set_depends_on (depends_on c') scenario_class ∧
    (∀ name m, no_dot name → name ≠ "__init__" →
       dict_get scenario_table ("mod.Foo" +:+ "." +:+ name) = Some m →
       component_type m = "method" →
       "mod.Foo" +:+ "." +:+ name ∈ depends_on c') ∧
    (∀ x, x ∈ depends_on c' → x ∉ depends_on scenario_class →
       x ∈ keys scenario_table ∧ class_part x = "mod.Foo" ∧
       last_part x ≠ "__init__" ∧ x ≠ "mod.Foo" +:+ ".__init__").
Proof.
  split; [reflexivity|].
  exact (class_depends_on_its_methods scenario_table "mod.Foo" scenario_class
           eq_refl).
Defined.

Example scenario_attachment :
  depends_on <$> dict_get (add_class_method_dependencies scenario_table) "mod.Foo"
  = Some ["mod.baz"; "mod.Foo.bar"].
Proof. reflexivity. Qed.

(** ** Docstring flags of extracted components (C5) *)

(** C5 (the code at the failing inputs): the method [bar] of a documented
    class has no docstring of its own, yet its component is flagged as
    having one, since lines 288-293 test the body of the class; and
    extracting a documented top-level function raises [AttributeError]
    (line 324). *)
Theorem docstring_flag_of_method_and_function
    (segment : string → stmt → option string) (source : string) :
  (∃ table m,
     collect_components segment "/r/mod.py" "mod.py" "mod" source
                        documented_class [] = Ok table ∧
     dict_get table "mod.Foo.bar" = Some m ∧
     node m = Some bar_method ∧
     starts_with_string (stmt_body bar_method) = false ∧
     has_docstring m = true) ∧
  collect_components segment "/r/mod.py" "mod.py" "mod" source
                     documented_function [] = Raise AttributeError.
Proof.
  split; [|reflexivity].
  eexists _, _. split; [reflexivity|]. split; [reflexivity|]. by split_and!.
Qed.

Lemma append_nil_r (s : string) : s +:+ "" = s.
Proof.
  induction s as [|c s IH]; [done|].
  change (String c (s +:+ "") = String c s). by rewrite IH.
Qed.

Lemma method_id_neq_class_id (class_id name : string) :
  class_id +:+ "." +:+ name ≠ class_id.
Proof.
  intros H. rewrite <- (append_nil_r class_id) in H at 2.
  by apply String.app_inj in H.
Qed.

Lemma collect_methods_keep_class (segment : string → stmt → option string)
    (file rel source class_id : string) (class_node : stmt)
    (body : list stmt) (components : components_table) :
  dict_get (foldl (λ cs item, collect_method segment file rel source class_id
                                 class_node item cs) components body) class_id
  = dict_get components class_id.
Proof.
  revert components. induction body as [|item body IH]; intros d; simpl;
    [done|].
  rewrite IH. unfold collect_method. destruct (is_function_def item); [|done].
  rewrite dict_get_set, decide_False; [done|apply method_id_neq_class_id].
Qed.

(** For a class the flag and the text are those of its own first
    statement. *)
Lemma class_docstring_flag (segment : string → stmt → option string)
    (file rel module source name : string) (bases : list expr)
    (body : list stmt) (lineno : Z) (end_lineno : option Z)
    (top : bool) (components : components_table) :
  ∃ table c,
    collect_node segment file rel module source
                 (ClassDef name bases body lineno end_lineno, top) components
    = Ok table ∧
    dict_get table (module +:+ "." +:+ name) = Some c ∧
    component_type c = "class" ∧
    has_docstring c = starts_with_string body ∧
    docstring c = default EmptyString (head body ≫= string_statement).
Proof.
  unfold collect_node. cbn [fst snd]. eexists _, _. split; [done|].
  rewrite collect_methods_keep_class, dict_get_set, decide_True by done.
  split; [done|]. cbn. split; [done|]. split; [done|].
  destruct body as [|[] ?]; try done.
  destruct value as [[]| | |]; done.
Qed.

Lemma bind_Ok_l {A B : Type} (a : A) (k : A → res B) : Ok a ≫= k = k a.
Proof. done. Qed.

(** ** Components whose node is not found again (C6) *)

(** C6 (the code at a failing input): when the first component of the run
    cannot be found again, the run ends with [UnboundLocalError]: line 376
    assigns to [comonent_node], so [component_node] is unbound at line
    407. *)
Theorem unrelocated_first_component_raises (BUILTIN_TYPES : list string)
    (segment : string → stmt → option string) :
  parse_repository BUILTIN_TYPES segment nested_class_repository
                   [("/r/mod.py", "mod.py")]
  = Raise UnboundLocalError.
Proof. reflexivity. Qed.

(** A later component that cannot be found again is resolved against the
    node found for the component before it: [b] receives the dependency of
    [a]. *)
Lemma unrelocated_component_takes_stale_node (BUILTIN_TYPES : list string)
    (segment : string → stmt → option string) :
  "baz" ∉ BUILTIN_TYPES →
  ∃ table m,
    parse_repository BUILTIN_TYPES segment two_method_repository
                     [("/r/mod.py", "mod.py")] = Ok table ∧
    dict_get table "mod.Foo.b" = Some m ∧
    depends_on m = ["mod.baz"].
Proof.
  intros Hbaz.
  assert (Hadd : ∀ fi cm rm c,
    add_dependency BUILTIN_TYPES fi cm rm "baz" c
    = add_dependency [] fi cm rm "baz" c).
  { intros fi cm rm c. unfold add_dependency.
    rewrite (decide_False (P := "baz" ∈ BUILTIN_TYPES)) by done.
    rewrite (decide_False (P := "baz" ∈ [])); [done|apply not_elem_of_nil]. }
  assert (Ha : ∀ imports fi cm rm c,
      visit_stmt BUILTIN_TYPES imports fi cm rm method_a c
      = visit_stmt [] imports fi cm rm method_a c).
  { intros. cbn. by rewrite !Hadd. }
  assert (HFoo : ∀ imports fi cm rm c,
      visit_stmt BUILTIN_TYPES imports fi cm rm class_Foo c
      = visit_stmt [] imports fi cm rm class_Foo c).
  { intros. cbn. by rewrite !Hadd. }
  unfold class_Foo, method_a in Ha, HFoo.
  unfold parse_repository. cbn [for_each].
  set (p1 := parse_step _ _ _ _). vm_compute in p1. subst p1.
  rewrite !bind_Ok_l. cbn [fst snd].
  unfold resolve_dependencies.
  set (ks := keys _). vm_compute in ks. subst ks. cbn [for_each].
  eexists _, _. split.
  - do 4 (match goal with
      | |- context [resolve_component ?B ?f ?m ?k ?s] =>
          let r := fresh "r" in
          let E := fresh "E" in
          remember (resolve_component B f m k s) as r eqn:E;
          lazy -[visit_stmt] in E; rewrite ?Ha, ?HFoo in E; vm_compute in E;
          rewrite E; clear r E; rewrite bind_Ok_l
      end).
    rewrite !bind_Ok_l. reflexivity.
  - vm_compute. by split.
Qed.

Lemma unrelocated_component_takes_stale_node_witness :
  ("baz" ∉ ([] : list string)) ∧
  ∃ table m,
    parse_repository [] (λ _ _, None) two_method_repository
                     [("/r/mod.py", "mod.py")] = Ok table ∧
    dict_get table "mod.Foo.b" = Some m ∧
    depends_on m = ["mod.baz"].
Proof.
  split; [apply not_elem_of_nil|].
  exact (unrelocated_component_takes_stale_node [] (λ _ _, None)
           (not_elem_of_nil "baz")).
Defined.

(** ** The two scenarios of the cycle breaker (C8, C2) *)

(** C8: for [{A: {B}, B: {A}}] one cycle is reported, with members [A] and
    [B]; breaking it leaves the edge from [A] to [B] and removes the one from
    [B] to [A]; and the order puts [B], the target of the surviving edge,
    before [A].  With the keys inserted in the other order the roles of [A]
    and [B] are exchanged. *)
Theorem two_node_cycle :
  detect_cycles [("A", ["B"]); ("B", ["A"])] = Ok [["B"; "A"]] ∧
  resolve_cycles [("A", ["B"]); ("B", ["A"])] = Ok [("A", ["B"]); ("B", [])] ∧
  dependency_first_dfs [("A", ["B"]); ("B", ["A"])] = Ok ["B"; "A"] ∧
  detect_cycles [("B", ["A"]); ("A", ["B"])] = Ok [["A"; "B"]] ∧
  resolve_cycles [("B", ["A"]); ("A", ["B"])] = Ok [("B", ["A"]); ("A", [])] ∧
  dependency_first_dfs [("B", ["A"]); ("A", ["B"])] = Ok ["A"; "B"].
Proof. by vm_compute. Qed.

(** C2 (the code at the failing input): for the cycle [A -> B -> C -> A]
    one cycle is reported, with the members in the order [C, B, A]; neither
    [C -> B] nor [B -> A] is an edge, so no edge is removed and the graph
    returned is the graph given. *)
Theorem three_cycle_is_not_broken :
  detect_cycles three_cycle = Ok [["C"; "B"; "A"]] ∧
  resolve_cycles three_cycle = Ok three_cycle ∧
  dependency_first_dfs three_cycle = Ok ["C"; "B"; "A"].
Proof. by vm_compute. Qed.

(** ** The cycle detector *)


Lemma ix_lookup st x i : index st !! x = Some i → ix st x = i.
Proof. unfold ix. by intros ->. Qed.

Lemma ll_lookup st x i : lowlink st !! x = Some i → ll st x = i.
Proof. unfold ll. by intros ->. Qed.

Lemma reach_edge g x y z : reach g x y → edge g y z → reach g x z.
Proof. apply rtc_r. Qed.

Lemma reach_trans g x y z : reach g x y → reach g y z → reach g x z.
Proof. unfold reach. intros. by etrans. Qed.

Lemma elem_of_concat {A : Type} (ls : list (list A)) (x : A) :
  x ∈ concat ls ↔ ∃ l, l ∈ ls ∧ x ∈ l.
Proof.
  induction ls as [|l ls IH]; simpl.
  - split; [by intros ?%elem_of_nil|by intros (? & ?%elem_of_nil & _)].
  - rewrite elem_of_app, IH. split.
    + intros [?|(l' & ? & ?)].
      * exists l. split; [left|done].
      * exists l'. split; [by right|done].
    + intros (l' & [->|?]%elem_of_cons & ?); [by left|right; eauto].
Qed.

Lemma edge_mentioned g x y : edge g x y → y ∈ mentioned g.
Proof.
  unfold edge, successors, mentioned. intros Hy.
  destruct (dict_get g x) as [s|] eqn:Hs; [|by apply elem_of_nil in Hy].
  apply elem_of_app. right. apply elem_of_concat. exists s. split; [|done].
  apply dict_get_Some in Hs. apply list_elem_of_fmap. by exists (x, s).
Qed.

Lemma key_mentioned g x : x ∈ keys g → x ∈ mentioned g.
Proof. intros. apply elem_of_app. by left. Qed.

(** *** Frames *)

Lemma extends_refl st : extends st st.
Proof. by split. Qed.

Lemma extends_trans st1 st2 st3 :
  extends st1 st2 → extends st2 st3 → extends st1 st3.
Proof.
  intros [Hi1 Hl1 Hc1 Hr1] [Hi2 Hl2 Hc2 Hr2]. split.
  - by etrans.
  - intros x Hx. rewrite Hl2; [auto|]. by eapply subseteq_dom.
  - lia.
  - auto.
Qed.

Lemma extends_dom st st' x :
  extends st st' → x ∈ dom (index st) → x ∈ dom (index st').
Proof. intros [H _ _ _]. by apply subseteq_dom. Qed.

Lemma extends_ix st st' x :
  extends st st' → x ∈ dom (index st) → ix st' x = ix st x.
Proof.
  intros [H _ _ _] [i Hi]%elem_of_dom. unfold ix.
  by rewrite (lookup_weaken _ _ _ _ Hi H), Hi.
Qed.

Lemma extends_ll st st' x :
  extends st st' → x ∈ dom (index st) → ll st' x = ll st x.
Proof. intros [_ H _ _] Hx. unfold ll. by rewrite H. Qed.

Lemma extends_whites g st st' :
  extends st st' → whites g st' ≤ whites g st.
Proof.
  intros H. apply subseteq_size.
  pose proof (subseteq_dom _ _ (ext_index _ _ H)). set_solver.
Qed.

Lemma whites_fresh g st st' v :
  extends st st' → v ∈ mentioned g → v ∉ dom (index st) →
  v ∈ dom (index st') → whites g st' < whites g st.
Proof.
  intros H Hv Hw Hv'. apply subset_size.
  pose proof (subseteq_dom _ _ (ext_index _ _ H)).
  assert (v ∈ (list_to_set (mentioned g) : gset string))
    by by apply elem_of_list_to_set.
  split; [set_solver|]. intros Hsub. specialize (Hsub v). set_solver.
Qed.

(** *** The stack is ordered by index *)

Lemma sorted_above g st above v below a :
  tarjan_inv g st → stack st = above ++ v :: below →
  a ∈ above → ix st v < ix st a.
Proof.
  intros Hinv Hst (l1 & l2 & ->)%list_elem_of_split.
  eapply (inv_sorted _ _ Hinv l1 a (l2 ++ v :: below)).
  - by rewrite Hst, <- app_assoc.
  - apply elem_of_app. right. left.
Qed.

Lemma sorted_below g st above v below z :
  tarjan_inv g st → stack st = above ++ v :: below →
  z ∈ below → ix st z < ix st v.
Proof. intros Hinv Hst Hz. by eapply (inv_sorted _ _ Hinv above v below). Qed.

(** A node of the stack whose index is less than that of [v] lies below
    [v]. *)
Lemma stack_less_below g st above v below w :
  tarjan_inv g st → stack st = above ++ v :: below →
  w ∈ stack st → ix st w < ix st v → w ∈ below.
Proof.
  intros Hinv Hst Hw Hlt. rewrite Hst in Hw.
  apply elem_of_app in Hw as [Hw|Hw].
  - pose proof (sorted_above _ _ _ _ _ _ Hinv Hst Hw). lia.
  - apply elem_of_cons in Hw as [->|Hw]; [lia|done].
Qed.

(** Nodes that have left the stack are closed under paths. *)
Lemma popped_reach g st x y :
  tarjan_inv g st → popped st x → reach g x y → popped st y.
Proof.
  intros Hinv Hx Hxy. induction Hxy as [|x y z Hxy _ IH]; [done|].
  apply IH. by eapply inv_closed.
Qed.

(** *** Entering a node (lines 31-35) *)

Lemma ix_enter st v x :
  ix (enter v st) x = if decide (x = v) then index_counter st else ix st x.
Proof.
  unfold ix, enter. simpl. case_decide as Hx.
  - subst. by rewrite lookup_insert_eq.
  - by rewrite lookup_insert_ne.
Qed.

Lemma ll_enter st v x :
  ll (enter v st) x = if decide (x = v) then index_counter st else ll st x.
Proof.
  unfold ll, enter. simpl. case_decide as Hx.
  - subst. by rewrite lookup_insert_eq.
  - by rewrite lookup_insert_ne.
Qed.

Lemma ix_counter g st x :
  tarjan_inv g st → x ∈ dom (index st) → ix st x < index_counter st.
Proof.
  intros Hinv [i Hi]%elem_of_dom. rewrite (ix_lookup _ _ _ Hi).
  by eapply inv_counter.
Qed.

Lemma extends_enter st v : v ∉ dom (index st) → extends st (enter v st).
Proof.
  intros Hv. split; simpl.
  - apply insert_subseteq. by apply not_elem_of_dom.
  - intros x Hx. rewrite lookup_insert_ne; [done|]. by intros ->.
  - lia.
  - done.
Qed.

Lemma popped_enter st v x :
  v ∉ dom (index st) → popped (enter v st) x ↔ popped st x.
Proof.
  intros Hv. unfold popped. simpl. rewrite dom_insert, not_elem_of_cons.
  split.
  - intros [[->%elem_of_singleton|?]%elem_of_union [? ?]]; done.
  - intros [? ?]. split_and!; [set_solver| |done]. by intros ->.
Qed.

Lemma enter_inv g st v :
  tarjan_inv g st → v ∉ dom (index st) → v ∈ mentioned g →
  (∀ a, a ∈ stack st → reach g a v) →
  tarjan_inv g (enter v st).
Proof.
  intros Hinv Hv Hm Hreach.
  assert (Hne : ∀ x, x ∈ stack st → x ≠ v).
  { intros x Hx ->. by apply Hv, (inv_stack_dom _ _ Hinv). }
  assert (Hix : ∀ x, x ∈ stack st → ix (enter v st) x = ix st x).
  { intros x Hx. rewrite ix_enter, decide_False; auto. }
  assert (Hll : ∀ x, x ∈ stack st → ll (enter v st) x = ll st x).
  { intros x Hx. rewrite ll_enter, decide_False; auto. }
  assert (Hixv : ix (enter v st) v = index_counter st).
  { by rewrite ix_enter, decide_True. }
  assert (Hlt : ∀ x, x ∈ stack st → ix st x < index_counter st).
  { intros x Hx. eapply ix_counter; [done|]. by eapply inv_stack_dom. }
  split.
  - simpl. rewrite !dom_insert_L. by rewrite (inv_dom _ _ Hinv).
  - simpl. intros x i. destruct (decide (x = v)) as [->|Hx].
    + rewrite lookup_insert_eq. intros [= <-]. lia.
    + rewrite lookup_insert_ne by done. intros ?%(inv_counter _ _ Hinv). lia.
  - simpl. intros x. rewrite dom_insert.
    intros [->%elem_of_singleton|?]%elem_of_union; [done|].
    by apply (inv_mentioned _ _ Hinv).
  - simpl. intros x. rewrite elem_of_union, elem_of_singleton, elem_of_cons.
    by rewrite (inv_onstack _ _ Hinv).
  - simpl. apply NoDup_cons. split; [|apply (inv_nodup _ _ Hinv)].
    intros ?. by eapply Hne.
  - simpl. intros x. rewrite dom_insert, elem_of_cons.
    intros [->|?%(inv_stack_dom _ _ Hinv)]; set_solver.
  - simpl. intros l1 x l2 Hst y Hy. destruct l1 as [|x1 l1].
    + injection Hst as <- <-. rewrite Hixv, Hix by done. auto.
    + injection Hst as <- Hst.
      assert (x ∈ stack st).
      { rewrite Hst. apply elem_of_app. right. left. }
      assert (y ∈ stack st).
      { rewrite Hst. apply elem_of_app. right. by right. }
      rewrite !Hix by done. by eapply (inv_sorted _ _ Hinv).
  - simpl. intros a b [->|Ha]%elem_of_cons [->|Hb]%elem_of_cons.
    + intros _. apply rtc_refl.
    + rewrite Hixv, Hix by done. specialize (Hlt _ Hb). lia.
    + intros _. auto.
    + rewrite !Hix by done. by apply (inv_below _ _ Hinv).
  - simpl. intros x [->|Hx]%elem_of_cons.
    + rewrite ll_enter, decide_True, Hixv by done. split; [done|].
      exists v. split_and!; [left|done|apply rtc_refl].
    + rewrite Hll, Hix by done.
      destruct (inv_lowlink _ _ Hinv x Hx) as (Hle & w & Hw & Hwx & Hr).
      split; [done|]. exists w. rewrite Hix by done. split_and!; [by right|done..].
  - intros x y Hx%popped_enter Hxy; [|done]. apply popped_enter; [done|].
    by eapply inv_closed.
  - intros x y Hx%popped_enter Hy%popped_enter; [|done..].
    by apply (inv_complete _ _ Hinv).
  - apply (inv_sound _ _ Hinv).
Qed.

Lemma enter_successors_inv g st v :
  tarjan_inv g st → v ∉ dom (index st) → v ∈ mentioned g →
  (∀ a, a ∈ stack st → reach g a v) →
  successors_inv g st v [] (enter v st).
Proof.
  intros Hinv Hv Hm Hreach. split_and!.
  - by apply enter_inv.
  - by apply extends_enter.
  - simpl. apply lookup_insert_eq.
  - exists []. split_and!; try done.
    + by intros a ?%elem_of_nil.
    + simpl. intros a [->|?]%elem_of_cons; [apply rtc_refl|auto].
    + by intros a z ?%elem_of_nil.
    + by intros z ?%elem_of_nil.
    + by intros a z ?%elem_of_nil.
    + by intros z ?%elem_of_nil.
Qed.

(** *** Lowering [lowlink[v]] (lines 40 and 42) *)

Lemma ix_set_lowlink st v n x : ix (set_lowlink v n st) x = ix st x.
Proof. done. Qed.

Lemma ll_set_lowlink st v n x :
  ll (set_lowlink v n st) x = if decide (x = v) then n else ll st x.
Proof.
  unfold ll, set_lowlink. simpl. case_decide as Hx.
  - subst. by rewrite lookup_insert_eq.
  - by rewrite lookup_insert_ne.
Qed.

Lemma set_lowlink_inv g s v n :
  tarjan_inv g s → v ∈ stack s → n ≤ ix s v →
  (∃ w, w ∈ stack s ∧ ix s w = n ∧ reach g v w) →
  tarjan_inv g (set_lowlink v n s).
Proof.
  intros Hinv Hv Hn Hw. split; try apply Hinv.
  - simpl. rewrite dom_insert_L, (inv_dom _ _ Hinv).
    apply (inv_stack_dom _ _ Hinv) in Hv. set_solver.
  - simpl. intros x Hx. rewrite ll_set_lowlink, ix_set_lowlink.
    case_decide as Hxv; [by subst|]. apply (inv_lowlink _ _ Hinv x Hx).
Qed.

Lemma extends_set_lowlink st s v n :
  extends st s → v ∉ dom (index st) → extends st (set_lowlink v n s).
Proof.
  intros [Hi Hl Hc Hr] Hv. split; simpl; try done.
  intros x Hx. rewrite lookup_insert_ne; [auto|]. by intros ->.
Qed.

(** *** One successor (lines 38-42) *)

Lemma map_item_ix st x :
  x ∈ dom (index st) → map_item (index st) x = Ok (ix st x).
Proof. intros [i Hi]%elem_of_dom. unfold map_item, ix. by rewrite Hi. Qed.

Lemma map_item_ll g st x :
  tarjan_inv g st → x ∈ dom (index st) →
  map_item (lowlink st) x = Ok (ll st x).
Proof.
  intros Hinv Hx. rewrite <- (inv_dom _ _ Hinv) in Hx.
  apply elem_of_dom in Hx as [i Hi]. unfold map_item, ll. by rewrite Hi.
Qed.

Lemma successors_inv_node g st v seen s :
  successors_inv g st v seen s →
  v ∈ stack s ∧ v ∈ dom (index s) ∧ ix s v = index_counter st.
Proof.
  intros (Hinv & _ & Hv & above & Hst & _).
  assert (v ∈ stack s).
  { rewrite Hst. apply elem_of_app. right. left. }
  split_and!; [done|by apply (inv_stack_dom _ _ Hinv)|by apply ix_lookup].
Qed.

(** A successor that is numbered already (lines 41-42). *)
Lemma visit_numbered g st v seen s z rec :
  v ∉ dom (index st) →
  successors_inv g st v seen s → edge g v z → z ∈ dom (index s) →
  ∃ s', visit_successor rec v z s = Ok s' ∧
        successors_inv g st v (seen ++ [z]) s'.
Proof.
  intros Hvst HI Hedge Hz.
  destruct (successors_inv_node _ _ _ _ _ HI) as (Hvs & Hvd & Hvi).
  destruct HI as (Hinv & Hext & Hv & above & Hst & Hab & HG & HF & HF' & HK & HK').
  unfold visit_successor. rewrite decide_False by (by intros ?).
  destruct (decide (z ∈ onstack s)) as [Hon|Hoff].
  - rewrite (map_item_ll g), map_item_ix by done. simpl.
    apply (inv_onstack _ _ Hinv) in Hon.
    destruct (inv_lowlink _ _ Hinv v Hvs) as (Hle & w & Hw & Hwi & Hwr).
    eexists. split; [done|]. split_and!.
    + apply set_lowlink_inv; [done..|lia|].
      destruct (decide (ix s z < ll s v)).
      * exists z. split_and!; [done|lia|by apply rtc_once].
      * exists w. split_and!; [done|lia|done].
    + by apply extends_set_lowlink.
    + done.
    + exists above. split_and!; try done.
      * intros z' [?| ->%list_elem_of_singleton]%elem_of_app; auto.
      * intros a z' Ha Hz' He. rewrite ll_set_lowlink, decide_True by done.
        rewrite ix_set_lowlink. specialize (HK a z' Ha Hz' He). lia.
      * intros z' [?| ->%list_elem_of_singleton]%elem_of_app Hz';
          rewrite ll_set_lowlink, decide_True, ix_set_lowlink by done.
        -- specialize (HK' z' H Hz'). lia.
        -- lia.
  - exists s. split; [done|]. split_and!; try done.
    exists above. split_and!; try done.
    + intros z' [?| ->%list_elem_of_singleton]%elem_of_app; auto.
    + intros z' [?| ->%list_elem_of_singleton]%elem_of_app Hz'; [auto|].
      exfalso. apply Hoff, (inv_onstack _ _ Hinv). rewrite Hst.
      apply elem_of_app. right. by right.
Qed.

(** A successor that is not numbered yet (lines 38-40), given what the
    recursive call ensures. *)
Lemma visit_fresh g st v seen s c rec s1 :
  v ∉ dom (index st) →
  successors_inv g st v seen s → edge g v c → c ∉ dom (index s) →
  rec c s = Ok s1 → strongconnect_post g s c s1 →
  ∃ s', visit_successor rec v c s = Ok s' ∧
        successors_inv g st v (seen ++ [c]) s'.
Proof.
  intros Hvst HI Hedge Hc Hrec Hpost.
  destruct (successors_inv_node _ _ _ _ _ HI) as (Hvs & Hvd & Hvi).
  destruct HI as (Hinv & Hext & Hv & above & Hst & Hab & HG & HF & HF' & HK & HK').
  destruct Hpost as (Hinv1 & Hext1 & Hc1 & new & Hst1 & Hnew & HF1 & HK1 & HG1 & Hll1).
  assert (Hvd1 : v ∈ dom (index s1)) by by eapply extends_dom.
  assert (Hvs1 : v ∈ stack s1).
  { rewrite Hst1. apply elem_of_app. by right. }
  assert (Hixv : ix s1 v = ix s v) by by apply extends_ix.
  assert (Hllv : ll s1 v = ll s v) by by apply extends_ll.
  assert (Hsub : ∀ z, z ∈ stack st → z ∈ stack s).
  { intros z Hz. rewrite Hst. apply elem_of_app. right. by right. }
  unfold visit_successor. rewrite decide_True by done. rewrite Hrec. simpl.
  rewrite !(map_item_ll g) by done. simpl.
  destruct (inv_lowlink _ _ Hinv1 v Hvs1) as (Hle & w & Hw & Hwi & Hwr).
  eexists. split; [done|]. split_and!.
  - apply set_lowlink_inv; [done..|lia|].
    destruct (decide (ll s1 c < ll s1 v)) as [Hlt|Hge].
    + destruct (decide (c ∈ stack s1)) as [Hcs|Hcs].
      * destruct (inv_lowlink _ _ Hinv1 c Hcs) as (_ & w' & Hw' & Hwi' & Hwr').
        exists w'. split_and!; [done|lia|].
        eapply reach_trans; [by apply rtc_once|done].
      * specialize (Hll1 Hcs).
        pose proof (ix_counter _ _ _ Hinv Hvd). lia.
    + exists w. split_and!; [done|lia|done].
  - apply extends_set_lowlink; [|done]. by eapply extends_trans.
  - simpl. by eapply lookup_weaken, ext_index.
  - exists (new ++ above). simpl. split_and!.
    + by rewrite Hst1, Hst, app_assoc.
    + intros a [Ha|Ha]%elem_of_app; [|auto].
      intros ?. eapply Hnew; [done|]. by eapply extends_dom.
    + intros a. rewrite Hst1. intros [Ha|Ha]%elem_of_app; [|auto].
      destruct (HG1 a Ha) as (b & Hb & Hab'). eapply reach_trans; eauto.
    + intros a z [Ha|Ha]%elem_of_app He; [by eapply HF1|].
      eapply extends_dom; [done|]. by eapply HF.
    + intros z [?| ->%list_elem_of_singleton]%elem_of_app; [|done].
      eapply extends_dom; [done|]. auto.
    + intros a z [Ha|Ha]%elem_of_app Hz He;
        rewrite ll_set_lowlink, decide_True, ix_set_lowlink by done.
      * specialize (HK1 a z Ha (Hsub _ Hz) He). lia.
      * specialize (HK a z Ha Hz He).
        rewrite (extends_ix s s1) by
          (try done; apply (inv_stack_dom _ _ Hinv); auto). lia.
    + intros z [Hz| ->%list_elem_of_singleton]%elem_of_app Hzst;
        rewrite ll_set_lowlink, decide_True, ix_set_lowlink by done.
      * specialize (HK' z Hz Hzst).
        rewrite (extends_ix s s1) by
          (try done; apply (inv_stack_dom _ _ Hinv); auto). lia.
      * exfalso. apply Hc, (inv_stack_dom _ _ Hinv). auto.
Qed.

(** *** Leaving a node (lines 44-54) *)

Lemma pop_scc_spec v above below ons scc :
  NoDup (above ++ v :: below) →
  (∀ x, x ∈ above ++ [v] → x ∈ ons) →
  ∃ ons', pop_scc v (above ++ v :: below) ons scc
          = Ok (below, ons', scc ++ above ++ [v]) ∧
    ∀ x, x ∈ ons' ↔ x ∈ ons ∧ x ∉ above ++ [v].
Proof.
  revert ons scc. induction above as [|a above IH]; intros ons scc Hnd Hons.
  - simpl. rewrite decide_True by (apply Hons; left).
    rewrite decide_True by done. eexists. split; [done|]. set_solver.
  - simpl in Hnd. apply NoDup_cons in Hnd as [Ha Hnd]. simpl.
    rewrite decide_True by (apply Hons; left).
    rewrite decide_False.
    2:{ intros ->. apply Ha. apply elem_of_app. right. left. }
    destruct (IH (ons ∖ {[a]}) (scc ++ [a]) Hnd) as (ons' & -> & Hons').
    { intros x Hx. apply elem_of_difference. split; [apply Hons; by right|].
      intros ->%elem_of_singleton. apply Ha.
      apply elem_of_app in Hx as [?| ->%list_elem_of_singleton];
        apply elem_of_app; [by left|right; left]. }
    exists ons'. split; [by rewrite <- app_assoc|].
    intros x. rewrite Hons'. set_solver.
Qed.

Lemma two_members {A : Type} (l : list A) (x y : A) :
  x ∈ l → y ∈ l → x ≠ y → 1 < length l.
Proof.
  destruct l as [|a [|b l]]; simpl; [by intros ?%elem_of_nil| |lia].
  by intros ->%list_elem_of_singleton ->%list_elem_of_singleton.
Qed.

(** [v] is not the root of a component: it stays on the stack. *)
Lemma finish_inner g st v s :
  v ∉ dom (index st) →
  successors_inv g st v (successors g v) s → ll s v ≠ ix s v →
  finish v s = Ok s ∧ strongconnect_post g st v s.
Proof.
  intros Hvst HI Hne.
  destruct (successors_inv_node _ _ _ _ _ HI) as (Hvs & Hvd & Hvi).
  destruct HI as (Hinv & Hext & Hv & above & Hst & Hab & HG & HF & HF' & HK & HK').
  destruct (inv_lowlink _ _ Hinv v Hvs) as (Hle & w & Hw & Hwi & Hwr).
  assert (Hwst : w ∈ stack st).
  { eapply stack_less_below; [done..|lia]. }
  split.
  - unfold finish. rewrite (map_item_ll g), map_item_ix by done. simpl.
    by rewrite decide_False.
  - split_and!; [done..|]. exists (above ++ [v]). split_and!.
    + by rewrite Hst, <- app_assoc.
    + intros a [?| ->%list_elem_of_singleton]%elem_of_app; auto.
    + intros a z [?| ->%list_elem_of_singleton]%elem_of_app He; [by eapply HF|].
      by apply HF'.
    + intros a z [?| ->%list_elem_of_singleton]%elem_of_app Hz He;
        [by eapply HK|by apply HK'].
    + intros a Ha. exists w. split; [done|]. eapply reach_trans; [|done].
      apply HG. rewrite Hst.
      apply elem_of_app in Ha as [?| ->%list_elem_of_singleton];
        apply elem_of_app; [by left|right; left].
    + done.
Qed.

(** [v] is the root of a component: the stack is popped down to [v]. *)
Lemma finish_root g st v s :
  v ∉ dom (index st) →
  successors_inv g st v (successors g v) s → ll s v = ix s v →
  ∃ st', finish v s = Ok st' ∧ strongconnect_post g st v st'.
Proof.
  intros Hvst HI Heq.
  destruct (successors_inv_node _ _ _ _ _ HI) as (Hvs & Hvd & Hvi).
  destruct HI as (Hinv & Hext & Hv & above & Hst & Hab & HG & HF & HF' & HK & HK').
  pose proof (inv_nodup _ _ Hinv) as Hnd. rewrite Hst in Hnd.
  destruct (pop_scc_spec v above (stack st) (onstack s) [] Hnd)
    as (ons' & Hpop & Hons').
  { intros x Hx. apply (inv_onstack _ _ Hinv). rewrite Hst.
    apply elem_of_app in Hx as [?| ->%list_elem_of_singleton];
      apply elem_of_app; [by left|right; left]. }
  unfold finish. rewrite (map_item_ll g), map_item_ix by done. simpl.
  rewrite decide_True by done. rewrite Hst, Hpop. simpl.
  set (scc := above ++ [v]).
  set (st' := Tarjan _ _ _ _ _ _).
  assert (Hscc : ∀ x, x ∈ scc ↔ x ∈ above ∨ x = v).
  { intros x. unfold scc. by rewrite elem_of_app, list_elem_of_singleton. }
  assert (Hstack : ∀ x, x ∈ stack s ↔ x ∈ scc ∨ x ∈ stack st).
  { intros x. rewrite Hst, Hscc, elem_of_app, elem_of_cons. tauto. }
  assert (Hdisj : ∀ x, x ∈ scc → x ∉ stack st).
  { intros x Hx Hx'. apply NoDup_app in Hnd as (_ & Hd & Hnd').
    apply NoDup_cons in Hnd' as [Hv' _].
    apply Hscc in Hx as [Hx| ->]; [|done]. eapply Hd; [done|by right]. }
  assert (Hpopped : ∀ x, popped st' x ↔ popped s x ∨ x ∈ scc).
  { intros x. unfold popped. simpl. rewrite Hstack. split.
    - intros [? ?]. destruct (decide (x ∈ scc)); tauto.
    - intros [[? ?]|Hx]; [tauto|]. split; [|by apply Hdisj].
      apply (inv_stack_dom _ _ Hinv), Hstack. by left. }
  assert (Hout : ∀ x y, x ∈ scc → edge g x y → popped st' y).
  { intros x y Hx He. split; simpl.
    - apply Hscc in Hx as [Hx| ->]; [by eapply HF|by apply HF'].
    - intros Hy. pose proof (sorted_below _ _ _ _ _ _ Hinv Hst Hy).
      apply Hscc in Hx as [Hx| ->].
      + specialize (HK x y Hx Hy He). lia.
      + specialize (HK' y He Hy). lia. }
  assert (Hresult : ∀ c, c ∈ result s → c ∈ result st').
  { intros c Hc. simpl. case_decide; [|done]. apply elem_of_app. by left. }
  eexists. split; [done|]. fold scc. fold st'. split_and!.
  - split; [exact (inv_dom _ _ Hinv)|exact (inv_counter _ _ Hinv)
           |exact (inv_mentioned _ _ Hinv)|..].
    + simpl. intros x. rewrite Hons', (inv_onstack _ _ Hinv), Hstack.
      fold scc. split; [tauto|]. intros Hx. split; [tauto|].
      intros ?. by eapply Hdisj.
    + simpl. apply NoDup_app in Hnd as (_ & _ & Hnd').
      by apply NoDup_cons in Hnd' as [_ ?].
    + simpl. intros x Hx. apply (inv_stack_dom _ _ Hinv), Hstack. by right.
    + simpl. intros l1 x l2 Hl y Hy.
      apply (inv_sorted _ _ Hinv (above ++ v :: l1) x l2); [|done].
      rewrite Hst, Hl, <- app_assoc. reflexivity.
    + simpl. intros a b Ha Hb. apply (inv_below _ _ Hinv); apply Hstack; tauto.
    + simpl. intros x Hx.
      destruct (inv_lowlink _ _ Hinv x) as (Hle & w & Hw & Hwi & Hwr);
        [apply Hstack; tauto|].
      split; [done|]. exists w. split_and!; [|done..].
      pose proof (sorted_below _ _ _ _ _ _ Hinv Hst Hx).
      eapply stack_less_below; [done..|]. unfold ix, ll in *. simpl in *. lia.
    + intros x y [Hx|Hx]%Hpopped He; [|by eapply Hout].
      apply Hpopped. left. by eapply inv_closed.
    + intros x y [Hx|Hx]%Hpopped [Hy|Hy]%Hpopped Hxy Hr1 Hr2.
      * destruct (inv_complete _ _ Hinv x y) as (c & ? & ?); eauto.
      * exfalso. destruct (popped_reach _ _ _ _ Hinv Hx Hr1) as [_ Hn].
        apply Hn, Hstack. by left.
      * exfalso. destruct (popped_reach _ _ _ _ Hinv Hy Hr2) as [_ Hn].
        apply Hn, Hstack. by left.
      * exists scc. split; [|done]. simpl.
        rewrite decide_True by (by apply (two_members _ x y)).
        apply elem_of_app. right. left.
    + simpl. intros c. case_decide as Hlen; [|apply (inv_sound _ _ Hinv)].
      intros [Hc| ->%list_elem_of_singleton]%elem_of_app;
        [by apply (inv_sound _ _ Hinv)|].
      split_and!; [done| |].
      * unfold scc. apply NoDup_app in Hnd as (Hnd1 & Hd & _).
        apply NoDup_app. split_and!; [done| |apply NoDup_singleton].
        intros x Hx ->%list_elem_of_singleton. eapply Hd; [done|left].
      * intros x y Hx Hy. eapply reach_trans.
        -- apply HG, Hstack. by left.
        -- apply (inv_below _ _ Hinv); [done|apply Hstack; by left|].
           apply Hscc in Hy as [Hy| ->]; [|done].
           pose proof (sorted_above _ _ _ _ _ _ Hinv Hst Hy). lia.
  - destruct Hext as [Hi Hl Hc Hr]. split; simpl; auto.
  - done.
  - exists []. split_and!; try done; try (by intros ? ?%elem_of_nil);
      try (by intros ? ? ?%elem_of_nil).
    intros _. unfold ll in *. simpl. lia.
Qed.

Lemma finish_spec g st v s :
  v ∉ dom (index st) →
  successors_inv g st v (successors g v) s →
  ∃ st', finish v s = Ok st' ∧ strongconnect_post g st v st'.
Proof.
  intros Hv HI. destruct (decide (ll s v = ix s v)).
  - by apply finish_root.
  - exists s. by apply finish_inner.
Qed.

(** *** [strongconnect] (lines 30-54) *)

(** A call on a node that is not numbered yet returns, given fuel for the
    nodes that are not numbered, and ensures [strongconnect_post]. *)
Lemma strongconnect_spec g fuel v st :
  tarjan_inv g st → v ∉ dom (index st) → v ∈ mentioned g →
  (∀ a, a ∈ stack st → reach g a v) →
  whites g st < fuel →
  ∃ st', strongconnect g fuel v st = Ok st' ∧ strongconnect_post g st v st'.
Proof.
  revert v st. induction fuel as [|fuel IH]; intros v st Hinv Hv Hm Hreach Hfuel;
    [lia|].
  simpl.
  destruct (for_each_prefix_invariant (successors_inv g st v)
              (visit_successor (strongconnect g fuel) v) (successors g v)
              (enter v st)) as (s & -> & HI).
  - by apply enter_successors_inv.
  - intros pre z post s Hl HI.
    assert (Hedge : edge g v z).
    { unfold edge. rewrite Hl. apply elem_of_app. right. left. }
    destruct (decide (z ∈ dom (index s))) as [Hz|Hz];
      [by eapply visit_numbered|].
    destruct (successors_inv_node _ _ _ _ _ HI) as (Hvs & Hvd & Hvi).
    pose proof HI as (Hinv' & Hext & _ & above & Hst & _ & HG & _).
    destruct (IH z s) as (s1 & Hrec & Hpost); [done|done| | | |].
    + by eapply edge_mentioned.
    + intros a Ha. eapply reach_trans; [by apply HG|by apply rtc_once].
    + pose proof (whites_fresh g st s v Hext Hm Hv Hvd). lia.
    + by eapply visit_fresh.
  - simpl. by apply finish_spec.
Qed.

(** *** The loop over the nodes (lines 56-58) *)

Lemma size_list_to_set_le (l : list string) :
  size (list_to_set l : gset string) ≤ length l.
Proof.
  unfold size, set_size. simpl. apply submseteq_length, NoDup_submseteq.
  - apply NoDup_elements.
  - intros x. rewrite elem_of_elements. by rewrite elem_of_list_to_set.
Qed.

Lemma whites_le g st : whites g st ≤ length (mentioned g).
Proof.
  unfold whites. etrans; [|apply size_list_to_set_le].
  apply subseteq_size. set_solver.
Qed.

Lemma tarjan_init_inv g : tarjan_inv g tarjan_init.
Proof.
  split; simpl; try done.
  - intros x. rewrite elem_of_empty, elem_of_nil. done.
  - apply NoDup_nil_2.
  - by intros x ?%elem_of_nil.
  - intros l1 x l2 H. by destruct l1.
  - by intros a b ?%elem_of_nil.
  - by intros x ?%elem_of_nil.
  - intros x y [Hx _]. simpl in Hx. by rewrite dom_empty_L in Hx.
  - intros x y [Hx _]. simpl in Hx. by rewrite dom_empty_L in Hx.
  - by intros c ?%elem_of_nil.
Qed.

Lemma detect_root_spec g st v :
  tarjan_inv g st → stack st = [] → v ∈ keys g →
  ∃ st', detect_root g (S (length (mentioned g))) v st = Ok st' ∧
         tarjan_inv g st' ∧ stack st' = [] ∧ extends st st' ∧
         v ∈ dom (index st').
Proof.
  intros Hinv Hst Hv. unfold detect_root.
  destruct (decide (v ∉ dom (index st))) as [Hfresh|Hold].
  - destruct (strongconnect_spec g (S (length (mentioned g))) v st)
      as (st' & -> & Hinv' & Hext & Hvd & new & Hst' & _ & _ & _ & HG & _);
      [done|done|by apply key_mentioned| | |].
    + rewrite Hst. by intros a ?%elem_of_nil.
    + pose proof (whites_le g st). lia.
    + exists st'. split_and!; try done.
      destruct new as [|a new]; [by rewrite Hst' |].
      destruct (HG a) as (b & Hb & _); [left|].
      rewrite Hst in Hb. by apply elem_of_nil in Hb.
  - exists st. split_and!; [done..|apply extends_refl|].
    by apply dec_stable.
Qed.

(** [detect_cycles] returns, and in the state it ends with every key of the
    graph is numbered and the stack is empty. *)
Lemma detect_cycles_state_spec g :
  ∃ st, detect_cycles_state g = Ok st ∧ tarjan_inv g st ∧ stack st = [] ∧
        ∀ k, k ∈ keys g → k ∈ dom (index st).
Proof.
  unfold detect_cycles_state.
  destruct (for_each_prefix_invariant
              (λ seen st, tarjan_inv g st ∧ stack st = [] ∧
                          ∀ k, k ∈ seen → k ∈ dom (index st))
              (detect_root g (S (length (mentioned g)))) (keys g) tarjan_init)
    as (st & Hst & HI); [| |by exists st].
  - split_and!; [apply tarjan_init_inv|done|by intros k ?%elem_of_nil].
  - intros pre k post s Hl (Hinv & Hstack & Hseen).
    destruct (detect_root_spec g s k) as (s' & Hs' & Hinv' & Hstack' & Hext & Hk);
      [done|done| |].
    { rewrite Hl. apply elem_of_app. right. left. }
    exists s'. split_and!; [done..|].
    intros k' [?| ->%list_elem_of_singleton]%elem_of_app; [|done].
    eapply extends_dom; [done|auto].
Qed.

Lemma mutual_reach_key g x y : x ≠ y → reach g x y → x ∈ keys g.
Proof.
  intros Hne Hr. apply rtc_inv in Hr as [->|(z & He & _)]; [done|].
  by eapply edge_key.
Qed.

(** Two members of a list without duplicates that has more than one. *)
Lemma other_member (c : list string) (x : string) :
  1 < length c → NoDup c → x ∈ c → ∃ y, y ∈ c ∧ x ≠ y.
Proof.
  destruct c as [|a [|b c]]; simpl; [lia|lia|]. intros _ Hnd Hx.
  apply NoDup_cons in Hnd as [Hab _].
  destruct (decide (x = a)) as [->|].
  - exists b. split; [right; left|]. intros ->. apply Hab. left.
  - exists a. split; [left|done].
Qed.

Lemma cycle_of_mutual_reach g x y :
  x ≠ y → reach g x y → reach g y x → tc (edge g) x x.
Proof.
  intros Hne Hxy Hyx. apply rtc_tc in Hxy as [->|Hxy]; [done|].
  by eapply tc_rtc_r.
Qed.

(** What [detect_cycles] computes. *)
Lemma detect_cycles_correct g :
  ∃ cycles, detect_cycles g = Ok cycles ∧
    (∀ c, c ∈ cycles →
       1 < length c ∧ NoDup c ∧ ∀ x y, x ∈ c → y ∈ c → reach g x y) ∧
    (∀ x y, x ≠ y → reach g x y → reach g y x →
       ∃ c, c ∈ cycles ∧ x ∈ c ∧ y ∈ c).
Proof.
  destruct (detect_cycles_state_spec g) as (st & Hst & Hinv & Hstack & Hkeys).
  exists (result st). unfold detect_cycles. rewrite Hst. split_and!; [done| |].
  - apply (inv_sound _ _ Hinv).
  - intros x y Hne Hxy Hyx.
    assert (Hpopped : ∀ k, k ∈ keys g → popped st k).
    { intros k Hk. split; [auto|]. rewrite Hstack. by intros ?%elem_of_nil. }
    apply (inv_complete _ _ Hinv); [| |done..]; apply Hpopped.
    + by eapply mutual_reach_key.
    + by eapply (mutual_reach_key g y x).
Qed.

(** The members of a reported cycle are keys of the graph. *)
Lemma cycle_members_keys g cycles c x :
  detect_cycles g = Ok cycles → c ∈ cycles → x ∈ c → x ∈ keys g.
Proof.
  intros Hd Hc Hx. destruct (detect_cycles_correct g) as (cs & Hcs & Hsound & _).
  rewrite Hd in Hcs. injection Hcs as <-.
  destruct (Hsound c Hc) as (Hlen & Hnd & Hreach).
  destruct (other_member c x Hlen Hnd Hx) as (y & Hy & Hne).
  eapply mutual_reach_key; [done|]. by apply Hreach.
Qed.

(** C3 (the claim fails at this input): the graph [{A: {A}}] contains the
    directed cycle [A -> A], and [detect_cycles] returns the empty list: a
    component of one member is never reported (line 53). *)
Theorem self_loop_is_not_reported :
  edge self_loop "A" "A" ∧ tc (edge self_loop) "A" "A" ∧
  detect_cycles self_loop = Ok [].
Proof.
  assert (edge self_loop "A" "A") by (unfold edge; simpl; left).
  split_and!; [done|by apply tc_once|by vm_compute].
Qed.

(** C3 (amended): [detect_cycles] returns for every graph.  Every list it
    returns has more than one member, has no duplicates and its members
    reach one another; any two distinct nodes that reach one another are
    members of one returned list.  So the result is empty for an acyclic
    graph, and it is not empty for a graph with a directed cycle through
    two distinct nodes; a cycle through a single node (a self-loop) is not
    reported. *)
Theorem detect_cycles_spec (g : graph) :
  ∃ cycles, detect_cycles g = Ok cycles ∧
    (∀ c, c ∈ cycles →
       1 < length c ∧ NoDup c ∧ ∀ x y, x ∈ c → y ∈ c → reach g x y) ∧
    (∀ x y, x ≠ y → reach g x y → reach g y x →
       ∃ c, c ∈ cycles ∧ 1 < length c ∧ x ∈ c ∧ y ∈ c) ∧
    (acyclic g → cycles = []).
Proof.
  destruct (detect_cycles_correct g) as (cycles & Hd & Hsound & Hcomplete).
  exists cycles. split_and!; [done..| |].
  - intros x y Hne Hxy Hyx.
    destruct (Hcomplete x y Hne Hxy Hyx) as (c & Hc & Hx & Hy).
    exists c. split_and!; [done| |done..]. by apply Hsound.
  - intros Hacyclic. destruct cycles as [|c cycles]; [done|]. exfalso.
    destruct (Hsound c) as (Hlen & Hnd & Hreach); [left|].
    destruct c as [|x c]; [simpl in Hlen; lia|].
    destruct (other_member (x :: c) x Hlen Hnd) as (y & Hy & Hne); [left|].
    apply (Hacyclic x). eapply cycle_of_mutual_reach; [done|..];
      apply Hreach; try done; left.
Qed.

(** ** Breaking cycles *)

Lemma elem_of_concat_dict_set g k (s : pyset) v :
  v ∈ concat (dict_set g k s).*2 → v ∈ s ∨ v ∈ concat g.*2.
Proof.
  induction g as [|[k' s'] g IH]; csimpl.
  - rewrite app_nil_r. auto.
  - destruct (decide (k' = k)) as [->|]; csimpl; rewrite !elem_of_app.
    + tauto.
    + intros [?|?%IH]; tauto.
Qed.

Lemma edge_member g u v : edge g u v → v ∈ concat g.*2.
Proof.
  unfold edge, successors. intros Hv.
  destruct (dict_get g u) as [s|] eqn:Hs; [|by apply elem_of_nil in Hv].
  apply elem_of_concat. exists s. split; [|done].
  apply dict_get_Some in Hs. apply list_elem_of_fmap. by exists (u, s).
Qed.

Lemma closed_mentioned g x : closed g → x ∈ mentioned g → x ∈ keys g.
Proof.
  unfold closed. rewrite Forall_forall.
  intros Hc [?|?]%elem_of_app; [done|by apply Hc].
Qed.

Lemma closed_edge g u v : closed g → edge g u v → v ∈ keys g.
Proof. intros Hc He. by eapply closed_mentioned, edge_mentioned. Qed.

Lemma set_remove_Ok x (s : pyset) :
  x ∈ s → set_remove x s = Ok (filter (λ y, y ≠ x) s).
Proof. intros. unfold set_remove. by rewrite decide_True. Qed.

(** Lines 78-85 on one cycle whose members are keys: the keys stay, and no
    set gains a member. *)
Lemma break_cycle_spec (cycle : list string) (ng : graph) :
  (∀ x, x ∈ cycle → x ∈ keys ng) →
  ∃ ng', break_cycle cycle ng = Ok ng' ∧ keys ng' = keys ng ∧
    (∀ u v, edge ng' u v → edge ng u v) ∧
    (∀ v, v ∈ concat ng'.*2 → v ∈ concat ng.*2).
Proof.
  induction cycle as [|current [|next_node rest] IH]; intros Hkeys.
  - by exists ng.
  - by exists ng.
  - cbn [break_cycle].
    assert (Hcur : current ∈ keys ng) by (apply Hkeys; left).
    apply dict_get_is_Some in Hcur as [deps Hdeps].
    apply dict_item_Ok in Hdeps as Hitem. rewrite Hitem. simpl.
    destruct (decide (next_node ∈ deps)) as [Hin|Hout].
    + rewrite set_remove_Ok by done. simpl. eexists. split; [done|].
      split_and!.
      * rewrite keys_dict_set. apply decide_True, dict_get_is_Some.
        by exists deps.
      * intros u v. unfold edge. rewrite successors_dict_set.
        case_decide as Hu; [|done]. subst u.
        intros [_ Hv]%list_elem_of_filter. unfold successors.
        rewrite Hdeps. exact Hv.
      * intros v [[_ Hv]%list_elem_of_filter|Hv]%elem_of_concat_dict_set;
          [|done].
        apply (edge_member ng current). unfold edge, successors.
        rewrite Hdeps. exact Hv.
    + apply IH. intros x Hx. apply Hkeys. by right.
Qed.

(** [resolve_cycles] returns for every graph; the graph it returns has the
    keys of the graph given, in the same order, and no edge of its own. *)
Lemma resolve_cycles_spec g :
  ∃ g', resolve_cycles g = Ok g' ∧ keys g' = keys g ∧
    (∀ u v, edge g' u v → edge g u v) ∧
    (∀ v, v ∈ concat g'.*2 → v ∈ concat g.*2).
Proof.
  destruct (detect_cycles_correct g) as (cycles & Hd & _).
  unfold resolve_cycles. rewrite Hd. simpl.
  destruct (for_each_invariant
              (λ ng, keys ng = keys g ∧ (∀ u v, edge ng u v → edge g u v) ∧
                     (∀ v, v ∈ concat ng.*2 → v ∈ concat g.*2))
              break_cycle cycles g) as (g' & Hg' & HI); [done| |].
  - intros c ng Hc (Hk & He & Hm).
    destruct (break_cycle_spec c ng) as (ng' & Hng' & Hk' & He' & Hm').
    { intros x Hx. rewrite Hk. by eapply cycle_members_keys. }
    exists ng'. split_and!; [done|congruence|auto..].
  - destruct cycles; [by exists g|by exists g'].
Qed.

Lemma resolve_cycles_closed g g' :
  closed g → resolve_cycles g = Ok g' → closed g'.
Proof.
  intros Hc Hr. destruct (resolve_cycles_spec g) as (g'' & Hr' & Hk & _ & Hm).
  rewrite Hr in Hr'. injection Hr' as <-.
  unfold closed in *. rewrite Forall_forall in *. rewrite Hk. auto.
Qed.

(** [resolve_cycles] returns for every graph; it keeps the keys and their
    order, and it adds no edge: every edge of the graph returned is an edge
    of the graph given. *)
Theorem resolve_cycles_adds_no_edge (g : graph) :
  ∃ new_graph, resolve_cycles g = Ok new_graph ∧ keys new_graph = keys g ∧
    ∀ u v, edge new_graph u v → edge g u v.
Proof.
  destruct (resolve_cycles_spec g) as (g' & Hr & Hk & He & _). eauto.
Qed.

(** ** The traversal *)

Lemma precedes_app_l l k y x : precedes l y x → precedes (l ++ k) y x.
Proof.
  intros (i & j & Hi & Hj & Hij). exists i, j.
  split_and!; [by apply lookup_app_l_Some..|done].
Qed.

Lemma precedes_snoc l y x : y ∈ l → precedes (l ++ [x]) y x.
Proof.
  intros (i & Hi)%list_elem_of_lookup. exists i, (length l).
  split_and!.
  - by apply lookup_app_l_Some.
  - by rewrite list_lookup_middle.
  - by eapply lookup_lt_Some.
Qed.

Lemma dependency_first_snoc g l node :
  dependency_first g l → (∀ v, edge g node v → v ∈ l) →
  dependency_first g (l ++ [node]).
Proof.
  intros Hl Hnode u v [Hu| ->%list_elem_of_singleton]%elem_of_app He.
  - by apply precedes_app_l, Hl.
  - by apply precedes_snoc, Hnode.
Qed.

Lemma unvisited_le g st : unvisited g st ≤ length (mentioned g).
Proof.
  unfold unvisited. etrans; [|apply size_list_to_set_le].
  apply subseteq_size. set_solver.
Qed.

Lemma unvisited_fresh g st st' v :
  st.1 ⊆ st'.1 → v ∈ mentioned g → v ∉ st.1 → v ∈ st'.1 →
  unvisited g st' < unvisited g st.
Proof.
  intros Hsub Hv Hw Hv'. apply subset_size.
  assert (v ∈ (list_to_set (mentioned g) : gset string))
    by by apply elem_of_list_to_set.
  split; [set_solver|]. intros Hs. specialize (Hs v). set_solver.
Qed.

Lemma dfs_post_visited g st node :
  dfs_inv g st → node ∈ st.1 → dfs_post g st node st.
Proof.
  intros Hinv Hnode. split_and!; [done..| |done].
  exists []. split; [by rewrite app_nil_r|by intros x ?%elem_of_nil].
Qed.

(** The state in which the loop over the dependencies starts. *)
Lemma dependencies_inv_start g st node :
  dfs_inv g st → node ∈ mentioned g → node ∉ st.1 →
  dependencies_inv g st node [] ({[node]} ∪ st.1, st.2).
Proof.
  intros [Hnd Hfin Hm Ho] Hnode Hfresh. split_and!; simpl.
  - split; simpl; [done| | |done].
    + intros x ?%Hfin. set_solver.
    + intros x [->%elem_of_singleton|?]%elem_of_union; auto.
  - done.
  - exists []. split; [by rewrite app_nil_r|by intros x ?%elem_of_nil].
  - intros x [Hx Hx']. simpl in *.
    apply elem_of_union in Hx as [->%elem_of_singleton|Hx]; [by left|].
    right. by split.
  - by intros z ?%elem_of_nil.
Qed.

(** One dependency, given what the recursive call ensures. *)
Lemma dependencies_inv_step g st node seen s z s' :
  dependencies_inv g st node seen s → dfs_post g s z s' →
  dependencies_inv g st node (seen ++ [z]) s'.
Proof.
  intros (Hinv & Hsub & (new & Hnew & Hfresh) & Hact & Hseen)
         (Hinv' & Hz & Hsub' & (new' & Hnew' & Hfresh') & Hact').
  split_and!.
  - done.
  - set_solver.
  - exists (new ++ new'). split; [by rewrite Hnew', Hnew, app_assoc|].
    intros x [?|Hx]%elem_of_app; [auto|].
    intros ?. apply (Hfresh' x Hx). set_solver.
  - auto.
  - intros z' [?| ->%list_elem_of_singleton]%elem_of_app; [|done].
    apply Hsub'. auto.
Qed.

(** The state in which the call returns (line 122). *)
Lemma dependencies_inv_finish g st node s :
  dfs_inv g st → node ∉ st.1 →
  (∀ a, active st a → reach g a node) →
  dependencies_inv g st node (sorted (successors g node)) s →
  dfs_post g st node (s.1, s.2 ++ [node]).
Proof.
  intros Hinv0 Hfresh Hreach
         (Hinv & Hsub & (new & Hnew & Hnewfresh) & Hact & Hseen).
  assert (Hnode : node ∈ s.1) by set_solver.
  assert (Hnotin : node ∉ s.2).
  { rewrite Hnew. intros [Hn|Hn]%elem_of_app.
    - by apply Hfresh, (dfs_finished _ _ Hinv0).
    - apply (Hnewfresh node Hn). set_solver. }
  split_and!; simpl.
  - split; simpl.
    + apply NoDup_app. split_and!; [apply Hinv| |apply NoDup_singleton].
      by intros x Hx ->%list_elem_of_singleton.
    + intros x [?| ->%list_elem_of_singleton]%elem_of_app; [|done].
      by apply (dfs_finished _ _ Hinv).
    + apply (dfs_mentioned _ _ Hinv).
    + intros Hacyclic. apply dependency_first_snoc;
        [by apply (dfs_order _ _ Hinv)|].
      intros v He. destruct (decide (v ∈ s.2)) as [|Hv]; [done|]. exfalso.
      destruct (Hact v) as [->|Hv'].
      * split; [|done]. by apply Hseen, elem_of_sorted.
      * by apply (Hacyclic node), tc_once.
      * apply (Hacyclic node). eapply tc_rtc_r; [by apply tc_once|].
        by apply Hreach.
  - done.
  - set_solver.
  - exists (new ++ [node]). split; [by rewrite Hnew, app_assoc|].
    intros x [Hx| ->%list_elem_of_singleton]%elem_of_app; [|done].
    intros ?. apply (Hnewfresh x Hx). set_solver.
  - intros x [Hx Hx']. simpl in *.
    destruct (Hact x) as [->|?]; [|by destruct Hx'; set_solver|done].
    split; [done|]. intros ?. apply Hx', elem_of_app. by left.
Qed.

(** A call of [dfs], with fuel for the nodes not visited yet, returns and
    ensures [dfs_post]; the nodes whose calls are active reach [node]. *)
Lemma dfs_spec g fuel node st :
  dfs_inv g st → node ∈ mentioned g →
  (∀ a, active st a → reach g a node) →
  unvisited g st < fuel →
  ∃ st', dfs g fuel node st = Ok st' ∧ dfs_post g st node st'.
Proof.
  revert node st.
  induction fuel as [|fuel IH]; intros node st Hinv Hnode Hreach Hfuel; [lia|].
  simpl. destruct (decide (node ∈ st.1)) as [Hold|Hfresh].
  { exists st. split; [done|]. by apply dfs_post_visited. }
  destruct (for_each_prefix_invariant (dependencies_inv g st node)
              (dfs g fuel) (sorted (successors g node))
              ({[node]} ∪ st.1, st.2)) as (s & -> & HI).
  - by apply dependencies_inv_start.
  - intros pre z post s Hl HI.
    assert (Hedge : edge g node z).
    { unfold edge. apply elem_of_sorted. rewrite Hl.
      apply elem_of_app. right. left. }
    pose proof HI as (Hinv' & Hsub & _ & Hact & _).
    destruct (IH z s) as (s' & Hs' & Hpost); [done| | | |].
    + by eapply edge_mentioned.
    + intros a [->|Ha]%Hact; [by apply rtc_once|].
      eapply reach_trans; [by apply Hreach|by apply rtc_once].
    + assert (unvisited g s < unvisited g st); [|lia].
      apply (unvisited_fresh g st s node); [set_solver|done|done|set_solver].
    + exists s'. split; [done|]. by eapply dependencies_inv_step.
  - simpl. eexists. split; [done|]. by apply dependencies_inv_finish.
Qed.

(** *** The calls from the top level (lines 124-130) *)

Lemma roots_keys g x : x ∈ roots g → x ∈ keys g.
Proof.
  unfold roots. destruct (filter _ _) as [|r rs] eqn:E.
  - apply subseteq_take.
  - rewrite <- E. by intros [_ ?]%list_elem_of_filter.
Qed.

Lemma settled_start g : settled g (∅, []).
Proof.
  split; [split; simpl|]; try done.
  - apply NoDup_nil_2.
  - by intros x ?%elem_of_nil.
  - by intros _ u v ?%elem_of_nil.
Qed.

Lemma dfs_top g node s :
  settled g s → node ∈ keys g →
  ∃ s', dfs g (S (length (mentioned g))) node s = Ok s' ∧ settled g s' ∧
        s.1 ⊆ s'.1 ∧ node ∈ s'.1.
Proof.
  intros [Hinv Hset] Hnode.
  destruct (dfs_spec g (S (length (mentioned g))) node s)
    as (s' & Hs' & Hinv' & Hn & Hsub & _ & Hact);
    [done|by apply key_mentioned| | |].
  - intros a [Ha Ha']. by destruct Ha'; apply Hset.
  - pose proof (unvisited_le g s). lia.
  - exists s'. split_and!; [done| |done..]. split; [done|].
    intros x Hx. destruct (decide (x ∈ s'.2)) as [|Hx']; [done|].
    destruct (Hact x) as [Ha Ha']; [done|]. by destruct Ha'; apply Hset.
Qed.

Lemma sweep_top g node s :
  settled g s → node ∈ keys g →
  ∃ s', sweep g (S (length (mentioned g))) node s = Ok s' ∧ settled g s' ∧
        s.1 ⊆ s'.1 ∧ node ∈ s'.1.
Proof.
  intros Hs Hnode. unfold sweep.
  destruct (decide (node ∉ s.1)) as [|Hin]; [by apply dfs_top|].
  exists s. split_and!; [done..|]. by apply dec_stable.
Qed.

(** The members of a settled state are the visited nodes, which are keys in
    a closed graph. *)
Lemma settled_keys g s x : closed g → settled g s → x ∈ s.2 → x ∈ keys g.
Proof.
  intros Hc [Hinv _] Hx.
  by apply closed_mentioned, (dfs_mentioned _ _ Hinv), (dfs_finished _ _ Hinv).
Qed.

(** Lines 93-132 on the graph that [resolve_cycles] returned. *)
Lemma traverse_spec g :
  NoDup (keys g) → closed g →
  ∃ order, traverse g = Ok order ∧ order ≡ₚ keys g ∧
           (acyclic g → dependency_first g order).
Proof.
  intros Hnd Hc. unfold traverse.
  destruct (for_each_invariant (settled g)
              (dfs g (S (length (mentioned g)))) (sorted (roots g)) (∅, []))
    as (s & -> & Hs).
  { apply settled_start. }
  { intros x s0 Hx Hs0. apply elem_of_sorted, roots_keys in Hx.
    destruct (dfs_top g x s0) as (s' & ? & ? & _); eauto. }
  simpl. destruct (decide (length s.2 ≠ length g)) as [Hne|Heq].
  - destruct (for_each_prefix_invariant
                (λ seen s', settled g s' ∧ ∀ x, x ∈ seen → x ∈ s'.1)
                (sweep g (S (length (mentioned g)))) (sorted (keys g)) s)
      as (s' & -> & Hs' & Hall).
    { split; [done|by intros x ?%elem_of_nil]. }
    { intros pre x post s0 Hl [Hs0 Hseen].
      destruct (sweep_top g x s0) as (s' & Hsw & Hs' & Hsub & Hx); [done| |].
      { apply elem_of_sorted. rewrite Hl. apply elem_of_app. right. left. }
      exists s'. split_and!; [done..|].
      intros y [?| ->%list_elem_of_singleton]%elem_of_app; [|done].
      apply Hsub. auto. }
    simpl. exists s'.2. split_and!; [done| |apply Hs'].
    apply NoDup_Permutation; [apply Hs'|done|]. intros x. split.
    + by apply settled_keys.
    + intros Hx. apply Hs', Hall. by apply elem_of_sorted.
  - apply dec_stable in Heq. exists s.2. split_and!; [done| |apply Hs].
    apply submseteq_length_Permutation.
    + apply NoDup_submseteq; [apply Hs|]. intros x. by apply settled_keys.
    + unfold keys. rewrite length_fmap. lia.
Qed.

(** [dependency_first_dfs] on a closed graph: what [resolve_cycles] returns
    is traversed. *)
Lemma dependency_first_dfs_spec g :
  NoDup (keys g) → closed g →
  ∃ g' order, resolve_cycles g = Ok g' ∧ dependency_first_dfs g = Ok order ∧
    keys g' = keys g ∧ order ≡ₚ keys g ∧
    (acyclic g' → dependency_first g' order).
Proof.
  intros Hnd Hc.
  destruct (resolve_cycles_spec g) as (g' & Hr & Hk & _).
  destruct (traverse_spec g') as (order & Ht & Hp & Ho).
  { by rewrite Hk. }
  { by eapply resolve_cycles_closed. }
  exists g', order. unfold dependency_first_dfs. rewrite Hr. simpl.
  rewrite <- Hk. done.
Qed.

(** A graph whose edges all descend along a rank has no cycle. *)
Lemma acyclic_rank g (rank : string → nat) :
  (∀ u v, edge g u v → rank v < rank u) → acyclic g.
Proof.
  intros Hrank x Hx.
  assert (∀ a b, tc (edge g) a b → rank b < rank a) as Hlt.
  { induction 1 as [a b He|a b c He _ IH]; [auto|].
    specialize (Hrank _ _ He). lia. }
  specialize (Hlt _ _ Hx). lia.
Qed.





(** ** The graph builder feeds the traversal *)

Lemma for_each_preserves {A S : Type} (I : S → Prop) (body : A → S → res S)
    (l : list A) (s s' : S) :
  (∀ x s s', body x s = Ok s' → I s → I s') →
  I s → for_each body l s = Ok s' → I s'.
Proof.
  intros Hbody. revert s. induction l as [|x l IH]; intros s Hs; simpl.
  - by intros [= <-].
  - intros (s1 & Hs1 & Hl)%bind_Ok. eauto.
Qed.

Lemma add_component_NoDup (components : components_table)
    (entry : string * CodeComponent) (g g' : graph) :
  add_component components entry g = Ok g' →
  NoDup (keys g) → NoDup (keys g').
Proof.
  unfold add_component. intros Hadd Hnd.
  eapply (for_each_preserves (λ g, NoDup (keys g))); [| |exact Hadd].
  - intros dep g1 g2. unfold add_dependency_edge.
    destruct (decide (dep ∈ keys components)).
    + intros (deps & _ & [= <-])%bind_Ok. apply NoDup_keys_dict_set.
    + by intros [= <-].
  - destruct (decide (entry.1 ∉ keys g));
      [by apply NoDup_keys_dict_set|done].
Qed.

(** The graph built from a component table has unique keys, and every
    member of its sets is one of its keys. *)
Lemma build_graph_closed (components : components_table) (g : graph) :
  build_graph_from_components components = Ok g →
  NoDup (keys g) ∧ closed g.
Proof.
  intros Hb.
  assert (Hnd : NoDup (keys g)).
  { eapply (for_each_preserves (λ g, NoDup (keys g))); [| |exact Hb].
    - intros entry g1 g2. apply add_component_NoDup.
    - apply NoDup_nil_2. }
  split; [done|].
  destruct (build_graph_from_components_spec components) as (g0 & Hg0 & Hk & He).
  rewrite Hb in Hg0. injection Hg0 as <-.
  unfold closed. apply Forall_forall. intros v (s & Hs & Hv)%elem_of_concat.
  apply list_elem_of_fmap in Hs as ([k s'] & -> & Hks). simpl in Hv.
  apply Hk. apply (He k v). unfold edge, successors.
  by rewrite (dict_get_NoDup g k s' Hnd Hks).
Qed.

(** The order computed for the graph of a component table holds every id of
    the table, each once. *)
Theorem order_of_built_graph (components : components_table) :
  ∃ g order, build_graph_from_components components = Ok g ∧
    dependency_first_dfs g = Ok order ∧ NoDup order ∧
    ∀ x, x ∈ order ↔ x ∈ keys components.
Proof.
  destruct (build_graph_from_components_spec components) as (g & Hb & Hk & _).
  destruct (build_graph_closed components g Hb) as [Hnd Hc].
  destruct (dependency_first_dfs_spec g Hnd Hc)
    as (g' & order & _ & Hd & _ & Hp & _).
  exists g, order. split_and!; [done..| |].
  - by rewrite Hp.
  - intros x. by rewrite Hp, Hk.
Qed.

(** Outside the closed graphs the length test of line 127 can be met by ids
    that are not keys: here the sweep is skipped and [A], [B], [C] are
    missing from the result. *)
Example dangling_dependencies_hide_nodes :
  ¬ closed dangling_graph ∧
  dependency_first_dfs dangling_graph = Ok ["X"; "Y"; "Z"; "R"].
Proof.
  split; [|by vm_compute].
  apply (bool_decide_eq_false_1 (closed dangling_graph)). by vm_compute.
Qed.

(** ** The reported cycles are the strongly connected components *)










(** ** The edges that [resolve_cycles] removes *)

Lemma consecutive_cons (a : string) (c : list string) (u v : string) :
  consecutive (a :: c) u v ↔ (u = a ∧ head c = Some v) ∨ consecutive c u v.
Proof.
  split.
  - intros ([|a' l1] & l2 & Hc); simplify_eq/=; [by left|].
    right. by exists l1, l2.
  - intros [[-> Hv]|(l1 & l2 & ->)].
    + destruct c as [|v' c]; simplify_eq/=. by exists [], c.
    + by exists (a :: l1), l2.
Qed.

Lemma consecutive_short (c : list string) (u v : string) :
  length c ≤ 1 → ¬ consecutive c u v.
Proof.
  intros Hlen (l1 & l2 & ->). rewrite length_app in Hlen. simpl in Hlen. lia.
Qed.

Lemma edge_remove (ng : graph) (u v : string) (deps : pyset) (x y : string) :
  dict_get ng u = Some deps →
  edge (dict_set ng u (filter (λ z, z ≠ v) deps)) x y
  ↔ edge ng x y ∧ (x, y) ≠ (u, v).
Proof.
  intros Hdeps. unfold edge. rewrite successors_dict_set.
  destruct (decide (u = x)) as [<-|Hne].
  - unfold successors. rewrite Hdeps. simpl. rewrite list_elem_of_filter.
    split; [intros [? ?]; split; [done|congruence]|].
    intros [? Hne]. split; [|done]. intros ->. by apply Hne.
  - split; [|by intros [? _]]. intros ?. split; [done|congruence].
Qed.

Lemma break_cycle_first_edge (cycle : list string) (ng : graph) :
  (∀ x, x ∈ cycle → x ∈ keys ng) →
  ∃ ng', break_cycle cycle ng = Ok ng' ∧ keys ng' = keys ng ∧
    ((ng' = ng ∧ ∀ u v, consecutive cycle u v → ¬ edge ng u v) ∨
     (∃ l1 u v l2, cycle = l1 ++ u :: v :: l2 ∧ edge ng u v ∧
        (∀ a b, consecutive (l1 ++ [u]) a b → ¬ edge ng a b) ∧
        ∀ x y, edge ng' x y ↔ edge ng x y ∧ (x, y) ≠ (u, v))).
Proof.
  induction cycle as [|current [|next_node rest] IH]; intros Hkeys.
  - exists ng. split_and!; [done..|]. left. split; [done|].
    intros u v Hc%consecutive_short; [done|simpl; lia].
  - exists ng. split_and!; [done..|]. left. split; [done|].
    intros u v Hc%consecutive_short; [done|simpl; lia].
  - cbn [break_cycle].
    assert (Hcur : current ∈ keys ng) by (apply Hkeys; left).
    apply dict_get_is_Some in Hcur as [deps Hdeps].
    apply dict_item_Ok in Hdeps as Hitem. rewrite Hitem. simpl.
    destruct (decide (next_node ∈ deps)) as [Hin|Hout].
    + rewrite set_remove_Ok by done. simpl. eexists. split; [done|].
      split.
      { rewrite keys_dict_set. apply decide_True, dict_get_is_Some.
        by exists deps. }
      right. exists [], current, next_node, rest. split_and!.
      * done.
      * unfold edge, successors. rewrite Hdeps. exact Hin.
      * intros a b Hc%consecutive_short; [done|simpl; lia].
      * intros x y. by apply edge_remove.
    + destruct IH as (ng' & Hng' & Hk & Hcase).
      { intros x Hx. apply Hkeys. by right. }
      exists ng'. split_and!; [done..|].
      assert (Hfirst : ¬ edge ng current next_node).
      { unfold edge, successors. rewrite Hdeps. exact Hout. }
      destruct Hcase as [[-> Hnone]|(l1 & u & v & l2 & Hc & He & Hbefore & Hrest)].
      * left. split; [done|]. intros u v [[-> [= <-]]|?]%consecutive_cons; auto.
      * right. exists (current :: l1), u, v, l2. split_and!; [|done| |done].
        { simpl. by rewrite Hc. }
        intros a b [[-> Hb]|?]%consecutive_cons; [|auto].
        assert (b = next_node) as ->; [|done].
        destruct l1 as [|? l1]; simplify_eq/=; done.
Qed.

(** Lines 78-85 on one cycle whose members are keys: the first pair of
    consecutive members that is an edge loses its edge, and nothing else
    changes; when no pair is an edge the graph is left as it is. *)
Theorem break_cycle_removes_first_present_edge (cycle : list string)
    (ng : graph) :
  (∀ x, x ∈ cycle → x ∈ keys ng) →
  ∃ ng', break_cycle cycle ng = Ok ng' ∧ keys ng' = keys ng ∧
    ((ng' = ng ∧ ∀ u v, consecutive cycle u v → ¬ edge ng u v) ∨
     (∃ l1 u v l2, cycle = l1 ++ u :: v :: l2 ∧ edge ng u v ∧
        (∀ a b, consecutive (l1 ++ [u]) a b → ¬ edge ng a b) ∧
        ∀ x y, edge ng' x y ↔ edge ng x y ∧ (x, y) ≠ (u, v))).
Proof. apply break_cycle_first_edge. Qed.

Lemma break_cycle_removes_first_present_edge_witness :
  (∀ x, x ∈ ["B"; "A"] → x ∈ keys two_cycle) ∧
  ∃ ng', break_cycle ["B"; "A"] two_cycle = Ok ng' ∧
    keys ng' = keys two_cycle ∧
    ((ng' = two_cycle ∧
      ∀ u v, consecutive ["B"; "A"] u v → ¬ edge two_cycle u v) ∨
     (∃ l1 u v l2, ["B"; "A"] = l1 ++ u :: v :: l2 ∧ edge two_cycle u v ∧
        (∀ a b, consecutive (l1 ++ [u]) a b → ¬ edge two_cycle a b) ∧
        ∀ x y, edge ng' x y ↔ edge two_cycle x y ∧ (x, y) ≠ (u, v))).
Proof.
  assert (H : ∀ x, x ∈ ["B"; "A"] → x ∈ keys two_cycle).
  { intros x Hx. unfold two_cycle, keys. simpl. set_solver. }
  split; [exact H|].
  exact (break_cycle_removes_first_present_edge ["B"; "A"] two_cycle H).
Defined.


Lemma resolve_cycles_unchanged (g : graph) :
  acyclic g → resolve_cycles g = Ok g.
Proof.
  intros Ha. destruct (detect_cycles_correct g) as (cycles & Hd & Hsound & _).
  unfold resolve_cycles. rewrite Hd. simpl.
  destruct cycles as [|c cycles]; [done|]. exfalso.
  destruct (Hsound c) as (Hlen & Hnd & Hreach); [left|].
  destruct c as [|x c]; [simpl in Hlen; lia|].
  destruct (other_member (x :: c) x Hlen Hnd) as (y & Hy & Hne); [left|].
  apply (Ha x). eapply cycle_of_mutual_reach; [done|..];
    apply Hreach; try done; left.
Qed.

(** A graph without cycles is returned as it is. *)
Theorem resolve_cycles_acyclic (g : graph) :
  acyclic g → resolve_cycles g = Ok g.
Proof. apply resolve_cycles_unchanged. Qed.

Lemma two_cycle_resolved_acyclic : acyclic two_cycle_resolved.
Proof.
  apply (acyclic_rank _ (λ x, if decide (x = "A") then 1 else 0)).
  intros u v. unfold edge, successors, two_cycle_resolved. simpl.
  destruct (decide ("A" = u)) as [<-|]; simpl.
  - intros ->%list_elem_of_singleton. simpl. lia.
  - destruct (decide ("B" = u)); simpl; by intros ?%elem_of_nil.
Qed.

Lemma resolve_cycles_acyclic_witness :
  acyclic two_cycle_resolved ∧
  resolve_cycles two_cycle_resolved = Ok two_cycle_resolved.
Proof.
  split; [exact two_cycle_resolved_acyclic|].
  exact (resolve_cycles_acyclic two_cycle_resolved two_cycle_resolved_acyclic).
Defined.

(** ** The order on graphs with cycles *)

Lemma dependency_first_up_to_cycles_snoc g (l : list string) node :
  dependency_first_up_to_cycles g l →
  (∀ v, edge g node v → v ∈ l ∨ reach g v node) →
  dependency_first_up_to_cycles g (l ++ [node]).
Proof.
  intros Hl Hnode u v [Hu| ->%list_elem_of_singleton]%elem_of_app He.
  - destruct (Hl u v Hu He); [left; by apply precedes_app_l|by right].
  - destruct (Hnode v He); [left; by apply precedes_snoc|by right].
Qed.

Lemma dfs_up_to_cycles g fuel node (st : dfs_state) :
  dfs_inv g st → dependency_first_up_to_cycles g st.2 →
  node ∈ mentioned g →
  (∀ a, active st a → reach g a node) →
  unvisited g st < fuel →
  ∃ st', dfs g fuel node st = Ok st' ∧ dfs_post g st node st' ∧
         dependency_first_up_to_cycles g st'.2.
Proof.
  revert node st.
  induction fuel as [|fuel IH]; intros node st Hinv Hw Hnode Hreach Hfuel;
    [lia|].
  simpl. destruct (decide (node ∈ st.1)) as [Hold|Hfresh].
  { exists st. split_and!; [done|by apply dfs_post_visited|done]. }
  destruct (for_each_prefix_invariant
              (λ seen s, dependencies_inv g st node seen s ∧
                         dependency_first_up_to_cycles g s.2)
              (dfs g fuel) (sorted (successors g node))
              ({[node]} ∪ st.1, st.2)) as (s & -> & HI & Hws).
  - split; [by apply dependencies_inv_start|done].
  - intros pre z post s Hl [HI Hws].
    assert (Hedge : edge g node z).
    { unfold edge. apply elem_of_sorted. rewrite Hl.
      apply elem_of_app. right. left. }
    pose proof HI as (Hinv' & Hsub & _ & Hact & _).
    destruct (IH z s) as (s' & Hs' & Hpost & Hws'); [done|done| | | |].
    + by eapply edge_mentioned.
    + intros a [->|Ha]%Hact; [by apply rtc_once|].
      eapply reach_trans; [by apply Hreach|by apply rtc_once].
    + assert (unvisited g s < unvisited g st); [|lia].
      apply (unvisited_fresh g st s node); [set_solver|done|done|set_solver].
    + exists s'. split_and!; [done| |done]. by eapply dependencies_inv_step.
  - simpl. eexists. split_and!; [done|by apply dependencies_inv_finish|].
    simpl. apply dependency_first_up_to_cycles_snoc; [done|].
    destruct HI as (_ & _ & _ & Hact & Hseen).
    intros v He. destruct (decide (v ∈ s.2)) as [|Hv]; [by left|right].
    destruct (Hact v) as [->|Hv'].
    + split; [|done]. by apply Hseen, elem_of_sorted.
    + apply rtc_refl.
    + by apply Hreach.
Qed.

Lemma dfs_top_up_to_cycles g node (s : dfs_state) :
  settled g s → dependency_first_up_to_cycles g s.2 → node ∈ keys g →
  ∃ s', dfs g (S (length (mentioned g))) node s = Ok s' ∧ settled g s' ∧
        dependency_first_up_to_cycles g s'.2.
Proof.
  intros [Hinv Hset] Hw Hnode.
  destruct (dfs_up_to_cycles g (S (length (mentioned g))) node s)
    as (s' & Hs' & (Hinv' & Hn & Hsub & _ & Hact) & Hw');
    [done|done|by apply key_mentioned| | |].
  - intros a [Ha Ha']. by destruct Ha'; apply Hset.
  - pose proof (unvisited_le g s). lia.
  - exists s'. split_and!; [done| |done]. split; [done|].
    intros x Hx. destruct (decide (x ∈ s'.2)) as [|Hx']; [done|].
    destruct (Hact x) as [Ha Ha']; [done|]. by destruct Ha'; apply Hset.
Qed.

Lemma traverse_up_to_cycles g :
  ∃ order, traverse g = Ok order ∧ NoDup order ∧
           (∀ x, x ∈ order → x ∈ mentioned g) ∧
           dependency_first_up_to_cycles g order.
Proof.
  unfold traverse.
  destruct (for_each_invariant
              (λ s, settled g s ∧ dependency_first_up_to_cycles g s.2)
              (dfs g (S (length (mentioned g)))) (sorted (roots g)) (∅, []))
    as (s & -> & Hs & Hw).
  { split; [apply settled_start|]. by intros u v ?%elem_of_nil. }
  { intros x s0 Hx [Hs0 Hw0]. apply elem_of_sorted, roots_keys in Hx.
    destruct (dfs_top_up_to_cycles g x s0) as (s' & ? & ? & ?); eauto. }
  assert (Hfinal : ∀ s : dfs_state, settled g s →
            NoDup s.2 ∧ ∀ x, x ∈ s.2 → x ∈ mentioned g).
  { intros s0 [Hinv _]. split; [apply Hinv|]. intros x Hx.
    by apply (dfs_mentioned _ _ Hinv), (dfs_finished _ _ Hinv). }
  simpl. destruct (decide (length s.2 ≠ length g)) as [Hne|Heq].
  - destruct (for_each_invariant
                (λ s, settled g s ∧ dependency_first_up_to_cycles g s.2)
                (sweep g (S (length (mentioned g)))) (sorted (keys g)) s)
      as (s' & -> & Hs' & Hw'); [done| |].
    { intros x s0 Hx [Hs0 Hw0]. unfold sweep.
      apply (proj1 (elem_of_sorted _ _)) in Hx.
      destruct (decide (x ∉ s0.1)); [|by exists s0].
      destruct (dfs_top_up_to_cycles g x s0) as (s' & ? & ? & ?);
        [done..|]. by exists s'. }
    simpl. exists s'.2. destruct (Hfinal s' Hs'). by split_and!.
  - exists s.2. destruct (Hfinal s Hs). by split_and!.
Qed.

(** [dependency_first_dfs] returns for every graph, also when a dependency
    is not a key.  The list has no duplicates, and in the graph that
    [resolve_cycles] returned every dependency of a member stands before
    it, unless the dependency reaches the member, that is, unless the edge
    lies on a cycle that was not broken. *)
Theorem dependency_first_dfs_up_to_cycles (g : graph) :
  ∃ new_graph order,
    resolve_cycles g = Ok new_graph ∧ dependency_first_dfs g = Ok order ∧
    NoDup order ∧
    ∀ u v, u ∈ order → edge new_graph u v →
           precedes order v u ∨ reach new_graph v u.
Proof.
  destruct (resolve_cycles_spec g) as (g' & Hr & _).
  destruct (traverse_up_to_cycles g') as (order & Ht & Hnd & _ & Hw).
  exists g', order. unfold dependency_first_dfs. rewrite Hr. by split_and!.
Qed.

(** When the graph built from a component table has no cycle, the order puts
    every component after the components of the table it depends on. *)
Theorem order_respects_dependencies (components : components_table)
    (g : graph) :
  build_graph_from_components components = Ok g → acyclic g →
  ∃ order, dependency_first_dfs g = Ok order ∧
    order ≡ₚ keys g ∧
    ∀ u c v, (u, c) ∈ components → v ∈ depends_on c →
             v ∈ keys components → precedes order v u.
Proof.
  intros Hb Ha.
  destruct (build_graph_closed components g Hb) as [Hnd Hc].
  destruct (build_graph_from_components_spec components) as (g0 & Hg0 & Hk & He).
  rewrite Hb in Hg0. injection Hg0 as <-.
  destruct (dependency_first_dfs_spec g Hnd Hc)
    as (g' & order & Hr & Hd & _ & Hp & Ho).
  rewrite (resolve_cycles_unchanged g Ha) in Hr. injection Hr as <-.
  exists order. split_and!; [done..|].
  intros u c v Hu Hv Hvk. apply (Ho Ha).
  - rewrite Hp. apply Hk, elem_of_keys. eauto.
  - apply He. eauto.
Qed.

Lemma acyclic_rank_check g (rank : string → nat) :
  Forall (λ kv : string * pyset, Forall (λ v, rank v < rank kv.1) kv.2) g →
  acyclic g.
Proof.
  intros Hall. apply (acyclic_rank g rank). intros u v.
  unfold edge, successors. intros Hv.
  destruct (dict_get g u) as [s|] eqn:Hs; [|by apply elem_of_nil in Hv].
  apply dict_get_Some in Hs. rewrite Forall_forall in Hall.
  specialize (Hall _ Hs). rewrite Forall_forall in Hall. by apply Hall.
Qed.

Lemma scenario_graph_acyclic : acyclic scenario_graph.
Proof.
  apply (acyclic_rank_check _ (λ x, if decide (x = "mod.baz") then 0 else 1)).
  unfold scenario_graph. repeat constructor.
Qed.

Lemma order_respects_dependencies_witness :
  build_graph_from_components scenario_table = Ok scenario_graph ∧
  acyclic scenario_graph ∧
  ∃ order, dependency_first_dfs scenario_graph = Ok order ∧
    order ≡ₚ keys scenario_graph ∧
    ∀ u c v, (u, c) ∈ scenario_table → v ∈ depends_on c →
             v ∈ keys scenario_table → precedes order v u.
Proof.
  assert (Hb : build_graph_from_components scenario_table = Ok scenario_graph)
    by reflexivity.
  split; [exact Hb|]. split; [exact scenario_graph_acyclic|].
  exact (order_respects_dependencies scenario_table scenario_graph Hb
           scenario_graph_acyclic).
Defined.

(** ** The roots, and the order of iteration of the sets *)

Lemma foldl_insert_true (l : list string) (m : gmap string bool) (x : string) :
  default false (foldl (λ m dep, <[dep := true]> m) m l !! x) = true
  ↔ x ∈ l ∨ default false (m !! x) = true.
Proof.
  revert m. induction l as [|y l IH]; intros m; simpl.
  - rewrite elem_of_nil. tauto.
  - rewrite IH, elem_of_cons. destruct (decide (x = y)) as [->|Hne].
    + rewrite lookup_insert_eq. simpl. tauto.
    + rewrite lookup_insert_ne by done. naive_solver.
Qed.

Lemma foldl_insert_false (l : list string) (m : gmap string bool)
    (x : string) :
  default false (m !! x) = false →
  default false (foldl (λ m node, <[node := false]> m) m l !! x) = false.
Proof.
  revert m. induction l as [|y l IH]; intros m Hm; simpl; [done|].
  apply IH. destruct (decide (x = y)) as [->|Hne].
  - by rewrite lookup_insert_eq.
  - by rewrite lookup_insert_ne.
Qed.

(** [has_incoming_edge] after lines 96-100. *)
Lemma incoming_false g x :
  default false (incoming g !! x) = false ↔ x ∉ concat g.*2.
Proof.
  unfold incoming. split.
  - intros Hf Hx.
    assert (default false
              (foldl (λ m dep, <[dep := true]> m)
                 (foldl (λ m node, <[node := false]> m) ∅ (keys g))
                 (concat g.*2) !! x) = true) as Ht
      by (apply foldl_insert_true; by left).
    congruence.
  - intros Hx. apply not_true_is_false. intros [?|Ht]%foldl_insert_true;
      [done|].
    by rewrite foldl_insert_false in Ht.
Qed.

Lemma roots_filter (g : graph) :
  roots g = match filter (λ node, node ∉ concat g.*2) (keys g) with
            | [] => take 1 (keys g)
            | root_nodes => root_nodes
            end.
Proof.
  unfold roots.
  rewrite (list_filter_iff _ (λ node, node ∉ concat g.*2) (keys g)
             (incoming_false g)).
  by destruct (filter _ _).
Qed.

(** The traversal starts from the keys that no dependency set holds, in the
    order of the keys; when every key is a member of some set, it starts
    from the first key alone, and from nothing when the graph is empty. *)
Theorem roots_spec (g : graph) :
  roots g = match filter (λ node, node ∉ concat g.*2) (keys g) with
            | [] => take 1 (keys g)
            | root_nodes => root_nodes
            end.
Proof. apply roots_filter. Qed.

Lemma for_each_ext {A S : Type} (f f' : A → S → res S) (l : list A) (s : S) :
  (∀ x s, f x s = f' x s) → for_each f l s = for_each f' l s.
Proof.
  intros Hf. revert s. induction l as [|x l IH]; intros s; simpl; [done|].
  rewrite Hf. destruct (f' x s); simpl; auto.
Qed.

Lemma sorted_proper (l l' : list string) : l ≡ₚ l' → sorted l = sorted l'.
Proof.
  intros Hp. unfold sorted.
  apply (Sorted_unique String.le); [apply Sorted_merge_sort, _..|].
  by rewrite !merge_sort_Permutation.
Qed.

Lemma same_sets_keys g g' : same_sets g g' → keys g = keys g'.
Proof.
  unfold keys. induction 1 as [|[k s] [k' s'] g g' [Hk _] _ IH]; csimpl;
    [done|].
  simpl in Hk. by rewrite Hk, IH.
Qed.

Lemma same_sets_successors g g' x :
  same_sets g g' → successors g x ≡ₚ successors g' x.
Proof.
  unfold successors.
  induction 1 as [|[k s] [k' s'] g g' [Hk Hs] _ IH]; simpl in *; [done|].
  subst k'. by destruct (decide (k = x)).
Qed.

Lemma same_sets_members g g' : same_sets g g' → concat g.*2 ≡ₚ concat g'.*2.
Proof.
  induction 1 as [|[k s] [k' s'] g g' [_ Hs] _ IH]; csimpl; [done|].
  simpl in Hs. by rewrite Hs, IH.
Qed.

Lemma same_sets_edge g g' u v : same_sets g g' → edge g u v ↔ edge g' u v.
Proof. intros H. unfold edge. by rewrite (same_sets_successors g g' u H). Qed.

Lemma same_sets_roots g g' : same_sets g g' → roots g = roots g'.
Proof.
  intros H. rewrite !roots_filter, (same_sets_keys g g' H).
  rewrite (list_filter_iff _ (λ node, node ∉ concat g'.*2)); [done|].
  intros x. by rewrite (same_sets_members g g' H).
Qed.

Lemma same_sets_dfs g g' fuel node (st : dfs_state) :
  same_sets g g' → dfs g fuel node st = dfs g' fuel node st.
Proof.
  intros H. revert node st. induction fuel as [|fuel IH]; intros node st;
    simpl; [done|].
  rewrite (sorted_proper _ _ (same_sets_successors g g' node H)).
  by rewrite (for_each_ext (dfs g fuel) (dfs g' fuel)).
Qed.

Lemma same_sets_traverse g g' : same_sets g g' → traverse g = traverse g'.
Proof.
  intros H. unfold traverse.
  assert (Hm : length (mentioned g) = length (mentioned g')).
  { unfold mentioned. rewrite !length_app.
    by rewrite (same_sets_keys g g' H), (same_sets_members g g' H). }
  rewrite Hm, (same_sets_roots g g' H), (same_sets_keys g g' H).
  rewrite (Forall2_length _ _ _ H).
  set (fuel := S (length (mentioned g'))).
  rewrite (for_each_ext (dfs g fuel) (dfs g' fuel))
    by (intros; by apply same_sets_dfs).
  destruct (for_each _ _ _) as [st| |]; simpl; [|done..].
  destruct (decide (length st.2 ≠ length g')); [|done].
  rewrite (for_each_ext (sweep g fuel) (sweep g' fuel)); [done|].
  intros x s. unfold sweep. destruct (decide (x ∉ s.1)); [|done].
  by apply same_sets_dfs.
Qed.

Lemma same_sets_acyclic g g' : same_sets g g' → acyclic g → acyclic g'.
Proof.
  intros H Ha x Hx. apply (Ha x).
  eapply tc_congruence with (f := λ y : string, y); [|done].
  intros u v. by apply same_sets_edge.
Qed.

(** On a graph without cycles the result does not depend on the order in
    which the dependency sets are iterated. *)
Theorem dependency_first_dfs_set_order (g g' : graph) :
  same_sets g g' → acyclic g →
  dependency_first_dfs g = dependency_first_dfs g'.
Proof.
  intros H Ha. unfold dependency_first_dfs.
  rewrite (resolve_cycles_unchanged g Ha).
  rewrite (resolve_cycles_unchanged g' (same_sets_acyclic g g' H Ha)). simpl.
  by apply same_sets_traverse.
Qed.

Lemma dependency_first_dfs_set_order_witness :
  same_sets fork_graph fork_graph' ∧ acyclic fork_graph ∧
  dependency_first_dfs fork_graph = dependency_first_dfs fork_graph'.
Proof.
  assert (Hs : same_sets fork_graph fork_graph').
  { unfold same_sets, fork_graph, fork_graph'. repeat constructor. }
  assert (Ha : acyclic fork_graph).
  { apply (acyclic_rank_check _ (λ x, if decide (x = "A") then 1 else 0)).
    unfold fork_graph. repeat constructor. }
  split; [exact Hs|]. split; [exact Ha|].
  exact (dependency_first_dfs_set_order fork_graph fork_graph' Hs Ha).
Defined.

(** ** What [parse_repository] ensures of the table *)

Lemma Forall_dict_set {V : Type} (P : string * V → Prop) (d : dict V)
    (k : string) (v : V) :
  Forall P d → P (k, v) → Forall P (dict_set d k v).
Proof.
  intros Hd Hv. induction Hd as [|[k' v'] d Hx Hd IH]; simpl.
  - by repeat constructor.
  - destruct (decide (k' = k)); by constructor.
Qed.

Lemma for_each_preserves_in {A S : Type} (I : S → Prop) (body : A → S → res S)
    (l : list A) (s s' : S) :
  (∀ x s s', x ∈ l → body x s = Ok s' → I s → I s') →
  I s → for_each body l s = Ok s' → I s'.
Proof.
  revert s. induction l as [|x l IH]; intros s Hbody Hs; simpl.
  - by intros [= <-].
  - intros (s1 & Hs1 & Hl)%bind_Ok. apply (IH s1); [|by eapply Hbody; [left|..]|done].
    intros y s2 s3 Hy. apply Hbody. by right.
Qed.

Lemma keys_dict_set_present {V : Type} (d : dict V) (k : string) (v : V) :
  k ∈ keys d → keys (dict_set d k v) = keys d.
Proof. intros. rewrite keys_dict_set. by apply decide_True. Qed.

(** *** Extraction *)

Lemma collect_method_extracted files segment file rel source class_id
    class_node item (components : components_table) :
  (file, rel) ∈ files →
  Forall (extracted files) components ∧ NoDup (keys components) →
  Forall (extracted files)
         (collect_method segment file rel source class_id class_node item
                         components) ∧
  NoDup (keys (collect_method segment file rel source class_id class_node item
                              components)).
Proof.
  intros Hfile [Hall Hnd]. unfold collect_method.
  destruct (is_function_def item); [|done]. split.
  - apply Forall_dict_set; [done|]. split_and!; simpl; [done| |done..].
    set_solver.
  - by apply NoDup_keys_dict_set.
Qed.

Lemma collect_methods_extracted files segment file rel source class_id
    class_node (body : list stmt) (components : components_table) :
  (file, rel) ∈ files →
  Forall (extracted files) components ∧ NoDup (keys components) →
  Forall (extracted files)
         (foldl (λ cs item, collect_method segment file rel source class_id
                                           class_node item cs)
                components body) ∧
  NoDup (keys (foldl (λ cs item, collect_method segment file rel source
                                                class_id class_node item cs)
                     components body)).
Proof.
  intros Hfile. revert components.
  induction body as [|item body IH]; intros components Hinv; simpl; [done|].
  apply IH. by apply collect_method_extracted.
Qed.

Lemma collect_node_extracted files segment file rel module source entry
    (components components' : components_table) :
  (file, rel) ∈ files →
  collect_node segment file rel module source entry components
  = Ok components' →
  Forall (extracted files) components ∧ NoDup (keys components) →
  Forall (extracted files) components' ∧ NoDup (keys components').
Proof.
  intros Hfile. unfold collect_node.
  destruct entry as [n top]. cbn [fst snd].
  destruct n as [name args b l e|name args b l e|name bases b l e| | | | | |];
    try (by intros [= <-]).
  - destruct top; [|by intros [= <-]].
    intros (doc & _ & [= <-])%bind_Ok [Hall Hnd]. split.
    + apply Forall_dict_set; [done|]. split_and!; simpl; [done| |done..].
      set_solver.
    + by apply NoDup_keys_dict_set.
  - destruct top; [|by intros [= <-]].
    intros (doc & _ & [= <-])%bind_Ok [Hall Hnd]. split.
    + apply Forall_dict_set; [done|]. split_and!; simpl; [done| |done..].
      set_solver.
    + by apply NoDup_keys_dict_set.
  - intros [= <-] [Hall Hnd]. apply collect_methods_extracted; [done|].
    split; [|by apply NoDup_keys_dict_set].
    apply Forall_dict_set; [done|]. split_and!; simpl; [done| |done..].
    set_solver.
Qed.

Lemma parse_file_extracted files segment read file rel module
    (components components' : components_table) :
  (file, rel) ∈ files →
  parse_file segment read file rel module components = Ok components' →
  Forall (extracted files) components ∧ NoDup (keys components) →
  Forall (extracted files) components' ∧ NoDup (keys components').
Proof.
  intros Hfile. unfold parse_file.
  destruct (read file) as [[source tree]|e|]; [| |done].
  - unfold collect_components. intros Hc Hinv.
    eapply (for_each_preserves (λ t, Forall (extracted files) t ∧ NoDup (keys t)));
      [|exact Hinv|exact Hc].
    intros entry t t'. by apply collect_node_extracted.
  - destruct e; try done; by intros [= <-].
Qed.

Lemma parse_steps_extracted files segment read st :
  for_each (parse_step segment read) files ([], []) = Ok st →
  Forall (extracted files) st.2 ∧ NoDup (keys st.2).
Proof.
  intros Hst.
  eapply (for_each_preserves_in
            (λ st : pyset * components_table,
               Forall (extracted files) st.2 ∧ NoDup (keys st.2)));
    [| |exact Hst].
  - intros [file rel] s s' Hin. unfold parse_step. cbn [fst snd].
    intros (components & Hp & [= <-])%bind_Ok Hs. simpl.
    by eapply parse_file_extracted.
  - simpl. split; [constructor|apply NoDup_nil_2].
Qed.

Lemma parse_steps_modules segment read files st st' :
  for_each (parse_step segment read) files st = Ok st' →
  ∀ m, m ∈ st'.1 ↔ m ∈ st.1 ∨ m ∈ modules_of files.
Proof.
  unfold modules_of. revert st.
  induction files as [|[file rel] files IH]; intros st; simpl.
  - intros [= <-] m. rewrite elem_of_nil. tauto.
  - intros (s1 & Hs1 & Hrest)%bind_Ok m. rewrite (IH _ Hrest).
    unfold parse_step in Hs1. cbn [fst snd] in Hs1.
    apply bind_Ok in Hs1 as (components & _ & [= <-]). simpl.
    rewrite elem_of_set_add. csimpl. rewrite elem_of_cons. tauto.
Qed.

(** *** Resolution *)

Lemma resolve_component_resolved files builtins read modules ids component_id
    (st st' : resolve_state) :
  resolve_component builtins read modules component_id st = Ok st' →
  keys st.1 = ids ∧ Forall (resolved files ids modules) st.1 →
  keys st'.1 = ids ∧ Forall (resolved files ids modules) st'.1.
Proof.
  unfold resolve_component.
  intros (component & Hitem%dict_item_Ok & Hrest)%bind_Ok [Hk Hall].
  destruct (read (file_path component)) as [[source tree]|e|]; [| |done].
  - destruct (collect_imports tree) as [imports from_imports].
    apply bind_Ok in Hrest as (found & _ & Hrest).
    destruct found as [component_node|]; [|done].
    injection Hrest as <-. simpl.
    assert (Hin : (component_id, component) ∈ st.1) by by apply dict_get_Some.
    pose proof (proj1 (Forall_forall _ _) Hall _ Hin)
      as (Hid & Hty & Hfile & _).
    split.
    + rewrite keys_dict_set_present; [done|].
      apply dict_get_is_Some. by eexists.
    + apply Forall_dict_set; [done|]. split_and!; simpl; [done..|].
      intros d [Hd _]%list_elem_of_filter. by rewrite <- Hk.
  - destruct e; try done; by injection Hrest as <-.
Qed.

Lemma resolve_dependencies_resolved files builtins read modules
    (components components' : components_table) :
  resolve_dependencies builtins read modules components = Ok components' →
  Forall (extracted files) components →
  keys components' = keys components ∧
  Forall (resolved files (keys components) modules) components'.
Proof.
  unfold resolve_dependencies.
  intros (st & Hst & [= <-])%bind_Ok Hall.
  eapply (for_each_preserves
            (λ st : resolve_state,
               keys st.1 = keys components ∧
               Forall (resolved files (keys components) modules) st.1));
    [| |exact Hst].
  - intros component_id s s'. apply resolve_component_resolved.
  - simpl. split; [done|]. eapply Forall_impl; [exact Hall|].
    intros [k c] (Hid & Hty & Hfile & Hdeps). split_and!; [done..|].
    simpl in *. rewrite Hdeps. by intros d ?%elem_of_nil.
Qed.

(** *** Attachment *)

Lemma attach_methods_keys (components : components_table)
    (cm : dict (list string)) :
  keys (foldl attach_methods components cm) = keys components.
Proof.
  revert components. induction cm as [|[cid mids] cm IH]; intros components;
    simpl; [done|].
  rewrite IH. unfold attach_methods. cbn [fst snd].
  destruct (dict_get components cid) eqn:Hc; [|done].
  apply keys_dict_set_present, dict_get_is_Some. by eexists.
Qed.

(** The table that [parse_repository] returns has one entry for each id;
    the entry registered under an id carries that id, is a class, a
    function or a method, and lies in one of the files given; and each of
    its dependencies is an id of the table or starts with the name of a
    module of the repository. *)
Theorem parse_repository_table (builtins : list string)
    (segment : string → stmt → option string)
    (read : string → res (string * list stmt))
    (files : list (string * string)) (table : components_table) :
  parse_repository builtins segment read files = Ok table →
  NoDup (keys table) ∧
  ∀ k c, dict_get table k = Some c →
    id c = k ∧
    component_type c ∈ ["class"; "function"; "method"] ∧
    (file_path c, relative_path c) ∈ files ∧
    ∀ d, d ∈ depends_on c →
         d ∈ keys table ∨ first_part d ∈ modules_of files.
Proof.
  unfold parse_repository.
  intros (st & Hst & (components & Hres & [= <-])%bind_Ok)%bind_Ok.
  destruct (parse_steps_extracted files segment read st Hst) as [Hall Hnd].
  destruct (resolve_dependencies_resolved files _ _ _ _ _ Hres Hall)
    as [Hk Hres'].
  assert (Hkeys : keys (add_class_method_dependencies components)
                  = keys components) by apply attach_methods_keys.
  rewrite Hkeys. split; [by rewrite Hk|].
  intros k c' Hc'.
  assert (k ∈ keys components) as [c Hc]%dict_get_is_Some.
  { rewrite <- Hkeys. apply dict_get_is_Some. by eexists. }
  destruct (add_class_method_dependencies_spec components k c Hc)
    as (c'' & Hc'' & Heq & Hdeps).
  rewrite Hc' in Hc''. injection Hc'' as <-.
  pose proof (proj1 (Forall_forall _ _) Hres' _ (dict_get_Some _ _ _ Hc))
    as (Hid & Hty & Hfile & Hd).
  simpl in *. rewrite Heq. simpl. split_and!; [done..|].
  intros d [Hdc|(m & Hm & _)]%Hdeps.
  - destruct (Hd d Hdc) as [?|Hmod]; [left; by rewrite Hk|right].
    apply (parse_steps_modules _ _ _ _ _ Hst) in Hmod as [Hnil|?]; [|done].
    by apply elem_of_nil in Hnil.
  - left. apply elem_of_keys. eauto.
Qed.

Lemma parse_repository_table_witness :
  parse_repository [] (λ _ _, None) two_method_repository
                   [("/r/mod.py", "mod.py")] = Ok two_method_table ∧
  NoDup (keys two_method_table) ∧
  ∀ k c, dict_get two_method_table k = Some c →
    id c = k ∧
    component_type c ∈ ["class"; "function"; "method"] ∧
    (file_path c, relative_path c) ∈ [("/r/mod.py", "mod.py")] ∧
    ∀ d, d ∈ depends_on c →
         d ∈ keys two_method_table ∨
         first_part d ∈ modules_of [("/r/mod.py", "mod.py")].
Proof.
  assert (H : parse_repository [] (λ _ _, None) two_method_repository
                [("/r/mod.py", "mod.py")] = Ok two_method_table)
    by (vm_compute; reflexivity).
  split; [exact H|].
  exact (parse_repository_table [] (λ _ _, None) two_method_repository
           [("/r/mod.py", "mod.py")] two_method_table H).
Defined.

(** ** What [_collect_components] extracts *)

(** *** The walk *)

Lemma sum_list_append (l1 l2 : list nat) :
  sum_list (l1 ++ l2) = sum_list l1 + sum_list l2.
Proof. induction l1 as [|x l1 IH]; simpl; [done|]. rewrite IH. lia. Qed.

Lemma stmt_size_children (s : stmt) :
  stmt_size s = S (sum_list (stmt_size <$> child_stmts s)).
Proof.
  assert (Hsizes : ∀ l : list stmt,
    (fix sizes (l : list stmt) : nat :=
       match l with
       | [] => 0
       | x :: l' => stmt_size x + sizes l'
       end) l = sum_list (stmt_size <$> l)).
  { induction l as [|x l IH]; csimpl; [done|]. by rewrite IH. }
  destruct s; simpl; rewrite ?Hsizes; try done.
  by rewrite fmap_app, sum_list_append.
Qed.

Lemma stmt_size_pos (s : stmt) : 0 < stmt_size s.
Proof. rewrite stmt_size_children. lia. Qed.

Lemma length_le_sizes (l : list stmt) : length l ≤ sum_list (stmt_size <$> l).
Proof.
  induction l as [|x l IH]; csimpl; [done|].
  pose proof (stmt_size_pos x). lia.
Qed.

Lemma fst_flagged (b : bool) (l : list stmt) :
  ((λ c : stmt, (c, b)) <$> l).*1 = l.
Proof. induction l as [|x l IH]; csimpl; [done|by rewrite IH]. Qed.

Lemma within_mono (tree tree' : list stmt) (n : stmt) :
  (∀ s, s ∈ tree → within tree' s) → within tree n → within tree' n.
Proof.
  intros Hsub. induction 1 as [s Hs|p s _ IH Hs]; [auto|].
  by eapply within_child.
Qed.

(** A node of the walk lies within the nodes the walk started from, and it
    is flagged as a child of the module only if it was given so. *)
Lemma walk_sound (fuel : nat) (todo : list (stmt * bool)) (n : stmt)
    (top : bool) :
  (n, top) ∈ walk fuel todo →
  within todo.*1 n ∧ (top = true → (n, true) ∈ todo).
Proof.
  revert todo. induction fuel as [|fuel IH]; intros todo; simpl;
    [by intros ?%elem_of_nil|].
  destruct todo as [|[node t] todo]; [by intros ?%elem_of_nil|].
  intros [[= -> ->]|Hin]%elem_of_cons.
  - split; [apply within_top; left|]. intros ->. left.
  - apply IH in Hin as [Hw Htop]. split.
    + eapply within_mono; [|exact Hw]. intros s. rewrite fmap_app, elem_of_app.
      intros [Hs|Hs].
      * apply within_top. by right.
      * apply (within_child _ node); [apply within_top; left|].
        by rewrite fst_flagged in Hs.
    + intros ->. specialize (Htop eq_refl).
      apply elem_of_app in Htop as [?|Hch]; [by right|].
      apply list_elem_of_fmap in Hch as (c & [=] & _).
Qed.

(** With fuel for every statement, the walk holds the nodes it started from
    and, with a node, its children. *)
Lemma walk_complete (fuel : nat) (todo : list (stmt * bool)) :
  sum_list (stmt_size <$> todo.*1) ≤ fuel →
  (∀ e, e ∈ todo → e ∈ walk fuel todo) ∧
  (∀ n t c, (n, t) ∈ walk fuel todo → c ∈ child_stmts n →
            (c, false) ∈ walk fuel todo).
Proof.
  revert todo. induction fuel as [|fuel IH]; intros todo Hsize.
  - destruct todo as [|[n t] todo].
    + split; [by intros e ?%elem_of_nil|by intros n t c ?%elem_of_nil].
    + csimpl in Hsize. pose proof (stmt_size_pos n). lia.
  - destruct todo as [|[n t] todo]; simpl.
    + split; [by intros e ?%elem_of_nil|by intros n t c ?%elem_of_nil].
    + destruct (IH (todo ++ ((λ c, (c, false)) <$> child_stmts n)))
        as [Hall Hclosed].
      { csimpl in Hsize. rewrite stmt_size_children in Hsize.
        rewrite fmap_app, fst_flagged, fmap_app, sum_list_append. lia. }
      split.
      * intros e [->|He]%elem_of_cons; [left|right].
        apply Hall, elem_of_app. by left.
      * intros n' t' c [[= -> ->]|Hin]%elem_of_cons Hc; right.
        -- apply Hall, elem_of_app. right. apply list_elem_of_fmap. eauto.
        -- by eapply Hclosed.
Qed.

Lemma walk_module_top (tree : list stmt) (n : stmt) :
  (n, true) ∈ walk_module tree ↔ n ∈ tree.
Proof.
  unfold walk_module. split.
  - intros [_ Htop]%walk_sound.
    apply list_elem_of_fmap in Htop as (c & [= ->] & Hc); done.
  - intros Hn. apply walk_complete.
    + by rewrite fst_flagged.
    + apply list_elem_of_fmap. eauto.
Qed.

Lemma walk_module_within (tree : list stmt) (n : stmt) :
  (∃ top, (n, top) ∈ walk_module tree) ↔ within tree n.
Proof.
  assert (Hfst : ((λ c : stmt, (c, true)) <$> tree).*1 = tree)
    by apply fst_flagged.
  assert (Hsize : sum_list (stmt_size <$> ((λ c : stmt, (c, true)) <$> tree).*1)
                  ≤ sum_list (stmt_size <$> tree)) by by rewrite Hfst.
  destruct (walk_complete _ _ Hsize) as [Hall Hclosed].
  unfold walk_module. split.
  - intros [top [Hw _]%walk_sound]. by rewrite Hfst in Hw.
  - induction 1 as [s Hs|p s _ [top IH] Hs].
    + exists true. apply Hall, list_elem_of_fmap. eauto.
    + exists false. by eapply Hclosed.
Qed.

(** *** The outcome *)

Lemma collect_node_outcome segment file rel module source (n : stmt)
    (top : bool) (components : components_table) :
  (documented_def n ∧ top = true →
   collect_node segment file rel module source (n, top) components
   = Raise AttributeError) ∧
  (¬ (documented_def n ∧ top = true) →
   ∃ table, collect_node segment file rel module source (n, top) components
            = Ok table).
Proof.
  unfold documented_def, collect_node. cbn [fst snd].
  destruct n as [name args b l e|name args b l e|name bases b l e| | | | | |];
    simpl; try (split; [by intros [[[] _] _]|by eauto]).
  - destruct top; [|split; [by intros [_ [=]]|by eauto]].
    destruct (starts_with_string b); simpl; split; try done; try eauto.
    + intros []. by split.
    + by intros [[_ []] _].
  - destruct top; [|split; [by intros [_ [=]]|by eauto]].
    destruct (starts_with_string b); simpl; split; try done; try eauto.
    + intros []. by split.
    + by intros [[_ []] _].
Qed.

Lemma for_each_collect_node_outcome segment file rel module source
    (l : list (stmt * bool)) (components : components_table) :
  (Exists (λ e, documented_def e.1 ∧ e.2 = true) l →
   for_each (collect_node segment file rel module source) l components
   = Raise AttributeError) ∧
  (¬ Exists (λ e, documented_def e.1 ∧ e.2 = true) l →
   ∃ table,
     for_each (collect_node segment file rel module source) l components
     = Ok table).
Proof.
  revert components. induction l as [|[n top] l IH]; intros components; simpl.
  - split; [by intros ?%Exists_nil|by eauto].
  - destruct (collect_node_outcome segment file rel module source n top
                components) as [Hraise Hok].
    destruct (decide (documented_def n ∧ top = true)) as [Hdoc|Hdoc].
    + rewrite (Hraise Hdoc). simpl. split; [done|].
      intros Hno. destruct Hno. by left.
    + destruct (Hok Hdoc) as (table & ->). simpl.
      destruct (IH table) as [IHraise IHok]. split.
      * intros [?|?]%Exists_cons; [done|auto].
      * intros Hno. apply IHok. intros ?. apply Hno. by right.
Qed.

(** [_collect_components] raises [AttributeError] exactly when the body of
    some function that is a child of the module starts with a bare string
    literal (line 324); otherwise it returns. *)
Theorem collect_components_outcome (segment : string → stmt → option string)
    (file rel module source : string) (tree : list stmt)
    (components : components_table) :
  (Exists documented_def tree →
   collect_components segment file rel module source tree components
   = Raise AttributeError) ∧
  (¬ Exists documented_def tree →
   ∃ table, collect_components segment file rel module source tree components
            = Ok table).
Proof.
  unfold collect_components.
  destruct (for_each_collect_node_outcome segment file rel module source
              (walk_module tree) components) as [Hraise Hok].
  assert (Hiff : Exists (λ e : stmt * bool, documented_def e.1 ∧ e.2 = true)
                        (walk_module tree)
                 ↔ Exists documented_def tree).
  { rewrite !Exists_exists. split.
    - intros ([n top] & Hin & Hdoc & Htop). simpl in *. subst top.
      exists n. split; [by apply walk_module_top|done].
    - intros (n & Hin & Hdoc). exists (n, true).
      split; [by apply walk_module_top|done]. }
  split; intros H; [apply Hraise|apply Hok]; by rewrite Hiff.
Qed.

(** *** The ids *)

Lemma collect_methods_keys segment file rel source class_id class_node
    (body : list stmt) (components : components_table) (k : string) :
  k ∈ keys (foldl (λ cs item, collect_method segment file rel source class_id
                                 class_node item cs) components body)
  ↔ k ∈ keys components ∨
    ∃ item, item ∈ body ∧ is_function_def item ∧
            k = class_id +:+ "." +:+ stmt_name item.
Proof.
  revert components. induction body as [|item body IH]; intros components;
    simpl.
  - split; [auto|]. intros [?|(item & ?%elem_of_nil & _)]; done.
  - rewrite IH. unfold collect_method.
    destruct (is_function_def item) eqn:Hf.
    + rewrite elem_of_keys_dict_set. split.
      * intros [[->|?]|(i & ? & ? & ?)]; [right|by left|right].
        -- exists item. split_and!; [left|by rewrite Hf|done].
        -- exists i. split_and!; [by right|done..].
      * intros [?|(i & [->|?]%elem_of_cons & ? & ?)]; [tauto|tauto|].
        right. by exists i.
    + split.
      * intros [?|(i & ? & ? & ?)]; [by left|right].
        exists i. split_and!; [by right|done..].
      * intros [?|(i & [->|?]%elem_of_cons & Hi & ?)]; [tauto| |].
        -- by rewrite Hf in Hi.
        -- right. by exists i.
Qed.

Lemma collect_node_keys segment file rel module source (n : stmt) (top : bool)
    (components table : components_table) (k : string) :
  collect_node segment file rel module source (n, top) components = Ok table →
  k ∈ keys table ↔ k ∈ keys components ∨ registers module n top k.
Proof.
  unfold collect_node, registers. cbn [fst snd].
  destruct n as [name args b l e|name args b l e|name bases b l e| | | | | |];
    simpl; try (intros [= <-]; split; [by left|];
                by intros [?|[[[] _]|[[] _]]]).
  - destruct top.
    + intros (doc & _ & [= <-])%bind_Ok. rewrite elem_of_keys_dict_set.
      split; [intros [->|?]; [right; left|left]; done|].
      intros [?|[(_ & _ & ->)|[[] _]]]; auto.
    + intros [= <-]. split; [by left|].
      by intros [?|[(_ & [=] & _)|[[] _]]].
  - destruct top.
    + intros (doc & _ & [= <-])%bind_Ok. rewrite elem_of_keys_dict_set.
      split; [intros [->|?]; [right; left|left]; done|].
      intros [?|[(_ & _ & ->)|[[] _]]]; auto.
    + intros [= <-]. split; [by left|].
      by intros [?|[(_ & [=] & _)|[[] _]]].
  - intros [= <-]. rewrite collect_methods_keys, elem_of_keys_dict_set.
    split.
    + intros [[->|?]|?]; [right; right; split; [done|by left]|by left|].
      right. right. split; [done|by right].
    + intros [?|[[[] _]|[_ [->|?]]]]; tauto.
Qed.

Lemma for_each_collect_node_keys segment file rel module source
    (l : list (stmt * bool)) (components table : components_table)
    (k : string) :
  for_each (collect_node segment file rel module source) l components
  = Ok table →
  k ∈ keys table ↔
  k ∈ keys components ∨ ∃ n top, (n, top) ∈ l ∧ registers module n top k.
Proof.
  revert components. induction l as [|[n top] l IH]; intros components; simpl.
  - intros [= <-]. split; [by left|].
    intros [?|(n & top & ?%elem_of_nil & _)]; done.
  - intros (t1 & Ht1 & Hrest)%bind_Ok. rewrite (IH _ Hrest).
    rewrite (collect_node_keys _ _ _ _ _ _ _ _ _ _ Ht1). split.
    + intros [[?|?]|(n' & top' & ? & ?)]; [by left|right..].
      * exists n, top. split; [left|done].
      * exists n', top'. split; [by right|done].
    + intros [?|(n' & top' & [[= -> ->]|?]%elem_of_cons & ?)]; [tauto|tauto|].
      right. by exists n', top'.
Qed.

(** When [_collect_components] returns, the ids of the table are the ids it
    was given and an id for each function that is a child of the module,
    for each class at any depth of the tree, and for each function that is a
    child of such a class; a function nested elsewhere gets no id. *)
Theorem collect_components_ids (segment : string → stmt → option string)
    (file rel module source : string) (tree : list stmt)
    (components table : components_table) (k : string) :
  collect_components segment file rel module source tree components
  = Ok table →
  k ∈ keys table ↔
  k ∈ keys components ∨
  (∃ f, f ∈ tree ∧ is_function_def f ∧ k = module +:+ "." +:+ stmt_name f) ∨
  (∃ c, within tree c ∧ is_class_def c ∧
     (k = module +:+ "." +:+ stmt_name c ∨
      ∃ item, item ∈ stmt_body c ∧ is_function_def item ∧
              k = (module +:+ "." +:+ stmt_name c) +:+ "."
                  +:+ stmt_name item)).
Proof.
  unfold collect_components. intros Hc.
  rewrite (for_each_collect_node_keys _ _ _ _ _ _ _ _ _ Hc). unfold registers.
  split.
  - intros [?|(n & top & Hin & [(Hf & -> & ->)|(Hcl & Hk)])]; [by left|right..].
    + left. exists n. split_and!; [by apply walk_module_top|done..].
    + right. exists n. split_and!; [|done..].
      apply walk_module_within. by exists top.
  - intros [?|[(f & Hin & Hf & ->)|(c & Hin & Hcl & Hk)]]; [by left|right..].
    + exists f, true. split; [by apply walk_module_top|]. left. by split_and!.
    + apply walk_module_within in Hin as [top Hin].
      exists c, top. split; [done|]. right. by split.
Qed.

Lemma collect_components_ids_witness :
  ∃ table,
    collect_components (λ _ _, None) "/r/mod.py" "mod.py" "mod" ""
                       documented_class [] = Ok table ∧
    ("mod.Foo.bar" ∈ keys table ↔
     "mod.Foo.bar" ∈ keys ([] : components_table) ∨
     (∃ f, f ∈ documented_class ∧ is_function_def f ∧
           "mod.Foo.bar" = "mod" +:+ "." +:+ stmt_name f) ∨
     (∃ c, within documented_class c ∧ is_class_def c ∧
        ("mod.Foo.bar" = "mod" +:+ "." +:+ stmt_name c ∨
         ∃ item, item ∈ stmt_body c ∧ is_function_def item ∧
                 "mod.Foo.bar" = ("mod" +:+ "." +:+ stmt_name c) +:+ "."
                                 +:+ stmt_name item))).
Proof.
  eexists. split; [reflexivity|].
  exact (collect_components_ids (λ _ _, None) "/r/mod.py" "mod.py" "mod" ""
           documented_class [] _ "mod.Foo.bar" eq_refl).
Defined.

(** ** The dependency collector *)

Lemma expr_induction (P : expr → Prop) :
  (∀ v, P (Constant v)) →
  (∀ i ctx, P (Name i ctx)) →
  (∀ v a, P v → P (Attribute v a)) →
  (∀ f args, P f → Forall P args → P (Call f args)) →
  ∀ e, P e.
Proof.
  intros HConstant HName HAttribute HCall. fix IH 1.
  intros [v|i ctx|v a|f args].
  - apply HConstant.
  - apply HName.
  - apply HAttribute, IH.
  - apply HCall; [apply IH|].
    revert args. fix IHargs 1. intros [|x args]; constructor;
      [apply IH|apply IHargs].
Qed.

Lemma stmt_induction (P : stmt → Prop) :
  (∀ name args b l e, Forall P b → P (FunctionDef name args b l e)) →
  (∀ name args b l e, Forall P b → P (AsyncFunctionDef name args b l e)) →
  (∀ name bases b l e, Forall P b → P (ClassDef name bases b l e)) →
  (∀ targets value, P (Assign targets value)) →
  (∀ value, P (Expr value)) →
  (∀ names, P (Import names)) →
  (∀ module names, P (ImportFrom module names)) →
  (∀ test b o, Forall P b → Forall P o → P (If test b o)) →
  P Pass →
  ∀ s, P s.
Proof.
  intros HF HA HC HAssign HExpr HImport HFrom HIf HPass. fix IH 1.
  assert (Hall : ∀ l, Forall P l).
  { fix IHl 1. intros [|x l]; constructor; [apply IH|apply IHl]. }
  intros [name args b l e|name args b l e|name bases b l e|targets value
          |value|names|module names|test b o|].
  - apply HF, Hall.
  - apply HA, Hall.
  - apply HC, Hall.
  - apply HAssign.
  - apply HExpr.
  - apply HImport.
  - apply HFrom.
  - apply HIf; apply Hall.
  - apply HPass.
Qed.

Section CollectorProofs.

Variable builtins : list string.
Variable imports : pyset.
Variable from_imports : dict (list string).
Variable current_module : string.
Variable repo_modules : pyset.

Local Abbreviation origin :=
  (dependency_origin builtins imports from_imports current_module
                     repo_modules).
Local Abbreviation step := (collector_step origin).
Local Abbreviation visit_stmt' :=
  (visit_stmt builtins imports from_imports current_module repo_modules).
Local Abbreviation visit_expr' :=
  (visit_expr builtins imports from_imports current_module repo_modules).

Lemma importing_module_Some (name : string) (fi : dict (list string))
    (module : string) :
  importing_module repo_modules name fi = Some module →
  ∃ names, (module, names) ∈ fi ∧ name ∈ names ∧ module ∈ repo_modules ∧
           module ∉ STANDARD_MODULES.
Proof.
  induction fi as [|[m names] fi IH]; simpl; [done|].
  destruct (decide (m ∈ STANDARD_MODULES)).
  - intros (names' & ? & ?)%IH. exists names'. split; [by right|done].
  - destruct (decide (name ∈ names ∧ m ∈ repo_modules)) as [[? ?]|].
    + intros [= <-]. exists names. split; [left|done].
    + intros (names' & ? & ?)%IH. exists names'. split; [by right|done].
Qed.

Lemma collector_extends_refl (c : collector) : collector_extends origin c c.
Proof. split_and!; auto. Qed.

Lemma step_id : step (λ c, c).
Proof. by intros c0 c. Qed.

Lemma step_compose (f f' : collector → collector) :
  step f → step f' → step (λ c, f' (f c)).
Proof.
  intros Hf Hf' c0 c Hc. destruct (Hf c0 c Hc) as [H1 H2].
  destruct (Hf' c0 (f c) H1) as [H3 H4]. split; [done|congruence].
Qed.

Lemma step_foldl {A : Type} (f : A → collector → collector) (l : list A) :
  Forall (λ x, step (f x)) l → step (λ c, foldl (λ c x, f x c) c l).
Proof.
  induction 1 as [|x l Hx _ IH]; simpl; [apply step_id|].
  apply (step_compose (f x) (λ c, foldl (λ c x, f x c) c l)); done.
Qed.

Lemma step_add_dep (d : string) :
  (∀ locals, origin locals d) → step (add_dep d).
Proof.
  intros Hd c0 c (Hl & Hsub & Hnew). split; [|done]. split_and!; simpl.
  - done.
  - intros d' ?. apply elem_of_set_add. auto.
  - intros d' [->|?]%elem_of_set_add; auto.
Qed.

Lemma step_add_dep_local (d : string) (c0 c : collector) :
  collector_extends origin c0 c → origin (local_variables c0) d →
  collector_extends origin c0 (add_dep d c) ∧
  current_class (add_dep d c) = current_class c.
Proof.
  intros (Hl & Hsub & Hnew) Hd. split; [|done]. split_and!; simpl.
  - done.
  - intros d' ?. apply elem_of_set_add. auto.
  - intros d' [->|?]%elem_of_set_add; auto.
Qed.

Lemma step_add_local (x : string) : step (add_local x).
Proof.
  intros c0 c (Hl & Hsub & Hnew). split; [|done]. split_and!; simpl; [|done..].
  intros y ?. apply elem_of_set_add. auto.
Qed.

(** [_add_dependency] *)
Lemma step_add_dependency (name : string) :
  step (add_dependency builtins from_imports current_module repo_modules name).
Proof.
  intros c0 c Hc. unfold add_dependency.
  destruct (decide (name ∈ builtins)); [done|].
  destruct (decide (name ∈ EXCLUDED_NAMES)); [done|].
  destruct (decide (name ∈ local_variables c)) as [|Hloc]; [done|].
  assert (name ∉ local_variables c0).
  { intros ?. apply Hloc. by apply Hc. }
  destruct (importing_module repo_modules name from_imports) as [module|] eqn:Hm.
  - apply importing_module_Some in Hm as (names & ? & ? & ? & ?).
    apply step_add_dep_local; [done|]. right. left.
    exists module, names, name. by split_and!.
  - apply step_add_dep_local; [done|]. left. exists name. by split_and!.
Qed.

(** [_process_attribute] *)
Lemma step_process_attribute (e : expr) :
  step (process_attribute imports from_imports repo_modules e).
Proof.
  intros c0 c Hc. unfold process_attribute.
  destruct (attribute_chain e []) as [[| root ctx | |] rest]; try done.
  destruct (decide (root ∈ local_variables c)) as [|Hloc]; [done|].
  assert (root ∉ local_variables c0).
  { intros ?. apply Hloc. by apply Hc. }
  destruct (decide (root ∈ EXCLUDED_NAMES)); [done|].
  destruct (decide (root ∈ imports)).
  - destruct (decide (root ∈ STANDARD_MODULES)); [done|].
    destruct (decide (root ∈ repo_modules)); [|done].
    destruct rest as [|second rest]; [done|].
    apply step_add_dep_local; [done|]. right. right. left.
    exists root, second. by split_and!.
  - destruct (decide (root ∈ keys from_imports)); [|done].
    destruct (decide (root ∈ STANDARD_MODULES)); [done|].
    destruct rest as [|second rest]; [done|].
    destruct (dict_get from_imports root) as [names|] eqn:Hnames; simpl.
    + destruct (decide (second ∈ names)); [|done].
      apply step_add_dep_local; [done|]. right. right. right.
      exists root, names, second. by split_and!.
    + destruct (decide (second ∈ [])) as [[]%elem_of_nil|]. done.
Qed.

Lemma visit_expr_Call (f : expr) (args : list expr) (c : collector) :
  visit_expr' (Call f args) c
  = foldl (λ c e, visit_expr' e c)
      (visit_expr' f
         match f with
         | Name i _ =>
             add_dependency builtins from_imports current_module repo_modules
                            i c
         | Attribute _ _ =>
             process_attribute imports from_imports repo_modules f c
         | _ => c
         end) args.
Proof.
  simpl. generalize (visit_expr' f
         match f with
         | Name i _ =>
             add_dependency builtins from_imports current_module repo_modules
                            i c
         | Attribute _ _ =>
             process_attribute imports from_imports repo_modules f c
         | _ => c
         end).
  induction args as [|x args IH]; intros c1; simpl; [done|]. apply IH.
Qed.

Lemma step_visit_expr (e : expr) : step (visit_expr' e).
Proof.
  induction e as [v|i ctx|v a IH|f args IHf IHargs] using expr_induction.
  - apply step_id.
  - destruct ctx; simpl; [apply step_add_dependency|apply step_id..].
  - simpl.
    apply (step_compose
             (process_attribute imports from_imports repo_modules
                                (Attribute v a)) (visit_expr' v));
      [apply step_process_attribute|done].
  - intros c0 c Hc. rewrite visit_expr_Call.
    set (c1 := match f with
               | Name i _ =>
                   add_dependency builtins from_imports current_module
                                  repo_modules i c
               | Attribute _ _ =>
                   process_attribute imports from_imports repo_modules f c
               | _ => c
               end).
    assert (H1 : collector_extends origin c0 c1 ∧
                 current_class c1 = current_class c).
    { unfold c1. destruct f; try done;
        [by apply step_add_dependency|by apply step_process_attribute]. }
    destruct H1 as [H1 E1]. destruct (IHf c0 c1 H1) as [H2 E2].
    destruct (step_foldl (λ e, visit_expr' e) args IHargs c0 _ H2)
      as [H3 E3].
    split; [done|congruence].
Qed.

Lemma step_visit_exprs (l : list expr) :
  step (visit_exprs builtins imports from_imports current_module repo_modules
                    l).
Proof.
  unfold visit_exprs. apply (step_foldl (λ e, visit_expr' e)).
  apply Forall_forall. intros e _. apply step_visit_expr.
Qed.

Lemma visit_stmt_body (l : list stmt) (c : collector) :
  (fix visit_all (l : list stmt) (c : collector) {struct l} : collector :=
     match l with
     | [] => c
     | x :: l' => visit_all l' (visit_stmt' x c)
     end) l c
  = foldl (λ c s, visit_stmt' s c) c l.
Proof. revert c. induction l as [|x l IH]; intros c; simpl; [done|apply IH]. Qed.

Lemma step_visit_base (base : expr) :
  step (visit_base builtins imports from_imports current_module repo_modules
                   base).
Proof.
  destruct base; simpl;
    [apply step_id|apply step_add_dependency|apply step_process_attribute
    |apply step_id].
Qed.

Lemma step_bind_target (target : expr) : step (bind_target target).
Proof. destruct target; simpl; try apply step_id. apply step_add_local. Qed.

Lemma step_visit_stmt (s : stmt) : step (visit_stmt' s).
Proof.
  induction s as [name args b l e IH|name args b l e IH|name bases b l e IH
                 |targets value|value|names|module names|test b o IHb IHo|]
    using stmt_induction.
  - intros c0 c Hc. simpl. rewrite visit_stmt_body.
    by apply (step_foldl (λ s, visit_stmt' s) b IH).
  - intros c0 c Hc. simpl. rewrite visit_stmt_body.
    by apply (step_foldl (λ s, visit_stmt' s) b IH).
  - intros c0 c Hc. simpl. rewrite visit_stmt_body. split; [|done].
    assert (Hset : collector_extends origin c0 (set_class (Some name) c)).
    { destruct Hc as (? & ? & ?). by split_and!. }
    pose proof (step_foldl
      (λ base, visit_base builtins imports from_imports current_module
                          repo_modules base) bases) as Hbases.
    destruct (Hbases (proj2 (Forall_forall _ _) (λ x _, step_visit_base x))
                c0 _ Hset) as [H1 _].
    destruct (step_visit_exprs bases c0 _ H1) as [H2 _].
    destruct (step_foldl (λ s, visit_stmt' s) b IH c0 _ H2)
      as [(? & ? & ?) _].
    by split_and!.
  - intros c0 c Hc. simpl.
    pose proof (step_foldl (λ t, bind_target t) targets
                  (proj2 (Forall_forall _ _) (λ x _, step_bind_target x))
                  c0 c Hc) as [H1 E1].
    destruct (step_visit_exprs targets c0 _ H1) as [H2 E2].
    destruct (step_visit_expr value c0 _ H2) as [H3 E3].
    split; [done|congruence].
  - simpl. apply step_visit_expr.
  - apply step_id.
  - apply step_id.
  - intros c0 c Hc. simpl. rewrite !visit_stmt_body.
    destruct (step_visit_expr test c0 c Hc) as [H1 E1].
    destruct (step_foldl (λ s, visit_stmt' s) b IHb c0 _ H1) as [H2 E2].
    destruct (step_foldl (λ s, visit_stmt' s) o IHo c0 _ H2) as [H3 E3].
    split; [done|congruence].
  - apply step_id.
Qed.

End CollectorProofs.

(** A visit of the dependency collector keeps the local variables and the
    dependencies it was given and restores the current class; and every
    dependency it adds is [module.name] for a name read in the current
    module, a name imported from a module of the repository, or an
    attribute of an imported module.  The name is no builtin, [self] or
    [cls], nor a local variable of the start; the imported module is no
    standard module. *)
Theorem visit_stmt_dependencies (builtins : list string) (imports : pyset)
    (from_imports : dict (list string)) (current_module : string)
    (repo_modules : pyset) (s : stmt) (c : collector) :
  let c' := visit_stmt builtins imports from_imports current_module
                       repo_modules s c in
  current_class c' = current_class c ∧
  (∀ x, x ∈ local_variables c → x ∈ local_variables c') ∧
  (∀ d, d ∈ dependencies c → d ∈ dependencies c') ∧
  (∀ d, d ∈ dependencies c' →
        d ∈ dependencies c ∨
        dependency_origin builtins imports from_imports current_module
                          repo_modules (local_variables c) d).
Proof.
  destruct (step_visit_stmt builtins imports from_imports current_module
              repo_modules s c c
              (collector_extends_refl _ _ _ _ _ c))
    as [(? & ? & ?) ?].
  simpl. by split_and!.
Qed.

(** ** The import collector *)

Lemma within_nil (t : stmt) : ¬ within [] t.
Proof.
  induction 1 as [s Hs|p s _ IH _]; [by apply elem_of_nil in Hs|done].
Qed.

Lemma within_app (l1 l2 : list stmt) (t : stmt) :
  within (l1 ++ l2) t ↔ within l1 t ∨ within l2 t.
Proof.
  split.
  - induction 1 as [s Hs|p s _ IH Hs].
    + apply elem_of_app in Hs as [?|?]; [left|right]; by apply within_top.
    + destruct IH; [left|right]; by eapply within_child.
  - intros [H|H]; (eapply within_mono; [|exact H]); intros s Hs;
      apply within_top, elem_of_app; auto.
Qed.

Lemma within_singleton (s t : stmt) :
  within [s] t ↔ t = s ∨ within (child_stmts s) t.
Proof.
  split.
  - induction 1 as [s' Hs|p s' _ IH Hs].
    + apply list_elem_of_singleton in Hs. by left.
    + right. destruct IH as [->|IH]; [by apply within_top|].
      by eapply within_child.
  - intros [->|H]; [apply within_top; left|].
    induction H as [s' Hs|p s' _ IH Hs].
    + apply (within_child _ s); [apply within_top; left|done].
    + by eapply within_child.
Qed.

Lemma within_cons (s : stmt) (l : list stmt) (t : stmt) :
  within (s :: l) t ↔ within [s] t ∨ within l t.
Proof. apply (within_app [s] l). Qed.

Lemma imports_spec_refl (T : stmt → Prop) (st : import_state) :
  (∀ names, ¬ T (Import names)) →
  (∀ m names, ¬ T (ImportFrom (Some m) names)) →
  imports_spec T st st.
Proof. intros H1 H2. split_and!; intros; naive_solver. Qed.

Lemma imports_spec_trans (T T1 T2 : stmt → Prop) (st st1 st2 : import_state) :
  (∀ t, is_import t → T t ↔ T1 t ∨ T2 t) →
  imports_spec T1 st st1 → imports_spec T2 st1 st2 → imports_spec T st st2.
Proof.
  intros HT (Ha1 & Hb1 & Hc1) (Ha2 & Hb2 & Hc2).
  assert (HI : ∀ names, T (Import names)
                        ↔ T1 (Import names) ∨ T2 (Import names))
    by (intros; by apply HT).
  assert (HF : ∀ m names, T (ImportFrom (Some m) names)
                 ↔ T1 (ImportFrom (Some m) names)
                   ∨ T2 (ImportFrom (Some m) names))
    by (intros; by apply HT).
  split_and!.
  - intros x. rewrite Ha2, Ha1. setoid_rewrite HI. naive_solver.
  - intros m. rewrite Hb2, Hb1. setoid_rewrite HF. naive_solver.
  - intros m x. rewrite Hc2, Hc1. setoid_rewrite HF. naive_solver.
Qed.

Lemma imports_spec_iff (T T' : stmt → Prop) (st st' : import_state) :
  (∀ t, is_import t → T t ↔ T' t) →
  imports_spec T st st' → imports_spec T' st st'.
Proof.
  intros HT (Ha & Hb & Hc).
  assert (HI : ∀ names, T (Import names) ↔ T' (Import names))
    by (intros; by apply HT).
  assert (HF : ∀ m names, T (ImportFrom (Some m) names)
                          ↔ T' (ImportFrom (Some m) names))
    by (intros; by apply HT).
  split_and!.
  - intros x. rewrite Ha. by setoid_rewrite HI.
  - intros m. rewrite Hb. by setoid_rewrite HF.
  - intros m x. rewrite Hc. by setoid_rewrite HF.
Qed.

(** Lines 76-80. *)
Lemma visit_Import_spec (names : list string) (st : import_state) :
  imports_spec (λ t, t = Import names) st (visit_Import names st).
Proof.
  unfold visit_Import. split_and!; simpl.
  - intros x. rewrite elem_of_foldl_set_add. split.
    + intros [?|?]; [right|by left]. by exists names.
    + intros [?|(names' & [= <-] & ?)]; auto.
  - intros m. split; [by left|]. by intros [?|(? & [=])].
  - intros m x. split; [by left|]. by intros [?|(? & [=] & _)].
Qed.

(** Lines 88-90: the names of one [from m import ...]. *)
Lemma append_names_spec (m : string) (names : list string)
    (fi : dict (list string)) :
  m ∈ keys fi →
  let fi' := foldl (λ fi n, if decide (n ≠ "*")
                            then dict_set fi m (default [] (dict_get fi m) ++ [n])
                            else fi) fi names in
  keys fi' = keys fi ∧
  (∀ m', m' ≠ m → dict_get fi' m' = dict_get fi m') ∧
  (∀ x, x ∈ default [] (dict_get fi' m) ↔
        x ∈ default [] (dict_get fi m) ∨ (x ∈ names ∧ x ≠ "*")).
Proof.
  revert fi. induction names as [|n names IH]; intros fi Hm; simpl.
  - split_and!; [done..|]. intros x. rewrite elem_of_nil. tauto.
  - destruct (decide (n ≠ "*")) as [Hn|Hn].
    + destruct (IH (dict_set fi m (default [] (dict_get fi m) ++ [n])))
        as (Hk & Ho & Hv).
      { apply elem_of_keys_dict_set. by left. }
      split_and!.
      * rewrite Hk. by apply keys_dict_set_present.
      * intros m' Hm'. rewrite Ho by done. rewrite dict_get_set.
        by rewrite decide_False.
      * intros x. rewrite Hv, dict_get_set, decide_True by done. simpl.
        rewrite elem_of_app, list_elem_of_singleton, elem_of_cons.
        naive_solver.
    + apply dec_stable in Hn. subst n.
      destruct (IH fi Hm) as (Hk & Ho & Hv). split_and!; [done..|].
      intros x. rewrite Hv, elem_of_cons. naive_solver.
Qed.

(** Lines 82-93. *)
Lemma visit_ImportFrom_spec (module : option string) (names : list string)
    (st : import_state) :
  imports_spec (λ t, t = ImportFrom module names) st
               (visit_ImportFrom module names st).
Proof.
  unfold visit_ImportFrom. destruct module as [m|].
  - set (fi := if decide (m ∉ keys st.2) then dict_set st.2 m [] else st.2).
    assert (Hfik : ∀ m', m' ∈ keys fi ↔ m' ∈ keys st.2 ∨ m' = m).
    { intros m'. unfold fi. destruct (decide (m ∉ keys st.2)) as [|Hin].
      - rewrite elem_of_keys_dict_set. tauto.
      - apply dec_stable in Hin. naive_solver. }
    assert (Hfiv : ∀ m', default [] (dict_get fi m')
                         = default [] (dict_get st.2 m')).
    { intros m'. unfold fi. destruct (decide (m ∉ keys st.2)) as [Hout|];
        [|done].
      rewrite dict_get_set. destruct (decide (m = m')) as [<-|]; [|done].
      apply dict_get_None in Hout. by rewrite Hout. }
    destruct (append_names_spec m names fi) as (Hk & Ho & Hv).
    { apply Hfik. by right. }
    split_and!; simpl.
    + intros x. split; [by left|]. by intros [?|(? & [=] & _)].
    + intros m'. rewrite Hk, Hfik. split.
      * intros [?| ->]; [by left|right]. by exists names.
      * intros [?|(names' & [= -> _])]; auto.
    + intros m' x. destruct (decide (m' = m)) as [->|Hne].
      * rewrite Hv, Hfiv. split.
        -- intros [?|[? ?]]; [by left|right]. by exists names.
        -- intros [?|(names' & [= <-] & ? & ?)]; auto.
      * rewrite Ho, Hfiv by done. split; [by left|].
        intros [?|(names' & [= -> _] & _)]; done.
  - split_and!; simpl.
    + intros x. split; [by left|]. by intros [?|(? & [=] & _)].
    + intros m. split; [by left|]. by intros [?|(? & [=])].
    + intros m x. split; [by left|]. by intros [?|(? & [=] & _)].
Qed.

Lemma import_visit_body (l : list stmt) (st : import_state) :
  (fix visit_all (l : list stmt) (st : import_state) {struct l}
     : import_state :=
     match l with
     | [] => st
     | x :: l' => visit_all l' (import_visit x st)
     end) l st
  = foldl (λ st s, import_visit s st) st l.
Proof.
  revert st. induction l as [|x l IH]; intros st; simpl; [done|apply IH].
Qed.

Lemma import_visit_list_spec (l : list stmt) :
  Forall (λ s, ∀ st, imports_spec (within [s]) st (import_visit s st)) l →
  ∀ st, imports_spec (within l) st (foldl (λ st s, import_visit s st) st l).
Proof.
  induction 1 as [|s l Hs _ IH]; intros st; simpl.
  - apply imports_spec_refl; intros; apply within_nil.
  - eapply imports_spec_trans; [|apply Hs|apply IH].
    intros t _. apply within_cons.
Qed.

Lemma import_visit_spec (s : stmt) (st : import_state) :
  imports_spec (within [s]) st (import_visit s st).
Proof.
  revert st.
  induction s as [name args b l e IH|name args b l e IH|name bases b l e IH
                 |targets value|value|names|module names|test b o IHb IHo|]
    using stmt_induction; intros st.
  - simpl. rewrite import_visit_body.
    eapply imports_spec_iff; [|by apply import_visit_list_spec].
    intros t Ht. rewrite within_singleton. simpl.
    split; [by right|]. by intros [->|?].
  - simpl. rewrite import_visit_body.
    eapply imports_spec_iff; [|by apply import_visit_list_spec].
    intros t Ht. rewrite within_singleton. simpl.
    split; [by right|]. by intros [->|?].
  - simpl. rewrite import_visit_body.
    eapply imports_spec_iff; [|by apply import_visit_list_spec].
    intros t Ht. rewrite within_singleton. simpl.
    split; [by right|]. by intros [->|?].
  - apply imports_spec_refl; intros;
      rewrite within_singleton; simpl; intros [?|?%within_nil]; done.
  - apply imports_spec_refl; intros;
      rewrite within_singleton; simpl; intros [?|?%within_nil]; done.
  - simpl. eapply imports_spec_iff; [|apply visit_Import_spec].
    intros t _. rewrite within_singleton. simpl. split; [by left|].
    by intros [?|?%within_nil].
  - simpl. eapply imports_spec_iff; [|apply visit_ImportFrom_spec].
    intros t _. rewrite within_singleton. simpl. split; [by left|].
    by intros [?|?%within_nil].
  - simpl. rewrite !import_visit_body.
    eapply (imports_spec_trans _ (within b) (within o));
      [|by apply import_visit_list_spec..].
    intros t Ht. rewrite within_singleton. simpl. rewrite within_app.
    split; [by intros [->|?]|by right].
  - apply imports_spec_refl; intros;
      rewrite within_singleton; simpl; intros [?|?%within_nil]; done.
Qed.

(** The import collector records the names of the [import] statements of the
    tree, at any depth; for each [from m import ...] with a module name it
    records [m], and under [m] the names imported other than [*]; a [from]
    import without a module name records nothing. *)
Theorem collect_imports_spec (tree : list stmt) :
  (∀ x, x ∈ (collect_imports tree).1 ↔
        ∃ names, within tree (Import names) ∧ x ∈ names) ∧
  (∀ m, m ∈ keys (collect_imports tree).2 ↔
        ∃ names, within tree (ImportFrom (Some m) names)) ∧
  (∀ m x, x ∈ default [] (dict_get (collect_imports tree).2 m) ↔
          ∃ names, within tree (ImportFrom (Some m) names) ∧
                   x ∈ names ∧ x ≠ "*").
Proof.
  unfold collect_imports.
  destruct (import_visit_list_spec tree
              (proj2 (Forall_forall _ _) (λ s _, import_visit_spec s))
              ([], [])) as (Ha & Hb & Hc).
  split_and!.
  - intros x. rewrite Ha. simpl. rewrite elem_of_nil. tauto.
  - intros m. rewrite Hb. simpl. rewrite elem_of_nil. tauto.
  - intros m x. rewrite Hc. simpl. rewrite elem_of_nil. tauto.
Qed.

(** ** Module paths *)

Lemma ends_with_py_app (p : string) : ends_with_py (p +:+ ".py") = true.
Proof.
  induction p as [|c p IH]; simpl; [done|].
  by destruct (decide (String c (p +:+ ".py") = ".py")).
Qed.

Lemma length_append (p s : string) :
  String.length (p +:+ s) = String.length p + String.length s.
Proof. induction p as [|c p IH]; simpl; [done|by rewrite IH]. Qed.

Lemma substring_prefix (p s : string) :
  String.substring 0 (String.length p) (p +:+ s) = p.
Proof.
  induction p as [|c p IH]; simpl; [by destruct s|by rewrite IH].
Qed.

Lemma drop_last3_app (p : string) : drop_last3 (p +:+ ".py") = p.
Proof.
  unfold drop_last3. rewrite length_append. simpl.
  replace (String.length p + 3 - 3) with (String.length p) by lia.
  apply substring_prefix.
Qed.

Lemma replace_char_absent (a b : Ascii.ascii) (s : string) :
  a ≠ b → a ∉ String.list_ascii_of_string (replace_char a b s).
Proof.
  intros Hab. induction s as [|c s IH]; simpl; [apply not_elem_of_nil|].
  apply not_elem_of_cons. split; [|done]. by destruct (decide (c = a)).
Qed.

(** The module path of a file [p.py] is [p] with every separator replaced
    by a dot, and no module path holds a separator. *)
Theorem file_to_module_path_spec (p : string) :
  file_to_module_path (p +:+ ".py") = replace_char "/"%char dot p ∧
  "/"%char ∉ String.list_ascii_of_string (file_to_module_path p).
Proof.
  unfold file_to_module_path. split.
  - by rewrite ends_with_py_app, drop_last3_app.
  - by apply replace_char_absent.
Qed.

(** ** Records read from the file *)

Lemma from_dict_required (data : dict json) (field : string)
    (c : CodeComponent) :
  field ∈ REQUIRED_FIELDS → dict_get data field = None →
  from_dict data ≠ Ok c.
Proof.
  unfold REQUIRED_FIELDS, from_dict, dict_item. intros Hf Hnone.
  repeat (apply elem_of_cons in Hf as [->|Hf]);
    [..|by apply elem_of_nil in Hf];
    repeat (match goal with
            | |- context [dict_get data ?k] =>
                lazymatch goal with
                | H : dict_get data k = None |- _ => rewrite H; simpl
                | _ => destruct (dict_get data k) as [[]|]; simpl; try done
                end
            end); done.
Qed.

Lemma for_each_Ok_elem {A S : Type} (body : A → S → res S) (l : list A)
    (s s' : S) (x : A) :
  for_each body l s = Ok s' → x ∈ l → ∃ s1 s2, body x s1 = Ok s2.
Proof.
  revert s. induction l as [|y l IH]; intros s; simpl;
    [by intros _ ?%elem_of_nil|].
  intros (s1 & Hs1 & Hrest)%bind_Ok [->|Hx]%elem_of_cons; eauto.
Qed.

(** [load_dependency_graph] returns no table when a record of the file
    lacks one of the fields [id], [component_type], [file_path] and
    [relative_path]: the records before it are not kept. *)
Theorem load_requires_fields (l : list (string * json)) (k : string)
    (data : list (string * json)) (field : string) :
  dict_get (dict_of_pairs l) k = Some (JObj data) →
  field ∈ REQUIRED_FIELDS →
  dict_get (dict_of_pairs data) field = None →
  ∀ table, load_dependency_graph (JObj l) ≠ Ok table.
Proof.
  intros Hk Hf Hnone table Hload. simpl in Hload.
  apply dict_get_Some in Hk.
  destruct (for_each_Ok_elem _ _ _ _ _ Hload Hk) as (s1 & s2 & Hbody).
  unfold load_component in Hbody. simpl in Hbody.
  apply bind_Ok in Hbody as (c & Hc & _).
  by eapply from_dict_required.
Qed.

Lemma load_requires_fields_witness :
  dict_get (dict_of_pairs broken_file) "mod.g"
  = Some (JObj [("id", JStr "mod.g")]) ∧
  "file_path" ∈ REQUIRED_FIELDS ∧
  dict_get (dict_of_pairs [("id", JStr "mod.g")]) "file_path" = None ∧
  ∀ table, load_dependency_graph (JObj broken_file) ≠ Ok table.
Proof.
  assert (H1 : dict_get (dict_of_pairs broken_file) "mod.g"
               = Some (JObj [("id", JStr "mod.g")])) by reflexivity.
  assert (H2 : "file_path" ∈ REQUIRED_FIELDS).
  { unfold REQUIRED_FIELDS. set_solver. }
  assert (H3 : dict_get (dict_of_pairs [("id", JStr "mod.g")]) "file_path"
               = None) by reflexivity.
  split; [exact H1|]. split; [exact H2|]. split; [exact H3|].
  exact (load_requires_fields broken_file "mod.g" [("id", JStr "mod.g")]
           "file_path" H1 H2 H3).
Defined.

(** A record that holds the four required fields and no other is read with
    the defaults of lines 57-61: no dependency, lines [0], no docstring. *)
Theorem from_dict_defaults (data : dict json) (i ct fp rp : string) :
  dict_get data "id" = Some (JStr i) →
  dict_get data "component_type" = Some (JStr ct) →
  dict_get data "file_path" = Some (JStr fp) →
  dict_get data "relative_path" = Some (JStr rp) →
  dict_get data "depends_on" = None →
  dict_get data "start_line" = None →
  dict_get data "end_line" = None →
  dict_get data "has_docstring" = None →
  dict_get data "docstring" = None →
  from_dict data = Ok (mkComponent i None ct fp rp [] None 0 0 false "").
Proof.
  intros H1 H2 H3 H4 H5 H6 H7 H8 H9.
  unfold from_dict, dict_item, get_default.
  by rewrite H1, H2, H3, H4, H5, H6, H7, H8, H9.
Qed.

Lemma from_dict_defaults_witness :
  from_dict minimal_record
  = Ok (mkComponent "mod.f" None "function" "/r/mod.py" "mod.py" [] None 0 0
                    false "").
Proof.
  exact (from_dict_defaults minimal_record "mod.f" "function" "/r/mod.py"
           "mod.py" eq_refl eq_refl eq_refl eq_refl eq_refl eq_refl eq_refl
           eq_refl eq_refl).
Defined.

(** ** Finding the node of a component again *)

Lemma relocate_function_snoc (name : string) (tree : list stmt) (n : stmt)
    (found : option stmt) :
  relocate_function name (tree ++ [n]) found
  = if decide (function_named name n) then Some n
    else relocate_function name tree found.
Proof.
  unfold relocate_function. rewrite foldl_app. simpl.
  destruct (decide (function_named name n)) as [[Hf Hn]|Hno].
  - rewrite bool_decide_eq_true_2 by done.
    by destruct (is_function_def n).
  - destruct (is_function_def n) eqn:Hf; [|done].
    rewrite bool_decide_eq_false_2; [done|].
    intros Hn. apply Hno. split; [by rewrite Hf|done].
Qed.

(** For a function the node is the last child of the module that is a
    function of that name, for a class the first child that is a class of
    that name; when there is none, the node stays what it was for the
    component before (line 376 assigns to another variable). *)
Theorem relocate_last_function_first_class (name : string) (tree : list stmt)
    (found : option stmt) :
  relocate_function name tree found
  = from_option Some found (last (filter (function_named name) tree)) ∧
  relocate_class name tree found
  = from_option Some found (head (filter (class_named name) tree)).
Proof.
  split.
  - induction tree as [|n tree IH] using rev_ind; [done|].
    rewrite relocate_function_snoc, filter_app, filter_cons, filter_nil.
    destruct (decide (function_named name n)).
    + by rewrite last_snoc.
    + by rewrite app_nil_r.
  - induction tree as [|n tree IH]; [done|].
    rewrite filter_cons.
    destruct (decide (class_named name n)) as [[Hc Hn]|Hno].
    + destruct n; try done. simpl in Hn. subst. simpl.
      by rewrite decide_True.
    + destruct n as [| |cname bases b l e| | | | | |]; try exact IH.
      simpl. rewrite decide_False; [exact IH|].
      intros ->. by apply Hno.
Qed.

(** ** The flag of a method, and the first component that is not found *)

Lemma collect_methods_other segment file rel source class_id class_node
    (body : list stmt) (components : components_table) (k : string) :
  (∀ x, x ∈ body → is_function_def x → class_id +:+ "." +:+ stmt_name x ≠ k) →
  dict_get (foldl (λ cs item, collect_method segment file rel source class_id
                                 class_node item cs) components body) k
  = dict_get components k.
Proof.
  revert components. induction body as [|x body IH]; intros components Hne;
    simpl; [done|].
  rewrite IH by (intros y Hy; apply Hne; by right).
  unfold collect_method. destruct (is_function_def x) eqn:Hx; [|done].
  rewrite dict_get_set, decide_False; [done|].
  apply Hne; [left|by rewrite Hx].
Qed.

(** Lines 284-310: the component of a method carries the docstring flag of
    the class it is a child of (the test of lines 288-293 reads the body of
    the class), and as docstring, when that flag is set, the first bare
    string literal among the statements of the method. *)
Theorem method_docstring_flag (segment : string → stmt → option string)
    (file rel module source name : string) (bases : list expr)
    (body l1 l2 : list stmt) (item : stmt) (l : Z) (e : option Z)
    (top : bool) (components : components_table) :
  body = l1 ++ item :: l2 → is_function_def item →
  (∀ x, x ∈ l2 → is_function_def x → stmt_name x ≠ stmt_name item) →
  ∃ table m,
    collect_node segment file rel module source
                 (ClassDef name bases body l e, top) components = Ok table ∧
    dict_get table ((module +:+ "." +:+ name) +:+ "." +:+ stmt_name item)
    = Some m ∧
    component_type m = "method" ∧ node m = Some item ∧
    has_docstring m = starts_with_string body ∧
    docstring m = if starts_with_string body then get_docstring item
                  else EmptyString.
Proof.
  intros -> Hitem Hlater. unfold collect_node. cbn [fst snd].
  eexists _, _. split; [done|]. rewrite foldl_app. simpl.
  rewrite collect_methods_other.
  - unfold collect_method at 1. destruct (is_function_def item); [|done].
    rewrite dict_get_set, decide_True by done. by split_and!.
  - intros x Hx Hf Heq. apply (Hlater x Hx Hf).
    by apply (inj (String.app _)), (inj (String.app _)) in Heq.
Qed.

Lemma method_docstring_flag_witness :
  ∃ table m,
    collect_node (λ _ _, None) "/r/mod.py" "mod.py" "mod" ""
                 (ClassDef "Foo" []
                    [Expr (Constant (CStr "A class.")); bar_method]
                    1 (Some 4%Z), true) [] = Ok table ∧
    dict_get table (("mod" +:+ "." +:+ "Foo") +:+ "." +:+ stmt_name bar_method)
    = Some m ∧
    component_type m = "method" ∧ node m = Some bar_method ∧
    has_docstring m
    = starts_with_string [Expr (Constant (CStr "A class.")); bar_method] ∧
    docstring m
    = if starts_with_string [Expr (Constant (CStr "A class.")); bar_method]
      then get_docstring bar_method else EmptyString.
Proof.
  apply (method_docstring_flag (λ _ _, None) "/r/mod.py" "mod.py" "mod" ""
           "Foo" [] [Expr (Constant (CStr "A class.")); bar_method]
           [Expr (Constant (CStr "A class."))] [] bar_method 1 (Some 4%Z)
           true []).
  - reflexivity.
  - exact I.
  - intros x Hx. by apply elem_of_nil in Hx.
Defined.

Lemma resolve_component_unfound (builtins : list string)
    (read : string → res (string * list stmt)) (modules : pyset)
    (k : string) (c : CodeComponent) (st : resolve_state)
    (source : string) (tree : list stmt) :
  dict_get st.1 k = Some c →
  read (file_path c) = Ok (source, tree) →
  relocate c tree st.2 = Ok None →
  resolve_component builtins read modules k st = Raise UnboundLocalError.
Proof.
  intros Hget Hread Hrel. unfold resolve_component, dict_item.
  rewrite Hget. simpl. rewrite Hread.
  destruct (collect_imports tree) as [imports from_imports].
  by rewrite Hrel.
Qed.

(** When the node of the first component of the table is not found again in
    its file, [_resolve_dependencies] raises [UnboundLocalError]: line 376
    assigns [None] to [comonent_node], so [component_node] is read unbound
    at line 407, and the handler of line 429 does not catch the error. *)
Theorem resolve_dependencies_first_unfound (builtins : list string)
    (read : string → res (string * list stmt)) (modules : pyset)
    (k : string) (c : CodeComponent) (rest : components_table)
    (source : string) (tree : list stmt) :
  read (file_path c) = Ok (source, tree) →
  relocate c tree None = Ok None →
  resolve_dependencies builtins read modules ((k, c) :: rest)
  = Raise UnboundLocalError.
Proof.
  intros Hread Hrel. unfold resolve_dependencies.
  change (keys ((k, c) :: rest)) with (k :: keys rest). cbn [for_each].
  match goal with
  | |- context [resolve_component ?b ?r ?m ?i ?st] =>
      assert (H : resolve_component b r m i st = Raise UnboundLocalError)
  end.
  { apply (resolve_component_unfound _ _ _ k c _ source tree); [|done..].
    cbn [fst dict_get]. by rewrite decide_True. }
  by rewrite H.
Qed.

Lemma resolve_dependencies_first_unfound_witness :
  nested_class_repository (file_path inner_class_component)
  = Ok ("", [ If (Name "x" Load) [ClassDef "Inner" [] [Pass] 2 (Some 3%Z)] [] ]) ∧
  relocate inner_class_component
           [ If (Name "x" Load) [ClassDef "Inner" [] [Pass] 2 (Some 3%Z)] [] ]
           None = Ok None ∧
  resolve_dependencies [] nested_class_repository ["mod"]
                       [("mod.Inner", inner_class_component)]
  = Raise UnboundLocalError.
Proof.
  split; [reflexivity|]. split; [reflexivity|].
  exact (resolve_dependencies_first_unfound [] nested_class_repository ["mod"]
           "mod.Inner" inner_class_component [] ""
           [ If (Name "x" Load) [ClassDef "Inner" [] [Pass] 2 (Some 3%Z)] [] ]
           eq_refl eq_refl).
Defined.
